(** * A shallow embedding of the six-seat Texas Hold'em hand engine

    The development follows the TypeScript sources of the poker library:
    [card.ts] (cards and the deck), [player.ts] (one seat) and [game.ts]
    (the hand state machine).  Chips and bet sizes are integers ([Z]), seat
    and array indices are naturals, JavaScript arrays are lists read with
    [!!] and written with [<[i:=x]>].  Objects held in [this.players] are
    shared by reference in the source; here a reference is the index of the
    object in the array.

    The engine is mutable and may throw; both effects are kept: a method is
    a function from the engine state to a result that is either a value or
    an exception, each paired with the state reached at that point. *)

From Stdlib Require Import ZArith List String Ascii Bool Lia DecimalString.
From stdpp Require Import base list.
Import ListNotations.

Local Open Scope Z_scope.

(** JavaScript template strings: concatenation and the decimal rendering of
    an integral number. *)
Definition str_cat (a b : string) : string := String.append a b.
Infix "+++" := str_cat (right associativity, at level 60).

Definition num_to_string (z : Z) : string := NilZero.string_of_int (Z.to_int z).
Definition idx_to_string (n : nat) : string := num_to_string (Z.of_nat n).

Fixpoint join (sep : string) (l : list string) : string :=
  match l with
  | [] => EmptyString
  | [s] => s
  | s :: rest => s +++ sep +++ join sep rest
  end.

(** [Array.prototype.pop]: the last element and the array without it. *)
Fixpoint pop {A : Type} (l : list A) : option (A * list A) :=
  match l with
  | [] => None
  | x :: rest =>
      match pop rest with
      | None => Some (x, [])
      | Some (y, rest') => Some (y, x :: rest')
      end
  end.

(** Indices (references) of the elements that pass a test, in array order:
    [arr.filter(f)] when the result is used to mutate the selected objects. *)
Fixpoint filter_refs_from {A : Type} (f : A -> bool) (base : nat) (l : list A) : list nat :=
  match l with
  | [] => []
  | x :: rest =>
      if f x then base :: filter_refs_from f (S base) rest
      else filter_refs_from f (S base) rest
  end.

Definition filter_refs {A : Type} (f : A -> bool) (l : list A) : list nat :=
  filter_refs_from f 0%nat l.

(** ** card.ts *)
Module Card.

Inductive Suit := HEARTS | DIAMONDS | CLUBS | SPADES.

Inductive Rank :=
| TWO | THREE | FOUR | FIVE | SIX | SEVEN | EIGHT | NINE | TEN
| JACK | QUEEN | KING | ACE.

Definition suit_value (s : Suit) : string :=
  match s with
  | HEARTS => "h" | DIAMONDS => "d" | CLUBS => "c" | SPADES => "s"
  end.

Definition rank_value (r : Rank) : string :=
  match r with
  | TWO => "2" | THREE => "3" | FOUR => "4" | FIVE => "5" | SIX => "6"
  | SEVEN => "7" | EIGHT => "8" | NINE => "9" | TEN => "T"
  | JACK => "J" | QUEEN => "Q" | KING => "K" | ACE => "A"
  end.

(** [Object.values] of the two enums, in declaration order. *)
Definition suits : list Suit := [HEARTS; DIAMONDS; CLUBS; SPADES].
Definition ranks : list Rank :=
  [TWO; THREE; FOUR; FIVE; SIX; SEVEN; EIGHT; NINE; TEN; JACK; QUEEN; KING; ACE].

Record t := mk { rank : Rank; suit : Suit }.

Definition toString (c : t) : string := rank_value (rank c) +++ suit_value (suit c).

(** A card object as [fromString] builds it: [cardStr[0] as Rank] and
    [cardStr[1] as Suit] are casts that check nothing, so the two fields hold
    whatever one-character strings the input has.  Strings are taken over
    one-byte characters, for which [length] counts as in the source. *)
Record raw := mk_raw { raw_rank : string; raw_suit : string }.

(** The object behind a card built from the two enums, and the template
    string of [toString] on such an object. *)
Definition erase (c : t) : raw := mk_raw (rank_value (rank c)) (suit_value (suit c)).

Definition raw_toString (c : raw) : string := raw_rank c +++ raw_suit c.

(** [cardStr[i]] *)
Definition char_at (i : nat) (cardStr : string) : string := String.substring i 1 cardStr.

(** [fromString]: [None] stands for the thrown "Invalid card string". *)
Definition fromString (cardStr : string) : option raw :=
  if negb (String.length cardStr =? 2)%nat then None
  else
    let rank := char_at 0 cardStr in
    let suit := char_at 1 cardStr in
    Some (mk_raw rank suit).

End Card.

(** The deck.  [Math.floor(Math.random() * (i + 1))] is an integer between
    [0] and [i]; the draws of one shuffle are supplied by [rnd], the draw of
    loop index [i] being [rnd i] reduced modulo [i + 1]. *)
Module Deck.

Abbreviation t := (list Card.t).

Definition fresh : t :=
  flat_map (fun s => map (fun r => Card.mk r s) Card.ranks) Card.suits.

(** [[cards[i], cards[j]] = [cards[j], cards[i]]] *)
Definition swap (i j : nat) (cards : t) : t :=
  match cards !! i, cards !! j with
  | Some ci, Some cj => <[j := ci]> (<[i := cj]> cards)
  | _, _ => cards
  end.

(** [for (let i = length - 1; i > 0; i--)] *)
Fixpoint shuffle_from (rnd : nat -> nat) (i : nat) (cards : t) : t :=
  match i with
  | O => cards
  | S i' => shuffle_from rnd i' (swap i (rnd i mod (i + 1))%nat cards)
  end.

Definition shuffle (rnd : nat -> nat) (cards : t) : t :=
  shuffle_from rnd (length cards - 1)%nat cards.

Definition reset (rnd : nat -> nat) : t := shuffle rnd fresh.

(** [deal] pops the last card; [None] stands for the thrown
    "Cannot deal from empty deck". *)
Definition deal (cards : t) : option (Card.t * t) := pop cards.

Definition remainingCards (cards : t) : nat := length cards.

End Deck.

(** ** player.ts *)
Inductive PlayerAction :=
| FOLD | CHECK | CALL | BET | RAISE | ALL_IN
| UNKNOWN (raw : string).

Module Player.

Record t := mk {
  id : nat;
  name : string;
  stack : Z;
  holeCards : list Card.t;
  currentBet : Z;
  totalBetThisHand : Z;
  hasFolded : bool;
  isAllIn : bool;
  hasActed : bool
}.

Definition create (id : nat) (name : string) (stack : Z) : t :=
  mk id name stack [] 0 0 false false false.

Definition set_stack (v : Z) (p : t) : t :=
  mk (id p) (name p) v (holeCards p) (currentBet p) (totalBetThisHand p)
     (hasFolded p) (isAllIn p) (hasActed p).

Definition set_holeCards (v : list Card.t) (p : t) : t :=
  mk (id p) (name p) (stack p) v (currentBet p) (totalBetThisHand p)
     (hasFolded p) (isAllIn p) (hasActed p).

Definition set_currentBet (v : Z) (p : t) : t :=
  mk (id p) (name p) (stack p) (holeCards p) v (totalBetThisHand p)
     (hasFolded p) (isAllIn p) (hasActed p).

Definition set_totalBetThisHand (v : Z) (p : t) : t :=
  mk (id p) (name p) (stack p) (holeCards p) (currentBet p) v
     (hasFolded p) (isAllIn p) (hasActed p).

Definition set_hasFolded (v : bool) (p : t) : t :=
  mk (id p) (name p) (stack p) (holeCards p) (currentBet p) (totalBetThisHand p)
     v (isAllIn p) (hasActed p).

Definition set_isAllIn (v : bool) (p : t) : t :=
  mk (id p) (name p) (stack p) (holeCards p) (currentBet p) (totalBetThisHand p)
     (hasFolded p) v (hasActed p).

Definition set_hasActed (v : bool) (p : t) : t :=
  mk (id p) (name p) (stack p) (holeCards p) (currentBet p) (totalBetThisHand p)
     (hasFolded p) (isAllIn p) v.

Definition reset (p : t) : t :=
  mk (id p) (name p) (stack p) [] 0 0 false false false.

Definition dealHoleCards (cards : list Card.t) (p : t) : t := set_holeCards cards p.

(** [bet] returns the amount actually committed and the updated seat. *)
Definition bet (amount : Z) (p : t) : Z * t :=
  let actualAmount := Z.min amount (stack p) in
  let p1 := set_stack (stack p - actualAmount) p in
  let p2 := set_currentBet (currentBet p1 + actualAmount) p1 in
  let p3 := set_totalBetThisHand (totalBetThisHand p2 + actualAmount) p2 in
  let p4 := set_hasActed true p3 in
  let p5 := if stack p4 =? 0 then set_isAllIn true p4 else p4 in
  (actualAmount, p5).

Definition fold (p : t) : t := set_hasActed true (set_hasFolded true p).

Definition check (p : t) : t := set_hasActed true p.

Definition call (amountToCall : Z) (p : t) : Z * t :=
  let actualAmount := Z.min amountToCall (stack p) in
  bet actualAmount p.

Definition allIn (p : t) : Z * t :=
  let amount := stack p in
  (amount, snd (bet amount p)).

Definition canAct (p : t) : bool :=
  negb (hasFolded p) && negb (isAllIn p) && (0 <? stack p).

Definition getHoleCardsString (p : t) : string :=
  join EmptyString (map Card.toString (holeCards p)).

End Player.

(** ** types.ts *)
Module GameAction.

Record t := mk {
  playerId : Z;
  action : string;
  amount : option Z;
  phase : string
}.

End GameAction.

Module HandResult.

Record positions_t := mk_positions {
  dealer : nat;
  smallBlind : nat;
  bigBlind : nat
}.

(** An object keyed by player id is the list of its entries, in the order
    the keys were written.  [timestamp] is a [Date], as a number. *)
Record t := mk {
  handId : string;
  stackSettings : list Z;
  positions : positions_t;
  holeCards : list (nat * string);
  actionSequence : string;
  winnings : list (nat * Z);
  timestamp : Z
}.

End HandResult.

(** ** game.ts *)
Inductive GamePhase := SETUP | PREFLOP | FLOP | TURN | RIVER | SHOWDOWN | FINISHED.

Definition phase_value (p : GamePhase) : string :=
  match p with
  | SETUP => "setup" | PREFLOP => "preflop" | FLOP => "flop" | TURN => "turn"
  | RIVER => "river" | SHOWDOWN => "showdown" | FINISHED => "finished"
  end.

Definition phase_eqb (a b : GamePhase) : bool :=
  match a, b with
  | SETUP, SETUP | PREFLOP, PREFLOP | FLOP, FLOP | TURN, TURN
  | RIVER, RIVER | SHOWDOWN, SHOWDOWN | FINISHED, FINISHED => true
  | _, _ => false
  end.

(** What a method can throw: the three [new Error(...)] of the sources and
    the [TypeError] of a property access on [undefined]. *)
Inductive Error :=
| InvalidStackCount   (* "Must provide exactly 6 stack sizes" *)
| NoPlayersWithChips  (* "No players with chips remaining" *)
| EmptyDeck           (* "Cannot deal from empty deck" *)
| TypeError.

Module PokerGame.

Record t := mk {
  deck : Deck.t;
  players : list Player.t;
  communityCards : list Card.t;
  pot : Z;
  currentBet : Z;
  activePlayerIndex : nat;
  dealerIndex : nat;
  smallBlindIndex : nat;
  bigBlindIndex : nat;
  phase : GamePhase;
  actionLog : list string;
  gameActions : list GameAction.t;
  handId : string;
  isFirstAction : bool;
  initialStacks : list Z
}.

Definition SMALL_BLIND : Z := 20.
Definition BIG_BLIND : Z := 40.

Definition set_deck (v : Deck.t) (g : t) : t :=
  mk v (players g) (communityCards g) (pot g) (currentBet g) (activePlayerIndex g)
     (dealerIndex g) (smallBlindIndex g) (bigBlindIndex g) (phase g) (actionLog g)
     (gameActions g) (handId g) (isFirstAction g) (initialStacks g).
Definition set_players (v : list Player.t) (g : t) : t :=
  mk (deck g) v (communityCards g) (pot g) (currentBet g) (activePlayerIndex g)
     (dealerIndex g) (smallBlindIndex g) (bigBlindIndex g) (phase g) (actionLog g)
     (gameActions g) (handId g) (isFirstAction g) (initialStacks g).
Definition set_communityCards (v : list Card.t) (g : t) : t :=
  mk (deck g) (players g) v (pot g) (currentBet g) (activePlayerIndex g)
     (dealerIndex g) (smallBlindIndex g) (bigBlindIndex g) (phase g) (actionLog g)
     (gameActions g) (handId g) (isFirstAction g) (initialStacks g).
Definition set_pot (v : Z) (g : t) : t :=
  mk (deck g) (players g) (communityCards g) v (currentBet g) (activePlayerIndex g)
     (dealerIndex g) (smallBlindIndex g) (bigBlindIndex g) (phase g) (actionLog g)
     (gameActions g) (handId g) (isFirstAction g) (initialStacks g).
Definition set_currentBet (v : Z) (g : t) : t :=
  mk (deck g) (players g) (communityCards g) (pot g) v (activePlayerIndex g)
     (dealerIndex g) (smallBlindIndex g) (bigBlindIndex g) (phase g) (actionLog g)
     (gameActions g) (handId g) (isFirstAction g) (initialStacks g).
Definition set_activePlayerIndex (v : nat) (g : t) : t :=
  mk (deck g) (players g) (communityCards g) (pot g) (currentBet g) v
     (dealerIndex g) (smallBlindIndex g) (bigBlindIndex g) (phase g) (actionLog g)
     (gameActions g) (handId g) (isFirstAction g) (initialStacks g).
Definition set_dealerIndex (v : nat) (g : t) : t :=
  mk (deck g) (players g) (communityCards g) (pot g) (currentBet g) (activePlayerIndex g)
     v (smallBlindIndex g) (bigBlindIndex g) (phase g) (actionLog g)
     (gameActions g) (handId g) (isFirstAction g) (initialStacks g).
Definition set_smallBlindIndex (v : nat) (g : t) : t :=
  mk (deck g) (players g) (communityCards g) (pot g) (currentBet g) (activePlayerIndex g)
     (dealerIndex g) v (bigBlindIndex g) (phase g) (actionLog g)
     (gameActions g) (handId g) (isFirstAction g) (initialStacks g).
Definition set_bigBlindIndex (v : nat) (g : t) : t :=
  mk (deck g) (players g) (communityCards g) (pot g) (currentBet g) (activePlayerIndex g)
     (dealerIndex g) (smallBlindIndex g) v (phase g) (actionLog g)
     (gameActions g) (handId g) (isFirstAction g) (initialStacks g).
Definition set_phase (v : GamePhase) (g : t) : t :=
  mk (deck g) (players g) (communityCards g) (pot g) (currentBet g) (activePlayerIndex g)
     (dealerIndex g) (smallBlindIndex g) (bigBlindIndex g) v (actionLog g)
     (gameActions g) (handId g) (isFirstAction g) (initialStacks g).
Definition set_actionLog (v : list string) (g : t) : t :=
  mk (deck g) (players g) (communityCards g) (pot g) (currentBet g) (activePlayerIndex g)
     (dealerIndex g) (smallBlindIndex g) (bigBlindIndex g) (phase g) v
     (gameActions g) (handId g) (isFirstAction g) (initialStacks g).
Definition set_gameActions (v : list GameAction.t) (g : t) : t :=
  mk (deck g) (players g) (communityCards g) (pot g) (currentBet g) (activePlayerIndex g)
     (dealerIndex g) (smallBlindIndex g) (bigBlindIndex g) (phase g) (actionLog g)
     v (handId g) (isFirstAction g) (initialStacks g).
Definition set_handId (v : string) (g : t) : t :=
  mk (deck g) (players g) (communityCards g) (pot g) (currentBet g) (activePlayerIndex g)
     (dealerIndex g) (smallBlindIndex g) (bigBlindIndex g) (phase g) (actionLog g)
     (gameActions g) v (isFirstAction g) (initialStacks g).
Definition set_isFirstAction (v : bool) (g : t) : t :=
  mk (deck g) (players g) (communityCards g) (pot g) (currentBet g) (activePlayerIndex g)
     (dealerIndex g) (smallBlindIndex g) (bigBlindIndex g) (phase g) (actionLog g)
     (gameActions g) (handId g) v (initialStacks g).
Definition set_initialStacks (v : list Z) (g : t) : t :=
  mk (deck g) (players g) (communityCards g) (pot g) (currentBet g) (activePlayerIndex g)
     (dealerIndex g) (smallBlindIndex g) (bigBlindIndex g) (phase g) (actionLog g)
     (gameActions g) (handId g) (isFirstAction g) v.

(** *** The method monad: state that survives a throw *)
Inductive Res (A : Type) :=
| Ok (a : A) (g : t)
| Throw (e : Error) (g : t).
Arguments Ok {A} a g.
Arguments Throw {A} e g.

Definition M (A : Type) : Type := t -> Res A.

Definition ret {A} (a : A) : M A := fun g => Ok a g.
Definition bind {A B} (m : M A) (k : A -> M B) : M B :=
  fun g => match m g with
           | Ok a g' => k a g'
           | Throw e g' => Throw e g'
           end.
Definition throw {A} (e : Error) : M A := fun g => Throw e g.
Definition gets {A} (f : t -> A) : M A := fun g => Ok (f g) g.
Definition modify (f : t -> t) : M unit := fun g => Ok tt (f g).

Definition state_of {A} (r : Res A) : t :=
  match r with Ok _ g => g | Throw _ g => g end.

Declare Scope method_scope.
Delimit Scope method_scope with method.
Notation "'let!' x ':=' m 'in' k" := (bind m (fun x => k))
  (at level 10, x pattern, m at level 100, k at level 200) : method_scope.
Notation "m ';;' k" := (bind m (fun _ => k))
  (at level 100, k at level 200, right associativity) : method_scope.
Local Open Scope method_scope.

(** [for (const x of xs) body(x)] *)
Fixpoint for_each {A} (xs : list A) (body : A -> M unit) : M unit :=
  match xs with
  | [] => ret tt
  | x :: rest => body x ;; for_each rest body
  end.

(** [this.players[i].m(...)] on a seat that must exist: a missing seat is
    the TypeError of a property access on [undefined]. *)
Definition getPlayer (i : nat) : M Player.t :=
  fun g => match players g !! i with
           | Some p => Ok p g
           | None => Throw TypeError g
           end.

(** Writing through the reference [i] into the shared array. *)
Definition setPlayer (i : nat) (p : Player.t) : M unit :=
  modify (fun g => set_players (<[i := p]> (players g)) g).

Definition logAction (entry : string) : M unit :=
  modify (fun g => set_actionLog (actionLog g ++ [entry]) g).

Definition pushGameAction (a : GameAction.t) : M unit :=
  modify (fun g => set_gameActions (gameActions g ++ [a]) g).

Definition deal : M Card.t :=
  fun g => match Deck.deal (deck g) with
           | Some (c, rest) => Ok c (set_deck rest g)
           | None => Throw EmptyDeck g
           end.

(** *** constructor *)
Definition initializePlayers : list Player.t :=
  map (fun i => Player.create i ("Player " +++ idx_to_string (i + 1)) 1000) (seq 0 6).

Definition new_with (cards : Deck.t) : t :=
  mk cards initializePlayers [] 0 0 0 0 0 0 SETUP [] [] EmptyString true [].

Definition new (rnd : nat -> nat) : t := new_with (Deck.reset rnd).

(** *** setPlayerStacks *)
Definition setPlayerStacks (stacks : list Z) : M unit :=
  if negb (length stacks =? 6)%nat then throw InvalidStackCount
  else
    modify (set_initialStacks stacks) ;;
    for_each (seq 0 6) (fun i =>
      let! p := getPlayer i in
      (* the length test above puts [i] in range of [stacks] *)
      setPlayer i (Player.set_stack (default 0 (stacks !! i)) p)).

(** *** findNextPlayerWithChips
    The loop [while (players[next].stack === 0 && attempts < total)] runs
    on the budget [total - attempts]: with no budget left only the first
    conjunct is evaluated.  It returns the final [next] and [attempts]. *)
Fixpoint findNextPlayerWithChips_loop (budget total next attempts : nat) : M (nat * nat) :=
  match budget with
  | O => let! _ := getPlayer next in ret (next, attempts)
  | S budget' =>
      let! p := getPlayer next in
      if Player.stack p =? 0
      then findNextPlayerWithChips_loop budget' total ((next + 1) mod total)%nat (attempts + 1)%nat
      else ret (next, attempts)
  end.

Definition findNextPlayerWithChips (fromIndex : nat) : M nat :=
  let! total := gets (fun g => length (players g)) in
  let! (next, attempts) :=
    findNextPlayerWithChips_loop total total ((fromIndex + 1) mod total)%nat 0%nat in
  if (total <=? attempts)%nat then throw NoPlayersWithChips
  else ret next.

(** *** resetForNewHand: [uuid] is the value of [uuidv4()], [rnd] the
    draws of the shuffle. *)
Definition resetForNewHand (rnd : nat -> nat) (uuid : string) : M unit :=
  modify (set_handId uuid) ;;
  modify (set_deck (Deck.reset rnd)) ;;
  modify (set_communityCards []) ;;
  modify (set_pot 0) ;;
  modify (set_currentBet 0) ;;
  modify (set_actionLog []) ;;
  modify (set_gameActions []) ;;
  modify (set_phase SETUP) ;;
  modify (set_isFirstAction true) ;;
  modify (fun g => set_players (map Player.reset (players g)) g) ;;
  let! d0 := gets dealerIndex in
  let! d := findNextPlayerWithChips d0 in
  modify (set_dealerIndex d) ;;
  let! sb := findNextPlayerWithChips d in
  modify (set_smallBlindIndex sb) ;;
  let! bb := findNextPlayerWithChips sb in
  modify (set_bigBlindIndex bb).

(** *** postBlinds *)
Definition postBlinds : M unit :=
  let! sb := gets smallBlindIndex in
  let! p := getPlayer sb in
  let '(sbAmount, p') := Player.bet SMALL_BLIND p in
  setPlayer sb p' ;;
  modify (fun g => set_pot (pot g + sbAmount) g) ;;
  let! bb := gets bigBlindIndex in
  let! q := getPlayer bb in
  let '(bbAmount, q') := Player.bet BIG_BLIND q in
  setPlayer bb q' ;;
  modify (fun g => set_pot (pot g + bbAmount) g) ;;
  modify (set_currentBet BIG_BLIND).

(** *** dealHoleCards *)
Definition dealHoleCards : M unit :=
  for_each (seq 0 2) (fun _round =>
    for_each (seq 0 6) (fun i =>
      let! d := gets dealerIndex in
      let playerIndex := ((d + 1 + i) mod 6)%nat in
      let! p := getPlayer playerIndex in
      let! c := deal in
      setPlayer playerIndex (Player.set_holeCards (Player.holeCards p ++ [c]) p))).

(** *** findNextActivePlayer
    [while (attempts < 6)] runs on the budget [6 - attempts]; after the
    increment [attempts > 0] always holds, so the inner test is the
    comparison with [startIndex] alone. *)
Fixpoint findNextActivePlayer_loop (budget startIndex : nat) : M unit :=
  match budget with
  | O => ret tt
  | S budget' =>
      let! i := gets activePlayerIndex in
      let! player := getPlayer i in
      if Player.canAct player then ret tt
      else
        modify (set_activePlayerIndex ((i + 1) mod 6)%nat) ;;
        let! i' := gets activePlayerIndex in
        if (i' =? startIndex)%nat then ret tt
        else findNextActivePlayer_loop budget' startIndex
  end.

Definition findNextActivePlayer : M unit :=
  let! startIndex := gets activePlayerIndex in
  findNextActivePlayer_loop 6 startIndex.

(** *** setActivePlayer *)
Definition setActivePlayer : M unit :=
  let! ph := gets phase in
  (if phase_eqb ph PREFLOP
   then let! bb := gets bigBlindIndex in
        modify (set_activePlayerIndex ((bb + 1) mod 6)%nat)
   else let! d := gets dealerIndex in
        modify (set_activePlayerIndex ((d + 1) mod 6)%nat)) ;;
  findNextActivePlayer.

(** *** startNewHand *)
Definition startNewHand (rnd : nat -> nat) (uuid : string) : M unit :=
  resetForNewHand rnd uuid ;;
  postBlinds ;;
  dealHoleCards ;;
  modify (set_phase PREFLOP) ;;
  setActivePlayer ;;
  logAction "=== NEW HAND STARTED ===" ;;
  let! d := gets dealerIndex in
  let! pd := getPlayer d in
  logAction ("Dealer: " +++ Player.name pd) ;;
  let! sb := gets smallBlindIndex in
  let! psb := getPlayer sb in
  logAction ("Small Blind: " +++ Player.name psb +++ " posts " +++ num_to_string SMALL_BLIND) ;;
  let! bb := gets bigBlindIndex in
  let! pbb := getPlayer bb in
  logAction ("Big Blind: " +++ Player.name pbb +++ " posts " +++ num_to_string BIG_BLIND) ;;
  let! a := gets activePlayerIndex in
  let! pa := getPlayer a in
  logAction ("*** PREFLOP *** - Action to " +++ Player.name pa).

(** *** isBettingRoundComplete (read-only) *)
Definition betMatched (tableBet : Z) (p : Player.t) : bool :=
  (Player.currentBet p =? tableBet) || Player.isAllIn p || (Player.stack p =? 0).

Definition isBettingRoundComplete : M bool :=
  let! ps := gets players in
  let! tableBet := gets currentBet in
  let activePlayers := List.filter (fun p => negb (Player.hasFolded p)) ps in
  if (length activePlayers <=? 1)%nat then ret true
  else
    let playersWithChips :=
      List.filter (fun p => (0 <? Player.stack p) && negb (Player.isAllIn p)) activePlayers in
    if (length playersWithChips <=? 1)%nat then ret true
    else
      let allActed := forallb Player.hasActed activePlayers in
      let allBetsMatched := forallb (betMatched tableBet) activePlayers in
      ret (allActed && allBetsMatched).

(** *** processHandCompletion
    [activePlayers] holds references into [this.players]; [winner.stack]
    on an empty selection is a TypeError. *)
Definition processHandCompletion : M unit :=
  let! ps := gets players in
  let activePlayers := filter_refs (fun p => negb (Player.hasFolded p)) ps in
  (if (length activePlayers =? 1)%nat
   then
     match activePlayers !! 0%nat with
     | None => throw TypeError
     | Some w =>
         let! winner := getPlayer w in
         let! pot_ := gets pot in
         setPlayer w (Player.set_stack (Player.stack winner + pot_) winner) ;;
         logAction (Player.name winner +++ " wins " +++ num_to_string pot_
                    +++ " (no showdown needed)")
     end
   else
     match activePlayers !! 0%nat with
     | None => throw TypeError
     | Some w =>
         let! winner := getPlayer w in
         let! pot_ := gets pot in
         setPlayer w (Player.set_stack (Player.stack winner + pot_) winner) ;;
         logAction (Player.name winner +++ " wins " +++ num_to_string pot_
                    +++ " with best hand")
     end) ;;
  modify (set_phase FINISHED) ;;
  logAction "*** HAND COMPLETE ***".

Definition processShowdown : M unit :=
  logAction "*** SHOWDOWN ***" ;;
  processHandCompletion.

(** *** dealFlop, dealTurn, dealRiver *)
Definition pushCommunityCard : M unit :=
  let! c := deal in
  modify (fun g => set_communityCards (communityCards g ++ [c]) g).

Definition dealFlop : M unit :=
  let! _burn := deal in
  for_each (seq 0 3) (fun _ => pushCommunityCard) ;;
  let! cc := gets communityCards in
  let flopCards := join " " (map Card.toString (firstn 3 cc)) in
  logAction ("*** FLOP *** [" +++ flopCards +++ "]") ;;
  let! cc := gets communityCards in
  pushGameAction
    (GameAction.mk (-1) (join EmptyString (map Card.toString (firstn 3 cc))) None "flop").

Definition dealTurn : M unit :=
  let! _burn := deal in
  pushCommunityCard ;;
  let! cc := gets communityCards in
  match cc !! 3%nat with
  | None => throw TypeError
  | Some c =>
      let turnCard := Card.toString c in
      logAction ("*** TURN *** [" +++ turnCard +++ "]") ;;
      pushGameAction (GameAction.mk (-1) turnCard None "turn")
  end.

Definition dealRiver : M unit :=
  let! _burn := deal in
  pushCommunityCard ;;
  let! cc := gets communityCards in
  match cc !! 4%nat with
  | None => throw TypeError
  | Some c =>
      let riverCard := Card.toString c in
      logAction ("*** RIVER *** [" +++ riverCard +++ "]") ;;
      pushGameAction (GameAction.mk (-1) riverCard None "river")
  end.

(** *** advanceToNextPhase *)
Definition clearStreet (p : Player.t) : Player.t :=
  Player.set_currentBet 0 (Player.set_hasActed false p).

Definition advanceToNextPhase : M unit :=
  modify (fun g => set_players (map clearStreet (players g)) g) ;;
  modify (set_currentBet 0) ;;
  let! ps := gets players in
  let activePlayers := filter_refs (fun p => negb (Player.hasFolded p)) ps in
  if (length activePlayers <=? 1)%nat
  then
    modify (set_phase FINISHED) ;;
    processHandCompletion
  else
    let! ph := gets phase in
    (* the switch yields [false] where the source returns from inside it *)
    let! fallsThrough :=
      match ph with
      | PREFLOP => dealFlop ;; modify (set_phase FLOP) ;; ret true
      | FLOP => dealTurn ;; modify (set_phase TURN) ;; ret true
      | TURN => dealRiver ;; modify (set_phase RIVER) ;; ret true
      | RIVER => modify (set_phase SHOWDOWN) ;; processShowdown ;; ret false
      | _ => ret true
      end in
    if fallsThrough
    then
      setActivePlayer ;;
      let! a := gets activePlayerIndex in
      let! pa := getPlayer a in
      logAction ("Action to " +++ Player.name pa)
    else ret tt.

(** *** moveToNextPlayer *)
Definition moveToNextPlayer : M unit :=
  modify (fun g => set_activePlayerIndex ((activePlayerIndex g + 1) mod 6)%nat g) ;;
  findNextActivePlayer.

(** *** processAction
    [amount] is the optional argument; [!amount] holds when it is missing
    or zero.  The switch yields [None] where the source returns [false]
    from inside it, and otherwise the three locals it has assigned:
    [actionAmount], [actionDescription] and [shortAction]. *)
Definition amount_missing (amount : option Z) : bool :=
  match amount with
  | None => true
  | Some a => a =? 0
  end.

Definition amount_value (amount : option Z) : Z := default 0 amount.

Definition applyAction (idx : nat) (player : Player.t) (action : PlayerAction)
    (amount : option Z) : M (option (Z * string * string)) :=
  let! tableBet := gets currentBet in
  let amountToCall := tableBet - Player.currentBet player in
  match action with
  | FOLD =>
      setPlayer idx (Player.fold player) ;;
      ret (Some (0, Player.name player +++ " folds", "f"%string))
  | CHECK =>
      if 0 <? amountToCall then ret None
      else
        setPlayer idx (Player.check player) ;;
        ret (Some (0, Player.name player +++ " checks", "x"%string))
  | CALL =>
      if amountToCall <=? 0 then ret None
      else
        let '(actionAmount, player') := Player.call amountToCall player in
        setPlayer idx player' ;;
        modify (fun g => set_pot (pot g + actionAmount) g) ;;
        ret (Some (actionAmount,
                   Player.name player +++ " calls " +++ num_to_string actionAmount,
                   "c"%string))
  | BET =>
      if 0 <? tableBet then ret None
      else if amount_missing amount || (amount_value amount <? BIG_BLIND) then ret None
      else
        let '(actionAmount, player') := Player.bet (amount_value amount) player in
        setPlayer idx player' ;;
        modify (fun g => set_pot (pot g + actionAmount) g) ;;
        modify (set_currentBet (Player.currentBet player')) ;;
        ret (Some (actionAmount,
                   Player.name player +++ " bets " +++ num_to_string actionAmount,
                   "b" +++ num_to_string actionAmount))
  | RAISE =>
      if tableBet =? 0 then ret None
      else if amount_missing amount || (amount_value amount <=? tableBet) then ret None
      else
        let totalRaiseAmount := amount_value amount - Player.currentBet player in
        let '(actionAmount, player') := Player.bet totalRaiseAmount player in
        setPlayer idx player' ;;
        modify (fun g => set_pot (pot g + actionAmount) g) ;;
        modify (set_currentBet (Player.currentBet player')) ;;
        ret (Some (actionAmount,
                   Player.name player +++ " raises to "
                     +++ num_to_string (Player.currentBet player'),
                   "r" +++ num_to_string (Player.currentBet player')))
  | ALL_IN =>
      let '(actionAmount, player') := Player.allIn player in
      setPlayer idx player' ;;
      modify (fun g => set_pot (pot g + actionAmount) g) ;;
      (if tableBet <? Player.currentBet player'
       then modify (set_currentBet (Player.currentBet player'))
       else ret tt) ;;
      ret (Some (actionAmount,
                 Player.name player +++ " goes all-in for " +++ num_to_string actionAmount,
                 "allin"%string))
  | UNKNOWN _ => ret None
  end.

Definition processAction (action : PlayerAction) (amount : option Z) : M bool :=
  let! idx := gets activePlayerIndex in
  let! ps := gets players in
  match ps !! idx with
  | None => ret false
  | Some player =>
      if negb (Player.canAct player) then ret false
      else
        (* Mark that first action has been taken *)
        (let! first := gets isFirstAction in
         if first then modify (set_isFirstAction false) else ret tt) ;;
        let! outcome := applyAction idx player action amount in
        match outcome with
        | None => ret false
        | Some (actionAmount, actionDescription, shortAction) =>
            logAction actionDescription ;;
            let! ph := gets phase in
            pushGameAction
              (GameAction.mk (Z.of_nat idx) shortAction (Some actionAmount) (phase_value ph)) ;;
            moveToNextPlayer ;;
            let! complete := isBettingRoundComplete in
            (if complete then advanceToNextPhase else ret tt) ;;
            ret true
        end
  end.

(** *** getValidActions (read-only) *)
Definition getValidActions (g : t) : list PlayerAction :=
  match players g !! activePlayerIndex g with
  | None => []
  | Some player =>
      if negb (Player.canAct player) || phase_eqb (phase g) FINISHED
         || phase_eqb (phase g) SETUP
      then []
      else
        let amountToCall := currentBet g - Player.currentBet player in
        [FOLD]
        ++ (if amountToCall =? 0
            then [CHECK] ++ (if BIG_BLIND <=? Player.stack player then [BET] else [])
            else (if amountToCall <=? Player.stack player then [CALL] else [])
                 ++ (if (amountToCall <? Player.stack player)
                        && (BIG_BLIND <=? Player.stack player)
                     then [RAISE] else []))
        ++ (if 0 <? Player.stack player then [ALL_IN] else [])
  end.

(** *** generateHandResult (read-only)
    A loop [for (let i = 0; i < 6; i++) obj[i] = ...] yields the entries it
    writes.  [initialStacks[i] || 1000] takes the right operand when the left
    one is [undefined] or [0].  [now] is the value of [new Date()]. *)
Fixpoint for_collect {A B} (xs : list A) (body : A -> M B) : M (list B) :=
  match xs with
  | [] => ret []
  | x :: rest =>
      let! b := body x in
      let! bs := for_collect rest body in
      ret (b :: bs)
  end.

Definition initialStack_or_default (stacks : list Z) (i : nat) : Z :=
  match stacks !! i with
  | Some v => if v =? 0 then 1000 else v
  | None => 1000
  end.

Definition generateHandResult (now : Z) : M HandResult.t :=
  let! winnings :=
    for_collect (seq 0 6) (fun i =>
      let! ist := gets initialStacks in
      let initialStack := initialStack_or_default ist i in
      let! p := getPlayer i in
      let finalStack := Player.stack p in
      ret (i, finalStack - initialStack)) in
  let! ga := gets gameActions in
  let actionSequence := join " " (map GameAction.action ga) in
  let! holeCards :=
    for_collect (seq 0 6) (fun i =>
      let! p := getPlayer i in
      ret (i, Player.getHoleCardsString p)) in
  let! hid := gets handId in
  let! ist := gets initialStacks in
  let! d := gets dealerIndex in
  let! sb := gets smallBlindIndex in
  let! bb := gets bigBlindIndex in
  ret (HandResult.mk hid ist (HandResult.mk_positions d sb bb)
         holeCards actionSequence winnings now).

End PokerGame.

(** * Vocabulary of the properties *)

Import PokerGame.
Local Open Scope method_scope.

Fixpoint sumZ (l : list Z) : Z :=
  match l with
  | [] => 0
  | x :: rest => x + sumZ rest
  end.

(** Chips held by the seats. *)
Definition stacks_total (ps : list Player.t) : Z := sumZ (map Player.stack ps).

(** Chips the seats have committed on the current street. *)
Definition street_total (ps : list Player.t) : Z := sumZ (map Player.currentBet ps).

Definition activePlayer (g : t) : option Player.t := players g !! activePlayerIndex g.

Definition amountToCall (g : t) (p : Player.t) : Z := currentBet g - Player.currentBet p.

Definition betting_phase (ph : GamePhase) : bool :=
  match ph with
  | PREFLOP | FLOP | TURN | RIVER => true
  | _ => false
  end.

(** One call of a public mutating method; the state after a throw is the
    state the object is left in.  [okStacks] restricts the arguments given to
    [setPlayerStacks]. *)
Inductive step (okStacks : list Z -> Prop) (g : t) : t -> Prop :=
| step_setPlayerStacks stacks :
    okStacks stacks -> step okStacks g (state_of (setPlayerStacks stacks g))
| step_startNewHand rnd uuid :
    step okStacks g (state_of (startNewHand rnd uuid g))
| step_processAction action amount :
    step okStacks g (state_of (processAction action amount g)).

Inductive reachable_with (okStacks : list Z -> Prop) : t -> Prop :=
| reach_new rnd : reachable_with okStacks (new rnd)
| reach_step g g' :
    reachable_with okStacks g -> step okStacks g g' -> reachable_with okStacks g'.

Definition reachable : t -> Prop := reachable_with (fun _ => True).

(** A hand in progress: started by [setPlayerStacks] and [startNewHand],
    continued by accepted actions for as long as it is not finished. *)
Inductive in_hand (stacks : list Z) : t -> Prop :=
| hand_started g0 g1 rnd uuid g :
    reachable g0 ->
    setPlayerStacks stacks g0 = Ok tt g1 ->
    startNewHand rnd uuid g1 = Ok tt g ->
    in_hand stacks g
| hand_action g action amount g' :
    in_hand stacks g ->
    phase g <> FINISHED ->
    processAction action amount g = Ok true g' ->
    in_hand stacks g'.

(** Community-card count allowed in each phase. *)
Definition phase_cards_ok (g : t) : Prop :=
  match phase g with
  | SETUP | PREFLOP => length (communityCards g) = 0%nat
  | FLOP => length (communityCards g) = 3%nat
  | TURN => length (communityCards g) = 4%nat
  | RIVER | SHOWDOWN => length (communityCards g) = 5%nat
  | FINISHED => In (length (communityCards g)) [0; 3; 4; 5]%nat
  end.

(** Weakest precondition of a method: [Q] after a normal return, [E] in the
    state left by a throw. *)
Definition wp {A} (m : M A) (Q : A -> t -> Prop) (E : Error -> t -> Prop) (g : t) : Prop :=
  match m g with
  | Ok a g' => Q a g'
  | Throw e g' => E e g'
  end.

Definition hoare {A} (P : t -> Prop) (m : M A) (Q : A -> t -> Prop)
    (E : Error -> t -> Prop) : Prop :=
  forall g, P g -> wp m Q E g.

(** The fields a betting street is decided on; logs, the action history,
    the active seat and the first-action flag are left out. *)
Definition core (g : t) :=
  (deck g, players g, communityCards g, pot g, currentBet g, phase g,
   dealerIndex g, smallBlindIndex g, bigBlindIndex g, initialStacks g).

Definition keeps_core {A} (m : M A) : Prop :=
  forall g, core (state_of (m g)) = core g.

(** Draws that leave the freshly built deck in its construction order. *)
Definition rnd_id (i : nat) : nat := i.

(** A table built with the given stacks, first hand started. *)
Definition table (stacks : list Z) : t :=
  state_of (startNewHand rnd_id "hand-1"
              (state_of (setPlayerStacks stacks (new rnd_id)))).

Definition broke (p : Player.t) : Prop := Player.stack p = 0.

(** The state after the field resets, before the button moves. *)
Definition cleared (cards : list Card.t) (uuid : string) (g : t) : t :=
  mk cards (map Player.reset (players g)) [] 0 0 (activePlayerIndex g)
     (dealerIndex g) (smallBlindIndex g) (bigBlindIndex g) SETUP [] [] uuid true
     (initialStacks g).

Definition seated (d sb bb : nat) (g : t) : t :=
  set_bigBlindIndex bb (set_smallBlindIndex sb (set_dealerIndex d g)).

Definition funded_at (ps : list Player.t) (i : nat) : Prop :=
  exists p, ps !! i = Some p /\ Player.stack p <> 0.

Definition moveButton (d0 : nat) : M unit :=
  let! d := findNextPlayerWithChips d0 in
  modify (set_dealerIndex d) ;;
  let! sb := findNextPlayerWithChips d in
  modify (set_smallBlindIndex sb) ;;
  let! bb := findNextPlayerWithChips sb in
  modify (set_bigBlindIndex bb).

(** The seats with their hole cards erased: what betting depends on. *)
Definition chips_view (ps : list Player.t) : list Player.t :=
  map (Player.set_holeCards []) ps.

Definition dealt_from (g : t) (k : nat) (s : t) : Prop :=
  exists ps' dk',
    s = set_players ps' (set_deck dk' g)
    /\ chips_view ps' = chips_view (players g)
    /\ length (deck g) = (length dk' + (12 - k))%nat /\ (k <= 12)%nat.

(** What a successful [startNewHand] leaves behind, relative to the state
    [g] it was called in. *)
Definition started (uuid : string) (g g' : t) : Prop :=
  exists cards d sb bb g2,
    ((d < 6)%nat /\ (sb < 6)%nat /\ (bb < 6)%nat)
    /\ (funded_at (players g) d /\ funded_at (players g) sb /\ funded_at (players g) bb)
    /\ ((funded_at (players g) ((dealerIndex g + 1) mod 6)%nat ->
           d = ((dealerIndex g + 1) mod 6)%nat)
        /\ (funded_at (players g) ((d + 1) mod 6)%nat -> sb = ((d + 1) mod 6)%nat)
        /\ (funded_at (players g) ((sb + 1) mod 6)%nat -> bb = ((sb + 1) mod 6)%nat))
    /\ postBlinds (seated d sb bb (cleared cards uuid g)) = Ok tt g2
    /\ chips_view (players g') = chips_view (players g2)
    /\ pot g' = pot g2 /\ currentBet g' = BIG_BLIND
    /\ dealerIndex g' = d /\ smallBlindIndex g' = sb /\ bigBlindIndex g' = bb
    /\ initialStacks g' = initialStacks g /\ handId g' = uuid /\ isFirstAction g' = true
    /\ phase g' = PREFLOP /\ communityCards g' = [] /\ length (deck g') = 40%nat
    /\ (activePlayerIndex g' < 6)%nat
    /\ (forall p, players g' !! ((bb + 1) mod 6)%nat = Some p -> Player.canAct p = true ->
          activePlayerIndex g' = ((bb + 1) mod 6)%nat)
    /\ length (players g') = 6%nat.

(** Seats whose stack passes the test [stack === 0] of the source negated. *)
Definition seats_with_chips (ps : list Player.t) : nat :=
  length (List.filter (fun p => negb (Player.stack p =? 0)) ps).

Definition one_funded_seat : t :=
  state_of (setPlayerStacks [1000; 0; 0; 0; 0; 0] (new rnd_id)).

Definition six_at_1000 : t :=
  state_of (setPlayerStacks [1000; 1000; 1000; 1000; 1000; 1000] (new rnd_id)).

(** The state after a street has been dealt: new deck, board, log and
    history; everything else as in [g]. *)
Definition dealt (dk : list Card.t) (cc : list Card.t) (lg : list string)
    (ga : list GameAction.t) (g : t) : t :=
  set_gameActions ga (set_actionLog lg (set_communityCards cc (set_deck dk g))).

Definition unfolded (p : Player.t) : bool := negb (Player.hasFolded p).

(** The state after the pot has been handed to seat [w]. *)
Definition paid (w : nat) (winner : Player.t) (lg : list string) (g : t) : t :=
  set_actionLog lg
    (set_phase FINISHED
       (set_players
          (<[w := Player.set_stack (Player.stack winner + pot g) winner]> (players g)) g)).

Definition street_cleared (g : t) : t :=
  set_currentBet 0 (set_players (map clearStreet (players g)) g).

(** The street dealt next and the number of community cards it adds. *)
Definition next_street (ph : GamePhase) : option (GamePhase * nat) :=
  match ph with
  | PREFLOP => Some (FLOP, 3%nat)
  | FLOP => Some (TURN, 1%nat)
  | TURN => Some (RIVER, 1%nat)
  | _ => None
  end.

(** Enough cards left, and enough on the board, for the next deal. *)
Definition dealable (g : t) : Prop :=
  match phase g with
  | PREFLOP => (4 <= length (deck g))%nat
  | FLOP => (2 <= length (deck g))%nat /\ (3 <= length (communityCards g))%nat
  | TURN => (2 <= length (deck g))%nat /\ (4 <= length (communityCards g))%nat
  | _ => True
  end.

(** What [advanceToNextPhase] can do to a six-seat table. *)
Inductive advance_result (g : t) : Res unit -> Prop :=
| adv_nobody :
    filter_refs unfolded (players g) = [] ->
    advance_result g (Throw TypeError (set_phase FINISHED (street_cleared g)))
| adv_settled w rest winner lg :
    filter_refs unfolded (players g) = w :: rest ->
    rest = [] \/ phase g = RIVER ->
    map clearStreet (players g) !! w = Some winner ->
    advance_result g (Ok tt (paid w winner lg (street_cleared g)))
| adv_street ph n k dk cs lg ga :
    (2 <= length (filter_refs unfolded (players g)))%nat ->
    next_street (phase g) = Some (ph, n) ->
    length (deck g) = (length dk + S n)%nat -> length cs = n -> (k < 6)%nat ->
    advance_result g
      (Ok tt (set_activePlayerIndex k
                (set_phase ph (dealt dk (communityCards g ++ cs) lg ga (street_cleared g)))))
| adv_idle k lg :
    (2 <= length (filter_refs unfolded (players g)))%nat ->
    next_street (phase g) = None -> phase g <> RIVER -> (k < 6)%nat ->
    advance_result g (Ok tt (set_activePlayerIndex k (set_actionLog lg (street_cleared g)))).

(** The first-action flag after the flip that precedes the switch. *)
Definition marked (g : t) : t :=
  if isFirstAction g then set_isFirstAction false g else g.

(** The part of [processAction] that follows the switch. *)
Definition settle (idx : nat) (actionAmount : Z) (actionDescription shortAction : string)
    : M bool :=
  logAction actionDescription ;;
  let! ph := gets phase in
  pushGameAction
    (GameAction.mk (Z.of_nat idx) shortAction (Some actionAmount) (phase_value ph)) ;;
  moveToNextPlayer ;;
  let! complete := isBettingRoundComplete in
  (if complete then advanceToNextPhase else ret tt) ;;
  ret true.

(** The state in which round completion is evaluated. *)
Definition moved (k : nat) (lg : list string) (ga : list GameAction.t) (g : t) : t :=
  set_activePlayerIndex k (set_gameActions ga (set_actionLog lg g)).

(** The switch accepts: the acting seat becomes [p'], [delta] chips move
    from its stack to the pot, the table bet becomes [cb]. *)
Inductive accepted (tableBet : Z) (p : Player.t)
  : PlayerAction -> option Z -> Player.t -> Z -> Z -> Prop :=
| acc_fold amount :
    accepted tableBet p FOLD amount (Player.fold p) 0 tableBet
| acc_check amount :
    tableBet - Player.currentBet p <= 0 ->
    accepted tableBet p CHECK amount (Player.check p) 0 tableBet
| acc_call amount :
    0 < tableBet - Player.currentBet p ->
    accepted tableBet p CALL amount
      (snd (Player.call (tableBet - Player.currentBet p) p))
      (fst (Player.call (tableBet - Player.currentBet p) p)) tableBet
| acc_bet a :
    tableBet <= 0 -> a <> 0 -> BIG_BLIND <= a ->
    accepted tableBet p BET (Some a)
      (snd (Player.bet a p)) (fst (Player.bet a p))
      (Player.currentBet (snd (Player.bet a p)))
| acc_raise a :
    tableBet <> 0 -> a <> 0 -> tableBet < a ->
    accepted tableBet p RAISE (Some a)
      (snd (Player.bet (a - Player.currentBet p) p))
      (fst (Player.bet (a - Player.currentBet p) p))
      (Player.currentBet (snd (Player.bet (a - Player.currentBet p) p)))
| acc_all_in amount :
    accepted tableBet p ALL_IN amount
      (snd (Player.allIn p)) (fst (Player.allIn p))
      (if tableBet <? Player.currentBet (snd (Player.allIn p))
       then Player.currentBet (snd (Player.allIn p)) else tableBet).

(** The switch returns [false]. *)
Inductive refused (tableBet : Z) (p : Player.t) : PlayerAction -> option Z -> Prop :=
| ref_check amount :
    0 < tableBet - Player.currentBet p -> refused tableBet p CHECK amount
| ref_call amount :
    tableBet - Player.currentBet p <= 0 -> refused tableBet p CALL amount
| ref_bet_level amount :
    0 < tableBet -> refused tableBet p BET amount
| ref_bet_amount amount :
    tableBet <= 0 ->
    amount_missing amount = true \/ amount_value amount < BIG_BLIND ->
    refused tableBet p BET amount
| ref_raise_level amount :
    tableBet = 0 -> refused tableBet p RAISE amount
| ref_raise_amount amount :
    tableBet <> 0 ->
    amount_missing amount = true \/ amount_value amount <= tableBet ->
    refused tableBet p RAISE amount
| ref_unknown raw amount :
    refused tableBet p (UNKNOWN raw) amount.

Definition bet_applied (idx : nat) (p' : Player.t) (delta cb : Z) (g : t) : t :=
  set_currentBet cb (set_pot (pot g + delta) (set_players (<[idx := p']> (players g)) g)).

Definition lift_advance (r : Res unit) : Res bool :=
  match r with
  | Ok _ g' => Ok true g'
  | Throw e g' => Throw e g'
  end.

Inductive action_result (action : PlayerAction) (amount : option Z) (g : t)
  : Res bool -> Prop :=
| res_no_seat :
    activePlayer g = None ->
    action_result action amount g (Ok false g)
| res_cannot_act p :
    activePlayer g = Some p -> Player.canAct p = false ->
    action_result action amount g (Ok false g)
| res_refused p :
    activePlayer g = Some p -> Player.canAct p = true ->
    refused (currentBet g) p action amount ->
    action_result action amount g (Ok false (marked g))
| res_continue p p' delta cb k lg ga :
    activePlayer g = Some p -> Player.canAct p = true ->
    accepted (currentBet g) p action amount p' delta cb -> (k < 6)%nat ->
    let g3 := moved k lg ga (bet_applied (activePlayerIndex g) p' delta cb (marked g)) in
    isBettingRoundComplete g3 = Ok false g3 ->
    action_result action amount g (Ok true g3)
| res_advance p p' delta cb k lg ga adv :
    activePlayer g = Some p -> Player.canAct p = true ->
    accepted (currentBet g) p action amount p' delta cb -> (k < 6)%nat ->
    let g3 := moved k lg ga (bet_applied (activePlayerIndex g) p' delta cb (marked g)) in
    isBettingRoundComplete g3 = Ok true g3 ->
    advance_result g3 adv ->
    action_result action amount g (lift_advance adv).

Definition restacked (ps : list Player.t) (stacks : list Z) : list Player.t :=
  zip_with (fun p s => Player.set_stack s p) ps stacks.

(** Board and deck by phase: the count the phase stands for and enough
    cards left for the streets still to come. *)
Definition table_ok (g : t) : Prop :=
  match phase g with
  | SETUP => length (communityCards g) = 0%nat
  | PREFLOP => length (communityCards g) = 0%nat /\ (8 <= length (deck g))%nat
  | FLOP => length (communityCards g) = 3%nat /\ (4 <= length (deck g))%nat
  | TURN => length (communityCards g) = 4%nat /\ (2 <= length (deck g))%nat
  | RIVER | SHOWDOWN => length (communityCards g) = 5%nat
  | FINISHED => In (length (communityCards g)) [0; 3; 4; 5]%nat
  end.

Definition well_formed (g : t) : Prop :=
  length (players g) = 6%nat /\ table_ok g.

(** A sequence of calls of [processAction], whatever each returns. *)
Definition play (acts : list (PlayerAction * option Z)) (g : t) : t :=
  fold_left (fun s a => state_of (processAction (fst a) (snd a) s)) acts g.

Definition six_1000 : list Z := [1000; 1000; 1000; 1000; 1000; 1000].

(** Everybody calls the big blind: the flop is dealt. *)
Definition on_the_flop : t := play (repeat (CALL, None) 5) (table six_1000).

(** The five seats after the big blind fold in turn. *)
Definition folded_out : t := play (repeat (FOLD, None) 5) (table six_1000).

(** The conserved quantity of a hand in progress, and what is left of it when
    the pot has been paid out. *)
Definition conserved (stacks : list Z) (g : t) : Prop :=
  (phase g <> FINISHED -> pot g + stacks_total (players g) = sumZ stacks)
  /\ (phase g = FINISHED -> stacks_total (players g) = sumZ stacks).

Definition hand_inv (stacks : list Z) (g : t) : Prop :=
  well_formed g
  /\ ((betting_phase (phase g) = true /\ pot g + stacks_total (players g) = sumZ stacks)
      \/ (phase g = FINISHED /\ stacks_total (players g) = sumZ stacks)).

(** Accepted actions of a hand in progress, checked by running them. *)
Fixpoint accepted_run (acts : list (PlayerAction * option Z)) (g : t) : bool :=
  match acts with
  | [] => true
  | a :: rest =>
      negb (phase_eqb (phase g) FINISHED)
      && match processAction (fst a) (snd a) g with
         | Ok true g' => accepted_run rest g'
         | _ => false
         end
  end.

Definition seat_ok (p : Player.t) : Prop := 0 <= Player.stack p /\ 0 <= Player.currentBet p.

Definition chips_ok (g : t) : Prop :=
  Forall seat_ok (players g)
  /\ street_total (players g) <= pot g
  /\ 0 <= currentBet g.

Definition nonneg_stacks (stacks : list Z) : Prop := Forall (Z.le 0) stacks.

(** ** The range of exact chip arithmetic
    Chips are JavaScript numbers in the source, that is doubles, and integers
    of [Z] here.  A sum or a difference of two integers is computed exactly in
    doubles when the operands and the result have magnitude at most 2^53;
    beyond that the source rounds where [Z] does not.  The statements below
    that rest on sums or differences of chips therefore carry this range as
    a hypothesis: on the stacks given to [setPlayerStacks] where the statement
    follows a hand from its start, on the chips of the state where it is about
    one call. *)
Definition MAX_EXACT : Z := 2 ^ 53.

Definition in_range (x : Z) : Prop := 0 <= x <= MAX_EXACT.

(** Stacks that are not negative and sum to no more than [MAX_EXACT]: in a
    hand started with them no seat, bet or pot ever exceeds their sum. *)
Definition bounded_stacks (stacks : list Z) : Prop :=
  Forall (Z.le 0) stacks /\ sumZ stacks <= MAX_EXACT.

(** The chips of one seat: nothing negative, the street bet part of the
    bet of the hand, and stack and bets together within the range. *)
Definition exact_seat (p : Player.t) : Prop :=
  0 <= Player.stack p
  /\ 0 <= Player.currentBet p <= Player.totalBetThisHand p
  /\ Player.stack p + Player.totalBetThisHand p <= MAX_EXACT.

(** The chips of a state on which one call of a public method computes
    exactly: whatever a seat commits, takes back or is paid stays within the
    range. *)
Definition exact_chips (g : t) : Prop :=
  in_range (currentBet g)
  /\ 0 <= pot g
  /\ Forall exact_seat (players g)
  /\ pot g + stacks_total (players g) <= MAX_EXACT.

Definition exact_seatb (p : Player.t) : bool :=
  (0 <=? Player.stack p)
  && (0 <=? Player.currentBet p)
  && (Player.currentBet p <=? Player.totalBetThisHand p)
  && (Player.stack p + Player.totalBetThisHand p <=? MAX_EXACT).

(** [exact_chips] as a test, for concrete states. *)
Definition exact_chipsb (g : t) : bool :=
  (0 <=? currentBet g) && (currentBet g <=? MAX_EXACT)
  && (0 <=? pot g)
  && forallb exact_seatb (players g)
  && (pot g + stacks_total (players g) <=? MAX_EXACT).

(** A short stack calls all-in before the flop: the flop state of that
    table. *)
Definition short_call : t :=
  play [(CALL, None)] (table [1000; 1000; 1000; 1000; 30; 1000]).

(** Under the gun with 30 chips, facing the big blind of 40. *)
Definition short_utg : t := table [1000; 1000; 1000; 1000; 30; 1000].

(** Equal in every field but the first-action flag. *)
Definition same_but_first_action (g g' : t) : Prop :=
  set_isFirstAction true g' = set_isFirstAction true g.

(** The reason an action is missing from the valid actions is the level of
    betting, not the size of the seat's stack. *)
Definition left_out_by_level (g : t) (p : Player.t) (action : PlayerAction) : Prop :=
  betting_phase (phase g) = true
  /\ 0 <= amountToCall g p
  /\ match action with
     | CALL => amountToCall g p <= Player.stack p
     | BET => BIG_BLIND <= Player.stack p
     | RAISE => currentBet g = 0
     | _ => True
     end.

(** Everybody calls before the flop and checks the flop, the turn and the
    river, on the deck in construction order. *)
Definition checked_down : t :=
  play (repeat (CALL, None) 5 ++ repeat (CHECK, None) 18) (table six_1000).

(** Chips the seats have committed since the hand began. *)
Definition bets_total (ps : list Player.t) : Z := sumZ (map Player.totalBetThisHand ps).

(** A method under which the value of [f] only moves along [R], whether the
    method returns or throws; with [R] equality, [f] is left alone. *)
Definition preserves {A X : Type} (R : X -> X -> Prop) (f : t -> X) (m : M A) : Prop :=
  forall g, R (f (state_of (m g))) (f g).

(** The button and the two blinds. *)
Definition positions (g : t) : nat * nat * nat :=
  (dealerIndex g, smallBlindIndex g, bigBlindIndex g).

(** [k] is the first seat after [from], going round the table, whose stack
    is not 0; the seats passed over have stack 0.  After a full round the
    search comes back to [from] itself. *)
Definition next_funded (ps : list Player.t) (from k : nat) : Prop :=
  exists j, (j < length ps)%nat
    /\ k = ((from + 1 + j) mod length ps)%nat
    /\ funded_at ps k
    /\ forall j', (j' < j)%nat ->
          exists p, ps !! ((from + 1 + j') mod length ps)%nat = Some p /\ Player.stack p = 0.

Definition can_act_at (ps : list Player.t) (i : nat) : Prop :=
  exists p, ps !! i = Some p /\ Player.canAct p = true.

(** [k] is the first seat from [start] on, [start] included, that can act;
    when no seat can act the search ends where it began. *)
Definition next_to_act (ps : list Player.t) (start k : nat) : Prop :=
  (exists j, (j < 6)%nat /\ k = ((start + j) mod 6)%nat /\ can_act_at ps k
             /\ forall j', (j' < j)%nat -> ~ can_act_at ps ((start + j') mod 6)%nat)
  \/ (k = start /\ forall i, ~ can_act_at ps i).

(** Seats 1, 2 and 4 have no chips. *)
Definition gapped_stacks : list Z := [1000; 0; 0; 1000; 0; 1000].

Definition gapped_seats : t := state_of (setPlayerStacks gapped_stacks (new rnd_id)).

(** The cards in play: the hole cards of the six seats, the board and the
    cards left in the deck.  A burned card is in none of the three. *)
Definition hole_cards (ps : list Player.t) : list Card.t :=
  concat (map Player.holeCards ps).

Definition cards_in_play (g : t) : list Card.t :=
  hole_cards (players g) ++ communityCards g ++ deck g.

(** The [k]-th card from the top of the deck, the top being the end of the
    array. *)
Definition top (cards : Deck.t) (k : nat) : option Card.t := rev cards !! k.

(** What the seat served [i]-th in a round holds of the first [k] cards
    dealt, [tops] being the deck from its top. *)
Definition dealt_to (tops : list Card.t) (k i : nat) : list Card.t :=
  (if (i <? k)%nat then option_list (tops !! i) else [])
  ++ (if (6 + i <? k)%nat then option_list (tops !! (6 + i)%nat) else []).

(** The part of [startNewHand] that follows the dealing of the hole cards. *)
Definition open_betting : M unit :=
  modify (set_phase PREFLOP) ;;
  setActivePlayer ;;
  logAction "=== NEW HAND STARTED ===" ;;
  let! d := gets dealerIndex in
  let! pd := getPlayer d in
  logAction ("Dealer: " +++ Player.name pd) ;;
  let! sb := gets smallBlindIndex in
  let! psb := getPlayer sb in
  logAction ("Small Blind: " +++ Player.name psb +++ " posts " +++ num_to_string SMALL_BLIND) ;;
  let! bb := gets bigBlindIndex in
  let! pbb := getPlayer bb in
  logAction ("Big Blind: " +++ Player.name pbb +++ " posts " +++ num_to_string BIG_BLIND) ;;
  let! a := gets activePlayerIndex in
  let! pa := getPlayer a in
  logAction ("*** PREFLOP *** - Action to " +++ Player.name pa).

(** The exception a call ended with, if it threw. *)
Definition thrown {A : Type} (r : Res A) : option Error :=
  match r with
  | Ok _ _ => None
  | Throw e _ => Some e
  end.

(** Every seat but those listed has folded. *)
Definition others_folded (g : t) (keep : list nat) : Prop :=
  forall i q, ~ In i keep -> players g !! i = Some q -> Player.hasFolded q = true.

(** Four seats fold before the flop, the blinds check the hand down: the
    showdown has been settled between seats 2 and 3. *)
Definition two_at_showdown : t :=
  play (repeat (FOLD, None) 4 ++ [(CALL, None)] ++ repeat (CHECK, None) 6) (table six_1000).

(** The stack a seat's winnings are measured against. *)
Definition baseline (s : Z) : Z := if s =? 0 then 1000 else s.

(** Seats configured with no chips. *)
Definition zero_stacks (stacks : list Z) : nat :=
  length (List.filter (fun s => s =? 0) stacks).

(** A hand started over while 240 chips are in the pot. *)
Definition restarted : t := state_of (startNewHand rnd_id "hand-2" on_the_flop).

(** The blinds take the last chips of the only two funded seats. *)
Definition blinds_all_in : t := table [20; 40; 0; 0; 0; 0].

(** Under the gun with 20 chips raises "to 80": the table bet drops from 40
    to 20; the next three seats fold and the small blind is to act. *)
Definition lowered_bet : t :=
  play [(RAISE, Some 80); (FOLD, None); (FOLD, None); (FOLD, None)]
       (table [1000; 1000; 1000; 1000; 20; 1000]).

(** The small blind has checked: the big blind, with 40 in front of it,
    faces a table bet of 20. *)
Definition overpaid_blind : t := play [(CHECK, None)] lowered_bet.

(** The amount a BET or RAISE button passes along with the action. *)
Definition amount_fits (g : t) (action : PlayerAction) (amount : option Z) : Prop :=
  match action with
  | BET => exists a, amount = Some a /\ BIG_BLIND <= a
  | RAISE => exists a, amount = Some a /\ a <> 0 /\ currentBet g < a
  | _ => True
  end.

(** The code [processAction] stores for an accepted action that moved
    [delta] chips and left the seat with the street bet [bet]. *)
Definition short_code (action : PlayerAction) (delta bet : Z) : string :=
  match action with
  | FOLD => "f"
  | CHECK => "x"
  | CALL => "c"
  | BET => "b" +++ num_to_string delta
  | RAISE => "r" +++ num_to_string bet
  | ALL_IN => "allin"
  | UNKNOWN _ => EmptyString
  end.

(** A history entry written when a street is dealt. *)
Definition board_entry (e : GameAction.t) : Prop :=
  GameAction.playerId e = -1 /\ GameAction.amount e = None.

(** [new] is [old] followed by board entries. *)
Definition board_suffix (new old : list GameAction.t) : Prop :=
  exists board, new = old ++ board /\ Forall board_entry board.

(** Four calls before the flop: the small blind is to complete the round. *)
Definition four_calls : t := play (repeat (CALL, None) 4) (table six_1000).

(** Exactly the seats [a] and [b] have chips. *)
Definition heads_up (ps : list Player.t) (a b : nat) : Prop :=
  a <> b /\ funded_at ps a /\ funded_at ps b
  /\ forall i, funded_at ps i -> i = a \/ i = b.

Definition heads_up_stacks : list Z := [1000; 0; 0; 1000; 0; 0].

Definition heads_up_seats : t := state_of (setPlayerStacks heads_up_stacks (new rnd_id)).

(** ** The bet size of the table component (poker-game.tsx)
    [betAmount] is a piece of component state, created as [useState(40)];
    its only writer is [adjustBetAmount], which hands [setBetAmount] one of
    two updaters.  [adjustBetAmount increment prev] is the updater applied to
    the previous value. *)
Module PokerGameView.

Definition BIG_BLIND : Z := 40.

Definition initialBetAmount : Z := 40.

Definition adjustBetAmount (increment : bool) (prev : Z) : Z :=
  if increment then prev + BIG_BLIND else Z.max BIG_BLIND (prev - BIG_BLIND).

(** The bet size after a series of clicks on the plus ([true]) and minus
    ([false]) buttons. *)
Definition betAmount_after (clicks : list bool) : Z :=
  fold_left (fun prev increment => adjustBetAmount increment prev) clicks initialBetAmount.

End PokerGameView.

(** [n] calls of [deal] in a row: the cards returned, in the order they were
    dealt, and the deck left; [None] when one of the calls throws. *)
Fixpoint deal_many (n : nat) (cards : Deck.t) : option (list Card.t * Deck.t) :=
  match n with
  | O => Some ([], cards)
  | S n' =>
      match Deck.deal cards with
      | None => None
      | Some (c, rest) =>
          match deal_many n' rest with
          | None => None
          | Some (cs, rest') => Some (c :: cs, rest')
          end
      end
  end.

(** * Proof infrastructure *)

Arguments Player.bet : simpl never.
Arguments Player.call : simpl never.
Arguments Player.allIn : simpl never.

Section WeakestPre.
Context {A B : Type}.

Lemma wp_ret (a : A) Q E g : wp (ret a) Q E g <-> Q a g.
Proof. reflexivity. Qed.

Lemma wp_bind (m : M A) (k : A -> M B) Q E g :
  wp (bind m k) Q E g <-> wp m (fun a g' => wp (k a) Q E g') E g.
Proof. unfold wp, bind. destruct (m g); reflexivity. Qed.

Lemma wp_gets (f : t -> A) Q E g : wp (gets f) Q E g <-> Q (f g) g.
Proof. reflexivity. Qed.

Lemma wp_throw (e : Error) (Q : A -> t -> Prop) E g : wp (throw e) Q E g <-> E e g.
Proof. reflexivity. Qed.

Lemma wp_mono (m : M A) (Q Q' : A -> t -> Prop) (E E' : Error -> t -> Prop) g :
  wp m Q E g ->
  (forall a g', Q a g' -> Q' a g') ->
  (forall e g', E e g' -> E' e g') ->
  wp m Q' E' g.
Proof. unfold wp. destruct (m g); auto. Qed.

Lemma wp_hoare P (m : M A) (Q Q' : A -> t -> Prop) (E E' : Error -> t -> Prop) g :
  hoare P m Q E ->
  P g ->
  (forall a g', Q a g' -> Q' a g') ->
  (forall e g', E e g' -> E' e g') ->
  wp m Q' E' g.
Proof. intros H HP HQ HE. eapply wp_mono; eauto. Qed.
End WeakestPre.

Lemma Ok_inj {X} (a b : X) g g' : Ok a g = Ok b g' -> a = b /\ g = g'.
Proof. intros H. injection H as -> ->. auto. Qed.

Lemma wp_returns {X} (m : M X) (Q : X -> t -> Prop) g :
  wp m Q (fun _ _ => False) g -> exists a g', m g = Ok a g' /\ Q a g'.
Proof. unfold wp. destruct (m g) as [a g'|]; [eauto|contradiction]. Qed.

Lemma wp_state_of {X} (m : M X) (P : t -> Prop) g :
  wp m (fun _ => P) (fun _ => P) g <-> P (state_of (m g)).
Proof. unfold wp. destruct (m g); reflexivity. Qed.

Lemma wp_modify (f : t -> t) Q E g : wp (modify f) Q E g <-> Q tt (f g).
Proof. reflexivity. Qed.

Lemma wp_getPlayer i Q E g :
  wp (getPlayer i) Q E g <->
  match players g !! i with Some p => Q p g | None => E TypeError g end.
Proof. unfold wp, getPlayer. destruct (players g !! i); reflexivity. Qed.

Lemma wp_setPlayer i p Q E g :
  wp (setPlayer i p) Q E g <-> Q tt (set_players (<[i := p]> (players g)) g).
Proof. reflexivity. Qed.

Lemma wp_logAction s Q E g :
  wp (logAction s) Q E g <-> Q tt (set_actionLog (actionLog g ++ [s]) g).
Proof. reflexivity. Qed.

Lemma wp_pushGameAction a Q E g :
  wp (pushGameAction a) Q E g <-> Q tt (set_gameActions (gameActions g ++ [a]) g).
Proof. reflexivity. Qed.

Lemma wp_deal Q E g :
  wp deal Q E g <->
  match pop (deck g) with
  | Some (c, rest) => Q c (set_deck rest g)
  | None => E EmptyDeck g
  end.
Proof. unfold wp, deal, Deck.deal. destruct (pop (deck g)) as [[c r]|]; reflexivity. Qed.

Lemma wp_for_each {X} (I : t -> Prop) (xs : list X) (body : X -> M unit)
    (E : Error -> t -> Prop) g :
  (forall x, In x xs -> hoare I (body x) (fun _ => I) E) ->
  I g -> wp (for_each xs body) (fun _ => I) E g.
Proof.
  revert g. induction xs as [|x xs IH]; intros g Hb Hg; cbn [for_each].
  - exact Hg.
  - apply wp_bind. eapply wp_mono; [apply Hb; [left; reflexivity | exact Hg] | | auto].
    intros [] g' Hg'. apply IH; [|exact Hg']. intros y Hy. apply Hb. right; exact Hy.
Qed.

(** One step of symbolic execution of a method body. *)
Ltac wp_step :=
  lazymatch goal with
  | |- wp (bind _ _) _ _ _ => apply wp_bind
  | |- wp (ret _) _ _ _ => apply wp_ret
  | |- wp (gets _) _ _ _ => apply wp_gets
  | |- wp (modify _) _ _ _ => apply wp_modify
  | |- wp (throw _) _ _ _ => apply wp_throw
  | |- wp (setPlayer _ _) _ _ _ => apply wp_setPlayer
  | |- wp (logAction _) _ _ _ => apply wp_logAction
  | |- wp (pushGameAction _) _ _ _ => apply wp_pushGameAction
  | |- wp (getPlayer _) _ _ _ => apply wp_getPlayer
  | |- wp deal _ _ _ => apply wp_deal
  | |- wp (if ?b then _ else _) _ _ _ => destruct b eqn:?
  | |- wp (let '(_, _) := ?x in _) _ _ _ => destruct x eqn:?
  | |- wp (match ?x with _ => _ end) _ _ _ => destruct x eqn:?
  | |- match ?x with _ => _ end => destruct x eqn:?
  end; cbn beta iota.

Ltac wp_run := repeat wp_step.

(** Projections of updated records. *)
Ltac fields :=
  cbn [deck players communityCards pot currentBet activePlayerIndex dealerIndex
       smallBlindIndex bigBlindIndex phase actionLog gameActions handId isFirstAction
       initialStacks set_deck set_players set_communityCards set_pot set_currentBet
       set_activePlayerIndex set_dealerIndex set_smallBlindIndex set_bigBlindIndex
       set_phase set_actionLog set_gameActions set_handId set_isFirstAction
       set_initialStacks state_of].

Tactic Notation "fields" "in" hyp(H) :=
  cbn [deck players communityCards pot currentBet activePlayerIndex dealerIndex
       smallBlindIndex bigBlindIndex phase actionLog gameActions handId isFirstAction
       initialStacks set_deck set_players set_communityCards set_pot set_currentBet
       set_activePlayerIndex set_dealerIndex set_smallBlindIndex set_bigBlindIndex
       set_phase set_actionLog set_gameActions set_handId set_isFirstAction
       set_initialStacks state_of] in H.

(** ** Lists, the deck *)

Lemma pop_length {X} (l : list X) c r : pop l = Some (c, r) -> length l = S (length r).
Proof.
  revert c r. induction l as [|x l IH]; intros c r H; cbn in H; [discriminate|].
  destruct (pop l) as [[y r']|] eqn:Hp.
  - injection H as <- <-. cbn. f_equal. eapply IH. reflexivity.
  - injection H as <- <-. destruct l; [reflexivity|]. cbn in Hp.
    destruct (pop l) as [[? ?]|]; discriminate.
Qed.

Lemma pop_nonempty {X} (l : list X) : (0 < length l)%nat -> exists c r, pop l = Some (c, r).
Proof.
  destruct l as [|x l]; cbn; [lia|]. intros _.
  destruct (pop l) as [[y r]|]; eauto.
Qed.

Lemma pop_snoc {X} (l : list X) c r : pop l = Some (c, r) -> l = r ++ [c].
Proof.
  revert c r. induction l as [|x l IH]; intros c r H; cbn in H; [discriminate|].
  destruct (pop l) as [[y r']|] eqn:Hp.
  - injection H as <- <-. cbn. f_equal. apply IH. reflexivity.
  - injection H as <- <-. destruct l; [reflexivity|]. cbn in Hp.
    destruct (pop l) as [[? ?]|]; discriminate.
Qed.

Lemma swap_length i j cards : length (Deck.swap i j cards) = length cards.
Proof.
  unfold Deck.swap. destruct (cards !! i), (cards !! j); try reflexivity.
  now rewrite !length_insert.
Qed.

Lemma shuffle_from_length rnd i cards :
  length (Deck.shuffle_from rnd i cards) = length cards.
Proof.
  revert cards. induction i as [|i IH]; intros cards; cbn [Deck.shuffle_from]; [reflexivity|].
  rewrite IH. apply swap_length.
Qed.

Lemma reset_length rnd : length (Deck.reset rnd) = 52%nat.
Proof. unfold Deck.reset, Deck.shuffle. rewrite shuffle_from_length. reflexivity. Qed.

Lemma sumZ_map_insert {X} (f : X -> Z) (l : list X) i x y :
  l !! i = Some x ->
  sumZ (map f (<[i := y]> l)) = sumZ (map f l) - f x + f y.
Proof.
  revert i. induction l as [|a l IH]; intros [|i] H; try discriminate.
  - injection H as ->. cbn. lia.
  - change (<[S i := y]> (a :: l)) with (a :: <[i := y]> l).
    cbn [map sumZ]. rewrite (IH i H). lia.
Qed.

Lemma stacks_total_insert ps i p q :
  ps !! i = Some p ->
  stacks_total (<[i := q]> ps) = stacks_total ps - Player.stack p + Player.stack q.
Proof. apply sumZ_map_insert. Qed.

Lemma street_total_insert ps i p q :
  ps !! i = Some p ->
  street_total (<[i := q]> ps) = street_total ps - Player.currentBet p + Player.currentBet q.
Proof. apply sumZ_map_insert. Qed.

Lemma sumZ_map_ext {X} (f h : X -> Z) (l : list X) :
  (forall x, f x = h x) -> sumZ (map f l) = sumZ (map h l).
Proof. intros H. induction l; cbn; [reflexivity|]. now rewrite H, IHl. Qed.

Lemma lookup_lt_6 {X} (l : list X) i : length l = 6%nat -> (i < 6)%nat -> exists x, l !! i = Some x.
Proof.
  intros Hl Hi. destruct (l !! i) eqn:H; [eauto|].
  apply lookup_ge_None in H. lia.
Qed.

Lemma mod6_lt n : (n mod 6 < 6)%nat.
Proof. apply Nat.mod_upper_bound. discriminate. Qed.

(** ** Methods that leave the core fields alone *)

Lemma keeps_core_ret {X} (a : X) : keeps_core (ret a).
Proof. intros g. reflexivity. Qed.

Lemma keeps_core_bind {X Y} (m : M X) (k : X -> M Y) :
  keeps_core m -> (forall a, keeps_core (k a)) -> keeps_core (bind m k).
Proof.
  intros Hm Hk g. unfold bind. specialize (Hm g).
  destruct (m g) as [a g'|e g']; cbn in Hm; [|exact Hm].
  rewrite Hk. exact Hm.
Qed.

Lemma keeps_core_gets {X} (f : t -> X) : keeps_core (gets f).
Proof. intros g. reflexivity. Qed.

Lemma keeps_core_throw {X} e : keeps_core (@throw X e).
Proof. intros g. reflexivity. Qed.

Lemma keeps_core_getPlayer i : keeps_core (getPlayer i).
Proof. intros g. unfold getPlayer. destruct (players g !! i); reflexivity. Qed.

Lemma keeps_core_logAction s : keeps_core (logAction s).
Proof. intros g. reflexivity. Qed.

Lemma keeps_core_pushGameAction a : keeps_core (pushGameAction a).
Proof. intros g. reflexivity. Qed.

Lemma keeps_core_set_active (f : t -> nat) :
  keeps_core (modify (fun g => set_activePlayerIndex (f g) g)).
Proof. intros g. reflexivity. Qed.

Lemma keeps_core_set_active_const v : keeps_core (modify (set_activePlayerIndex v)).
Proof. intros g. reflexivity. Qed.

Lemma keeps_core_set_isFirstAction v : keeps_core (modify (set_isFirstAction v)).
Proof. intros g. reflexivity. Qed.

Ltac core_step :=
  first
    [ apply keeps_core_bind; [|intros ?]
    | apply keeps_core_ret
    | apply keeps_core_gets
    | apply keeps_core_throw
    | apply keeps_core_getPlayer
    | apply keeps_core_logAction
    | apply keeps_core_pushGameAction
    | apply keeps_core_set_active_const
    | apply keeps_core_set_active
    | apply keeps_core_set_isFirstAction
    | assumption
    | match goal with
      | |- keeps_core (if ?b then _ else _) => destruct b
      | |- keeps_core (match ?x with _ => _ end) => destruct x
      end ].

Lemma keeps_core_findNextActivePlayer_loop budget start :
  keeps_core (findNextActivePlayer_loop budget start).
Proof.
  induction budget as [|b IH]; cbn [findNextActivePlayer_loop]; repeat core_step.
Qed.

Lemma keeps_core_findNextActivePlayer : keeps_core findNextActivePlayer.
Proof.
  unfold findNextActivePlayer. apply keeps_core_bind; [apply keeps_core_gets|].
  intros start. apply keeps_core_findNextActivePlayer_loop.
Qed.

Lemma keeps_core_moveToNextPlayer : keeps_core moveToNextPlayer.
Proof.
  unfold moveToNextPlayer. apply keeps_core_bind; [apply keeps_core_set_active|].
  intros _. apply keeps_core_findNextActivePlayer.
Qed.

Lemma keeps_core_setActivePlayer : keeps_core setActivePlayer.
Proof.
  unfold setActivePlayer. apply keeps_core_bind; [apply keeps_core_gets|].
  intros ph. apply keeps_core_bind; [|intros _; apply keeps_core_findNextActivePlayer].
  destruct (phase_eqb ph PREFLOP); repeat core_step.
Qed.

Lemma keeps_core_isBettingRoundComplete : keeps_core isBettingRoundComplete.
Proof. unfold isBettingRoundComplete. repeat core_step. Qed.

Lemma keeps_core_findNextPlayerWithChips_loop budget total next attempts :
  keeps_core (findNextPlayerWithChips_loop budget total next attempts).
Proof.
  revert next attempts.
  induction budget as [|b IH]; intros next attempts;
    cbn [findNextPlayerWithChips_loop]; repeat core_step. apply IH.
Qed.

Lemma keeps_core_findNextPlayerWithChips from : keeps_core (findNextPlayerWithChips from).
Proof.
  unfold findNextPlayerWithChips. apply keeps_core_bind; [apply keeps_core_gets|].
  intros total. apply keeps_core_bind; [apply keeps_core_findNextPlayerWithChips_loop|].
  intros [next attempts]. repeat core_step.
Qed.

(** A property of the core fields survives such a method, whether it
    returns or throws. *)
Lemma keeps_core_wp {X} (m : M X) (P : t -> Prop) E g :
  keeps_core m ->
  (forall g1 g2, core g1 = core g2 -> P g1 -> P g2) ->
  (forall e g', P g' -> E e g') ->
  P g -> wp m (fun _ => P) E g.
Proof.
  intros Hm HP HE Hg. unfold wp. specialize (Hm g).
  destruct (m g) as [a g'|e g']; cbn in Hm.
  - eapply HP; [symmetry; exact Hm | exact Hg].
  - apply HE. eapply HP; [symmetry; exact Hm | exact Hg].
Qed.

(** * The valid-actions query *)

Lemma table_reachable_with (okStacks : list Z -> Prop) stacks :
  okStacks stacks -> reachable_with okStacks (table stacks).
Proof.
  intros Hok. unfold table.
  eapply reach_step; [eapply reach_step; [apply reach_new|]|].
  - apply step_setPlayerStacks. exact Hok.
  - apply step_startNewHand.
Qed.

Lemma table_reachable stacks : reachable (table stacks).
Proof. now apply table_reachable_with. Qed.

(** C3 (as the code has it): the query is empty when the active seat is
    missing or cannot act (in particular when no seat can act) or the phase is
    SETUP or FINISHED; otherwise, the table bet, the seat's street bet and its
    stack lying between 0 and 2^53 (where the source computes the amount to
    call exactly), it lists, without repetition, FOLD always, CHECK iff the
    amount to call is 0, BET iff moreover the stack covers the big blind,
    CALL iff the amount to call is not 0 and the stack covers it, RAISE iff
    the amount to call is not 0, the stack is strictly larger than it and
    covers the big blind, ALL_IN iff the stack is positive. *)
Theorem getValidActions_characterisation (g : t) :
  ((activePlayer g = None
    \/ (exists p, activePlayer g = Some p /\ Player.canAct p = false)
    \/ phase g = SETUP \/ phase g = FINISHED) -> getValidActions g = [])
  /\ ((forall p, In p (players g) -> Player.canAct p = false) -> getValidActions g = [])
  /\ (forall p, activePlayer g = Some p -> Player.canAct p = true ->
       phase g <> SETUP -> phase g <> FINISHED ->
       in_range (currentBet g) -> in_range (Player.currentBet p) ->
       in_range (Player.stack p) ->
       let acts := getValidActions g in
       let atc := amountToCall g p in
       List.NoDup acts
       /\ In FOLD acts
       /\ (In CHECK acts <-> atc = 0)
       /\ (In BET acts <-> atc = 0 /\ BIG_BLIND <= Player.stack p)
       /\ (In CALL acts <-> atc <> 0 /\ atc <= Player.stack p)
       /\ (In RAISE acts <->
             atc <> 0 /\ atc < Player.stack p /\ BIG_BLIND <= Player.stack p)
       /\ (In ALL_IN acts <-> 0 < Player.stack p)
       /\ (forall raw, ~ In (UNKNOWN raw) acts)).
Proof.
  unfold activePlayer, amountToCall, getValidActions.
  split; [|split].
  - intros [H | [(p & Hp & Hc) | [H | H]]].
    + now rewrite H.
    + now rewrite Hp, Hc.
    + destruct (players g !! activePlayerIndex g); [|reflexivity].
      rewrite H. now rewrite orb_true_r.
    + destruct (players g !! activePlayerIndex g); [|reflexivity].
      rewrite H. cbn. now rewrite orb_true_r.
  - intros Hall. destruct (players g !! activePlayerIndex g) as [p|] eqn:Hp; [|reflexivity].
    rewrite (Hall p); [reflexivity|].
    apply list_elem_of_In. eapply list_elem_of_lookup_2. exact Hp.
  - intros p Hp Hc Hs Hf _ _ _. rewrite Hp, Hc.
    assert (phase_eqb (phase g) FINISHED = false) as -> by (destruct (phase g) eqn:Eph; cbn; congruence).
    assert (phase_eqb (phase g) SETUP = false) as -> by (destruct (phase g) eqn:Eph; cbn; congruence).
    cbn [negb orb]. unfold BIG_BLIND.
    destruct (Z.eqb_spec (currentBet g - Player.currentBet p) 0);
      destruct (Z.leb_spec 40 (Player.stack p));
      destruct (Z.leb_spec (currentBet g - Player.currentBet p) (Player.stack p));
      destruct (Z.ltb_spec (currentBet g - Player.currentBet p) (Player.stack p));
      destruct (Z.ltb_spec 0 (Player.stack p));
      cbn [andb app In];
      (split; [repeat constructor; cbn [In]; intuition discriminate|]);
      repeat split; unfold not; intros; try lia;
      repeat match goal with
             | H : _ \/ _ |- _ => destruct H
             | H : _ /\ _ |- _ => destruct H
             | H : False |- _ => destruct H
             | H : _ = _ :> PlayerAction |- _ => discriminate H
             end; try lia; auto 10.
Qed.

(** Closed facts about concrete runs are settled by evaluation. *)
Ltac by_evaluation :=
  repeat match goal with |- _ /\ _ => split end;
  vm_compute; try reflexivity.

Lemma table_1000_under_the_gun :
  let g := table [1000; 1000; 1000; 1000; 1000; 1000] in
  exists p, activePlayer g = Some p /\ Player.canAct p = true /\ phase g = PREFLOP
            /\ amountToCall g p = 40 /\ Player.stack p = 1000.
Proof. intros g. eexists. by_evaluation. Qed.

Lemma table_1000_table_bet :
  currentBet (table [1000; 1000; 1000; 1000; 1000; 1000]) = 40.
Proof. by_evaluation. Qed.

Lemma getValidActions_characterisation_witness :
  let g := table [1000; 1000; 1000; 1000; 1000; 1000] in
  exists p, activePlayer g = Some p /\ In CALL (getValidActions g)
            /\ ~ In CHECK (getValidActions g).
Proof.
  intros g. destruct table_1000_under_the_gun as (p & Hp & Hc & Hph & Ha & Hs).
  pose proof table_1000_table_bet as Hcb.
  fold g in Hp, Hph, Ha, Hcb. clearbody g.
  destruct (getValidActions_characterisation g) as (_ & _ & H).
  specialize (H p Hp Hc). rewrite Hph in H.
  specialize (H ltac:(discriminate) ltac:(discriminate)).
  unfold amountToCall in Ha.
  assert (Hr1 : in_range (currentBet g)) by (unfold in_range, MAX_EXACT; lia).
  assert (Hr2 : in_range (Player.currentBet p)) by (unfold in_range, MAX_EXACT; lia).
  assert (Hr3 : in_range (Player.stack p)) by (unfold in_range, MAX_EXACT; lia).
  specialize (H Hr1 Hr2 Hr3). fold (amountToCall g p) in Ha.
  cbv zeta in H. destruct H as (_ & _ & Hcheck & _ & Hcall & _).
  exists p. split; [exact Hp|]. split.
  - apply Hcall. rewrite Ha, Hs. lia.
  - intros Hin. apply Hcheck in Hin. rewrite Ha in Hin. discriminate.
Defined.

(** C3 (as stated) fails: under the gun with 30 chips and 40 to call, the
    amount to call is positive and CALL is not offered; with 50 chips RAISE
    is offered although the stack exceeds the call by 10 only. *)
Lemma getValidActions_short_stack_counterexample :
  (let g := table [1000; 1000; 1000; 1000; 30; 1000] in
   exists p, activePlayer g = Some p /\ Player.canAct p = true /\ phase g = PREFLOP
             /\ amountToCall g p = 40 /\ Player.stack p = 30
             /\ getValidActions g = [FOLD; ALL_IN] /\ ~ In CALL (getValidActions g))
  /\ (let g := table [1000; 1000; 1000; 1000; 50; 1000] in
      exists p, activePlayer g = Some p /\ amountToCall g p = 40 /\ Player.stack p = 50
                /\ Player.stack p - amountToCall g p < BIG_BLIND
                /\ In RAISE (getValidActions g)).
Proof.
  split; intros g; eexists; by_evaluation.
  - intuition discriminate.
  - auto.
Qed.

(** * Starting a hand *)

(** ** findNextPlayerWithChips *)

Lemma rotation_hits total next k :
  (next < total)%nat -> (k < total)%nat ->
  exists j, (j < total)%nat /\ ((next + j) mod total)%nat = k.
Proof.
  intros Hn Hk. destruct (le_lt_dec next k) as [Hle|Hlt].
  - exists (k - next)%nat. split; [lia|].
    replace (next + (k - next))%nat with k by lia. now apply Nat.mod_small.
  - exists (k + total - next)%nat. split; [lia|].
    replace (next + (k + total - next))%nat with (k + 1 * total)%nat by lia.
    rewrite Nat.Div0.mod_add. now apply Nat.mod_small.
Qed.

Lemma findNextPlayerWithChips_loop_broke budget total next attempts g :
  Forall broke (players g) ->
  total = length (players g) -> (next < total)%nat ->
  exists next', findNextPlayerWithChips_loop budget total next attempts g
                = Ok (next', (attempts + budget)%nat) g.
Proof.
  intros Hall ->. revert next attempts.
  induction budget as [|b IH]; intros next attempts Hn; cbn [findNextPlayerWithChips_loop].
  - destruct (lookup_lt_is_Some_2 (players g) next Hn) as [p Hp].
    exists next. unfold bind, getPlayer. rewrite Hp. cbn. now rewrite Nat.add_0_r.
  - destruct (lookup_lt_is_Some_2 (players g) next Hn) as [p Hp].
    unfold bind at 1. unfold getPlayer at 1. rewrite Hp.
    assert (Hz : Player.stack p = 0).
    { rewrite Forall_forall in Hall. apply Hall.
      eapply list_elem_of_lookup_2; exact Hp. }
    rewrite Hz. cbn [Z.eqb].
    destruct (IH ((next + 1) mod length (players g))%nat (attempts + 1)%nat) as [n' Hn'].
    { apply Nat.mod_upper_bound. lia. }
    exists n'. rewrite Hn'. f_equal. f_equal. lia.
Qed.

Lemma findNextPlayerWithChips_loop_funded budget total next attempts g :
  total = length (players g) -> (next < total)%nat ->
  (exists j p, (j < budget)%nat /\ players g !! ((next + j) mod total)%nat = Some p
               /\ Player.stack p <> 0) ->
  exists k a p, findNextPlayerWithChips_loop budget total next attempts g = Ok (k, a) g
                /\ (a < attempts + budget)%nat /\ (k < total)%nat
                /\ players g !! k = Some p /\ Player.stack p <> 0.
Proof.
  intros ->. revert next attempts.
  induction budget as [|b IH]; intros next attempts Hn (j & p & Hj & Hp & Hnz); [lia|].
  cbn [findNextPlayerWithChips_loop].
  destruct (lookup_lt_is_Some_2 (players g) next Hn) as [p0 Hp0].
  unfold bind at 1. unfold getPlayer at 1. rewrite Hp0.
  destruct (Z.eqb_spec (Player.stack p0) 0) as [Hz|Hz].
  - destruct j as [|j].
    { rewrite Nat.add_0_r, Nat.mod_small in Hp by exact Hn. congruence. }
    destruct (IH ((next + 1) mod length (players g))%nat (attempts + 1)%nat)
      as (k & a & q & Hr & Ha & Hk & Hq & Hqz).
    { apply Nat.mod_upper_bound. lia. }
    { exists j, p. split; [lia|]. split; [|exact Hnz].
      rewrite Nat.Div0.add_mod_idemp_l.
      replace (next + 1 + j)%nat with (next + S j)%nat by lia. exact Hp. }
    exists k, a, q. rewrite Hr. repeat split; auto. lia.
  - exists next, attempts, p0. cbn. repeat split; auto. lia.
Qed.

Lemma findNextPlayerWithChips_broke from g :
  (0 < length (players g))%nat -> Forall broke (players g) ->
  findNextPlayerWithChips from g = Throw NoPlayersWithChips g.
Proof.
  intros Hlen Hall. unfold findNextPlayerWithChips, bind, gets.
  destruct (findNextPlayerWithChips_loop_broke (length (players g)) (length (players g))
              ((from + 1) mod length (players g))%nat 0%nat g Hall eq_refl) as [n' Hn'].
  { apply Nat.mod_upper_bound. lia. }
  rewrite Hn'. cbn [Nat.add]. now rewrite Nat.leb_refl.
Qed.

Lemma findNextPlayerWithChips_funded from g :
  Exists (fun p => Player.stack p <> 0) (players g) ->
  exists k p, findNextPlayerWithChips from g = Ok k g
              /\ (k < length (players g))%nat
              /\ players g !! k = Some p /\ Player.stack p <> 0.
Proof.
  intros Hex. apply Exists_exists in Hex as (p & Hin & Hnz).
  apply list_elem_of_lookup_1 in Hin as [i Hi].
  assert (Hi' : (i < length (players g))%nat) by (eapply lookup_lt_Some; exact Hi).
  assert (Hn : ((from + 1) mod length (players g) < length (players g))%nat).
  { apply Nat.mod_upper_bound. lia. }
  destruct (rotation_hits _ _ i Hn Hi') as (j & Hj & Hji).
  destruct (findNextPlayerWithChips_loop_funded (length (players g)) (length (players g))
              ((from + 1) mod length (players g))%nat 0%nat g eq_refl Hn)
    as (k & a & q & Hr & Ha & Hk & Hq & Hqz).
  { exists j, p. rewrite Hji. auto. }
  exists k, q. unfold findNextPlayerWithChips, bind, gets. rewrite Hr.
  destruct (Nat.leb_spec (length (players g)) a); [lia|]. auto.
Qed.

(** ** resetForNewHand *)

Lemma lookup_map_reset ps i :
  map Player.reset ps !! i = Player.reset <$> (ps !! i).
Proof. change (map Player.reset ps) with (Player.reset <$> ps). apply list_lookup_fmap. Qed.

Lemma funded_at_reset ps i : funded_at (map Player.reset ps) i <-> funded_at ps i.
Proof.
  unfold funded_at. rewrite lookup_map_reset. split.
  - intros (p & Hp & Hnz). destruct (ps !! i) as [q|]; [|discriminate].
    injection Hp as <-. eauto.
  - intros (p & Hp & Hnz). rewrite Hp. eexists. split; [reflexivity|exact Hnz].
Qed.

Lemma Exists_funded_reset ps :
  Exists (fun p => Player.stack p <> 0) ps ->
  Exists (fun p => Player.stack p <> 0) (map Player.reset ps).
Proof. induction 1; cbn; [left | right]; auto. Qed.

Lemma Forall_broke_reset ps : Forall broke ps -> Forall broke (map Player.reset ps).
Proof. induction 1; cbn; constructor; auto. Qed.

Lemma length_map_reset ps : length (map Player.reset ps) = length ps.
Proof. apply length_map. Qed.

Lemma resetForNewHand_unfold rnd uuid g :
  resetForNewHand rnd uuid g = moveButton (dealerIndex g) (cleared (Deck.reset rnd) uuid g).
Proof. reflexivity. Qed.

Lemma findNextPlayerWithChips_immediate from g :
  funded_at (players g) ((from + 1) mod length (players g))%nat ->
  findNextPlayerWithChips from g = Ok ((from + 1) mod length (players g))%nat g.
Proof.
  intros (p & Hp & Hnz). unfold findNextPlayerWithChips, bind, gets.
  assert (Hlen : (0 < length (players g))%nat).
  { apply lookup_lt_Some in Hp. lia. }
  destruct (length (players g)) as [|n] eqn:Hl; [lia|].
  cbn [findNextPlayerWithChips_loop]. unfold bind, getPlayer. rewrite Hp.
  destruct (Z.eqb_spec (Player.stack p) 0); [contradiction|]. reflexivity.
Qed.

Lemma moveButton_funded d0 g :
  Exists (fun p => Player.stack p <> 0) (players g) ->
  exists d sb bb,
    moveButton d0 g = Ok tt (seated d sb bb g)
    /\ (d < length (players g))%nat /\ (sb < length (players g))%nat
    /\ (bb < length (players g))%nat
    /\ funded_at (players g) d /\ funded_at (players g) sb /\ funded_at (players g) bb
    /\ (funded_at (players g) ((d0 + 1) mod length (players g))%nat ->
          d = ((d0 + 1) mod length (players g))%nat)
    /\ (funded_at (players g) ((d + 1) mod length (players g))%nat ->
          sb = ((d + 1) mod length (players g))%nat)
    /\ (funded_at (players g) ((sb + 1) mod length (players g))%nat ->
          bb = ((sb + 1) mod length (players g))%nat).
Proof.
  intros Hex. unfold moveButton.
  destruct (findNextPlayerWithChips_funded d0 g Hex) as (d & pd & Hd & Hdlt & Hpd & Hdnz).
  unfold bind at 1. rewrite Hd. unfold bind at 1. unfold modify at 1.
  destruct (findNextPlayerWithChips_funded d (set_dealerIndex d g) Hex)
    as (sb & psb & Hsb & Hsblt & Hpsb & Hsbnz).
  unfold bind at 1. rewrite Hsb. unfold bind at 1. unfold modify at 1.
  destruct (findNextPlayerWithChips_funded sb
              (set_smallBlindIndex sb (set_dealerIndex d g)) Hex)
    as (bb & pbb & Hbb & Hbblt & Hpbb & Hbbnz).
  unfold bind at 1. rewrite Hbb. unfold modify.
  exists d, sb, bb. split; [reflexivity|].
  fields in Hdlt. fields in Hsblt. fields in Hbblt.
  fields in Hpd. fields in Hpsb. fields in Hpbb.
  repeat (split; [first [assumption | eexists; eauto]|]).
  repeat split; intros Hf.
  - rewrite (findNextPlayerWithChips_immediate d0 g) in Hd by exact Hf.
    now injection Hd as <-.
  - rewrite (findNextPlayerWithChips_immediate d (set_dealerIndex d g)) in Hsb by exact Hf.
    now injection Hsb as <-.
  - rewrite (findNextPlayerWithChips_immediate sb
               (set_smallBlindIndex sb (set_dealerIndex d g))) in Hbb by exact Hf.
    now injection Hbb as <-.
Qed.

Lemma moveButton_broke d0 g :
  (0 < length (players g))%nat -> Forall broke (players g) ->
  moveButton d0 g = Throw NoPlayersWithChips g.
Proof.
  intros Hlen Hall. unfold moveButton, bind.
  now rewrite (findNextPlayerWithChips_broke d0 g).
Qed.

(** The reset seats keep their stacks. *)
Lemma cleared_funded cards uuid g i :
  funded_at (players (cleared cards uuid g)) i <-> funded_at (players g) i.
Proof. apply funded_at_reset. Qed.

Lemma cleared_length cards uuid g :
  length (players (cleared cards uuid g)) = length (players g).
Proof. apply length_map_reset. Qed.

(** ** dealHoleCards *)

Lemma chips_view_length ps : length (chips_view ps) = length ps.
Proof. apply length_map. Qed.

Lemma chips_view_insert ps i p cards :
  ps !! i = Some p ->
  chips_view (<[i := Player.set_holeCards cards p]> ps) = chips_view ps.
Proof.
  revert i. induction ps as [|a ps IH]; intros [|i] H; try discriminate.
  - injection H as ->. reflexivity.
  - change (<[S i := Player.set_holeCards cards p]> (a :: ps))
      with (a :: <[i := Player.set_holeCards cards p]> ps).
    cbn [chips_view map]. f_equal. apply IH. exact H.
Qed.

Lemma chips_view_eq_length ps ps' : chips_view ps = chips_view ps' -> length ps = length ps'.
Proof. intros H. rewrite <- (chips_view_length ps), H. apply chips_view_length. Qed.

Lemma wp_for_each_count {X} (I : nat -> t -> Prop) (xs : list X) (body : X -> M unit)
    (E : Error -> t -> Prop) n g :
  (forall x k, hoare (I (S k)) (body x) (fun _ => I k) E) ->
  I (length xs + n)%nat g -> wp (for_each xs body) (fun _ => I n) E g.
Proof.
  intros Hb. revert g. induction xs as [|x xs IH]; intros g Hg; cbn [for_each].
  - exact Hg.
  - apply wp_bind. eapply wp_mono; [apply (Hb x); exact Hg | | auto].
    intros [] g' Hg'. apply IH. exact Hg'.
Qed.

Lemma dealHoleCards_spec g :
  length (players g) = 6%nat -> (12 <= length (deck g))%nat ->
  exists ps' dk',
    dealHoleCards g = Ok tt (set_players ps' (set_deck dk' g))
    /\ chips_view ps' = chips_view (players g)
    /\ length (deck g) = (length dk' + 12)%nat.
Proof.
  intros Hlen Hdeck.
  assert (H : wp dealHoleCards (fun _ => dealt_from g 0) (fun _ _ => False) g).
  { unfold dealHoleCards.
    change (fun _ : unit => dealt_from g 0)
      with (fun _ : unit => (fun k => dealt_from g (6 * k)) 0%nat).
    apply (wp_for_each_count (fun k => dealt_from g (6 * k)) (seq 0 2)).
    - intros _ k s Hs.
      apply (wp_for_each_count (dealt_from g) (seq 0 6)).
      + clear s Hs. intros i j s (ps' & dk' & -> & Hv & Hd & Hj).
        assert (Hl : length ps' = 6%nat) by (rewrite (chips_view_eq_length _ _ Hv); exact Hlen).
        destruct (lookup_lt_6 ps' ((dealerIndex g + 1 + i) mod 6) Hl (mod6_lt _)) as [p Hp].
        destruct (pop_nonempty dk') as (c & rest & Hpop); [lia|].
        apply wp_bind, wp_gets. cbn beta. apply wp_bind, wp_getPlayer.
        cbn [players deck dealerIndex set_players set_deck]. rewrite Hp.
        apply wp_bind, wp_deal.
        cbn [players deck dealerIndex set_players set_deck]. rewrite Hpop.
        apply wp_setPlayer. cbn [players set_players set_deck].
        exists (<[((dealerIndex g + 1 + i) mod 6)%nat
                  := Player.set_holeCards (Player.holeCards p ++ [c]) p]> ps'), rest.
        split; [reflexivity|]. split.
        * rewrite <- Hv. apply chips_view_insert. exact Hp.
        * apply pop_length in Hpop. lia.
      + cbn [length seq]. replace (6 + 6 * k)%nat with (6 * S k)%nat by lia. exact Hs.
    - cbn [length seq]. exists (players g), (deck g).
      split; [destruct g; reflexivity|]. split; [reflexivity|]. lia. }
  apply wp_returns in H as ([] & s & Heq & ps' & dk' & -> & Hv & Hd & _).
  exists ps', dk'. split; [exact Heq|]. split; [exact Hv|lia].
Qed.

(** ** findNextActivePlayer, setActivePlayer *)

Lemma set_activePlayerIndex_same g : set_activePlayerIndex (activePlayerIndex g) g = g.
Proof. destruct g; reflexivity. Qed.

Lemma findNextActivePlayer_loop_ok budget start g :
  length (players g) = 6%nat -> (activePlayerIndex g < 6)%nat ->
  exists k, (k < 6)%nat
            /\ findNextActivePlayer_loop budget start g = Ok tt (set_activePlayerIndex k g).
Proof.
  revert g. induction budget as [|b IH]; intros g Hlen Ha; cbn [findNextActivePlayer_loop].
  - exists (activePlayerIndex g). now rewrite set_activePlayerIndex_same.
  - destruct (lookup_lt_6 (players g) (activePlayerIndex g) Hlen Ha) as [p Hp].
    unfold bind at 1. unfold gets at 1. unfold bind at 1. unfold getPlayer at 1.
    rewrite Hp. destruct (Player.canAct p).
    + exists (activePlayerIndex g). now rewrite set_activePlayerIndex_same.
    + unfold bind at 1. unfold modify at 1. unfold bind at 1. unfold gets at 1.
      cbn [activePlayerIndex set_activePlayerIndex].
      destruct ((activePlayerIndex g + 1) mod 6 =? start)%nat.
      * exists ((activePlayerIndex g + 1) mod 6)%nat. split; [apply mod6_lt|reflexivity].
      * destruct (IH (set_activePlayerIndex ((activePlayerIndex g + 1) mod 6) g))
          as (k & Hk & Hr); [exact Hlen|apply mod6_lt|].
        exists k. split; [exact Hk|]. rewrite Hr. reflexivity.
Qed.

Lemma findNextActivePlayer_ok g :
  length (players g) = 6%nat -> (activePlayerIndex g < 6)%nat ->
  exists k, (k < 6)%nat /\ findNextActivePlayer g = Ok tt (set_activePlayerIndex k g).
Proof. intros. unfold findNextActivePlayer, bind, gets. now apply findNextActivePlayer_loop_ok. Qed.

Lemma findNextActivePlayer_stays g p :
  players g !! activePlayerIndex g = Some p -> Player.canAct p = true ->
  findNextActivePlayer g = Ok tt g.
Proof.
  intros Hp Hc. unfold findNextActivePlayer, bind, gets. cbn [findNextActivePlayer_loop].
  unfold bind, gets, getPlayer. now rewrite Hp, Hc.
Qed.

Lemma setActivePlayer_ok g :
  length (players g) = 6%nat ->
  exists k, (k < 6)%nat /\ setActivePlayer g = Ok tt (set_activePlayerIndex k g)
    /\ (forall p, phase g = PREFLOP ->
          players g !! ((bigBlindIndex g + 1) mod 6)%nat = Some p ->
          Player.canAct p = true -> k = ((bigBlindIndex g + 1) mod 6)%nat).
Proof.
  intros Hlen. unfold setActivePlayer. unfold bind at 1. unfold gets at 1.
  destruct (phase g) eqn:Hph; cbn [phase_eqb];
    unfold bind at 1; unfold bind at 1; unfold gets at 1; unfold modify at 1;
    match goal with
    | |- context [findNextActivePlayer ?s] =>
        destruct (findNextActivePlayer_ok s Hlen (mod6_lt _)) as (k & Hk & Hr)
    end;
    try (exists k; rewrite Hr; split; [exact Hk|]; split; [reflexivity|];
         intros; discriminate).
  exists k. split; [exact Hk|]. split; [rewrite Hr; reflexivity|].
  intros p _ Hp Hc.
  rewrite (findNextActivePlayer_stays _ p) in Hr; [|exact Hp|exact Hc].
  pose proof (f_equal (fun r => activePlayerIndex (state_of r)) Hr) as Hk'.
  cbn [state_of activePlayerIndex set_activePlayerIndex] in Hk'. now symmetry.
Qed.

(** ** postBlinds *)

Lemma postBlinds_ok g :
  (smallBlindIndex g < length (players g))%nat ->
  (bigBlindIndex g < length (players g))%nat ->
  exists p q,
    players g !! smallBlindIndex g = Some p
    /\ <[smallBlindIndex g := snd (Player.bet SMALL_BLIND p)]> (players g)
         !! bigBlindIndex g = Some q
    /\ postBlinds g =
       Ok tt (set_currentBet BIG_BLIND
                (set_pot (pot g + fst (Player.bet SMALL_BLIND p)
                          + fst (Player.bet BIG_BLIND q))
                   (set_players
                      (<[bigBlindIndex g := snd (Player.bet BIG_BLIND q)]>
                         (<[smallBlindIndex g := snd (Player.bet SMALL_BLIND p)]>
                            (players g))) g))).
Proof.
  intros Hsb Hbb.
  destruct (lookup_lt_is_Some_2 (players g) _ Hsb) as [p Hp].
  destruct (lookup_lt_is_Some_2
              (<[smallBlindIndex g := snd (Player.bet SMALL_BLIND p)]> (players g))
              (bigBlindIndex g)) as [q Hq].
  { now rewrite length_insert. }
  exists p, q. split; [exact Hp|]. split; [exact Hq|].
  unfold postBlinds. unfold bind at 1. unfold gets at 1. unfold bind at 1.
  unfold getPlayer at 1. rewrite Hp.
  destruct (Player.bet SMALL_BLIND p) as [a1 p'] eqn:Hb1. cbn [fst snd] in *.
  unfold bind at 1. unfold setPlayer at 1. unfold modify at 1.
  unfold bind at 1. unfold modify at 1. unfold bind at 1. unfold gets at 1.
  unfold bind at 1. unfold getPlayer at 1.
  cbn [players bigBlindIndex smallBlindIndex set_pot set_players]. rewrite Hq.
  destruct (Player.bet BIG_BLIND q) as [a2 q'] eqn:Hb2. cbn [fst snd].
  unfold bind, setPlayer, modify. cbn. reflexivity.
Qed.

(** ** startNewHand *)

Lemma wp_eq {X} (m : M X) a g g' (Q : X -> t -> Prop) E :
  m g = Ok a g' -> Q a g' -> wp m Q E g.
Proof. unfold wp. now intros ->. Qed.

Lemma startNewHand_funded rnd uuid g :
  length (players g) = 6%nat ->
  Exists (fun p => Player.stack p <> 0) (players g) ->
  exists g', startNewHand rnd uuid g = Ok tt g' /\ started uuid g g'.
Proof.
  intros Hlen Hex.
  enough (H : wp (startNewHand rnd uuid) (fun _ g' => started uuid g g')
                (fun _ _ => False) g).
  { apply wp_returns in H as ([] & g' & Heq & Hst). eauto. }
  pose proof (resetForNewHand_unfold rnd uuid g) as Hreset.
  pose proof (reset_length rnd) as Hcards.
  revert Hreset Hcards. generalize (Deck.reset rnd). intros cards Hreset Hcards.
  destruct (moveButton_funded (dealerIndex g) (cleared cards uuid g))
    as (d & sb & bb & Hmove & Hd & Hsb & Hbb & Hfd & Hfsb & Hfbb & Hid & Hisb & Hibb).
  { apply Exists_funded_reset. exact Hex. }
  rewrite Hmove in Hreset. clear Hmove.
  rewrite !cleared_funded in *. rewrite cleared_length, Hlen in *.
  set (s1 := seated d sb bb (cleared cards uuid g)) in *.
  assert (Hl1 : length (players s1) = 6%nat).
  { unfold s1, seated, cleared. fields. now rewrite length_map_reset. }
  destruct (postBlinds_ok s1) as (p & q & Hp & Hq & Hblinds).
  { rewrite Hl1. exact Hsb. }
  { rewrite Hl1. exact Hbb. }
  match type of Hblinds with _ = Ok tt ?s => set (g2 := s) in * end.
  assert (Hl2 : length (players g2) = 6%nat).
  { unfold g2. fields. now rewrite !length_insert. }
  assert (Hdeck2 : length (deck g2) = 52%nat) by exact Hcards.
  destruct (dealHoleCards_spec g2 Hl2) as (ps' & dk' & Hdeal & Hview & Hdk).
  { rewrite Hdeck2. lia. }
  rewrite Hdeck2 in Hdk.
  assert (Hl3 : length ps' = 6%nat).
  { rewrite (chips_view_eq_length _ _ Hview). exact Hl2. }
  set (s3 := set_phase PREFLOP (set_players ps' (set_deck dk' g2))).
  destruct (setActivePlayer_ok s3 Hl3) as (k & Hk & Hactive & Hutg).
  unfold startNewHand.
  apply wp_bind. eapply wp_eq; [exact Hreset|].
  apply wp_bind. eapply wp_eq; [exact Hblinds|].
  apply wp_bind. eapply wp_eq; [exact Hdeal|].
  apply wp_bind, wp_modify. fold s3.
  apply wp_bind. eapply wp_eq; [exact Hactive|].
  apply wp_bind, wp_logAction. apply wp_bind, wp_gets. cbn beta.
  apply wp_bind, wp_getPlayer. unfold s3, g2, s1, seated, cleared. fields.
  destruct (lookup_lt_6 ps' d Hl3 Hd) as [pd ->].
  apply wp_bind, wp_logAction. apply wp_bind, wp_gets. cbn beta.
  apply wp_bind, wp_getPlayer. fields.
  destruct (lookup_lt_6 ps' sb Hl3 Hsb) as [psb ->].
  apply wp_bind, wp_logAction. apply wp_bind, wp_gets. cbn beta.
  apply wp_bind, wp_getPlayer. fields.
  destruct (lookup_lt_6 ps' bb Hl3 Hbb) as [pbb ->].
  apply wp_bind, wp_logAction. apply wp_bind, wp_gets. cbn beta.
  apply wp_bind, wp_getPlayer. fields.
  destruct (lookup_lt_6 ps' k Hl3 Hk) as [pk ->].
  apply wp_logAction.
  exists cards, d, sb, bb, g2. fields.
  split; [lia|]. split; [auto|]. split; [auto|].
  split; [exact Hblinds|]. split; [exact Hview|].
  do 10 (split; [reflexivity|]).
  split; [clear - Hdk; lia|]. split; [exact Hk|]. split; [|exact Hl3].
  intros p0 Hp0 Hc0. apply (Hutg p0); [reflexivity|exact Hp0|exact Hc0].
Qed.

Lemma startNewHand_broke rnd uuid g :
  (0 < length (players g))%nat -> Forall broke (players g) ->
  startNewHand rnd uuid g = Throw NoPlayersWithChips (cleared (Deck.reset rnd) uuid g).
Proof.
  intros Hlen Hall. unfold startNewHand. unfold bind at 1.
  rewrite resetForNewHand_unfold, moveButton_broke; [reflexivity| |].
  - now rewrite cleared_length.
  - now apply Forall_broke_reset.
Qed.

Lemma seats_with_chips_zero ps : seats_with_chips ps = 0%nat <-> Forall broke ps.
Proof.
  unfold seats_with_chips, broke. induction ps as [|p ps IH]; cbn [List.filter].
  - split; [constructor|reflexivity].
  - destruct (Z.eqb_spec (Player.stack p) 0) as [Hz|Hz]; cbn [negb length].
    + rewrite IH. split; [now constructor|]. now inversion 1.
    + split; [discriminate|]. inversion 1; contradiction.
Qed.

Lemma seats_with_chips_pos ps :
  (1 <= seats_with_chips ps)%nat <-> Exists (fun p => Player.stack p <> 0) ps.
Proof.
  unfold seats_with_chips. induction ps as [|p ps IH]; cbn [List.filter].
  - cbn. split; [lia|]. inversion 1.
  - destruct (Z.eqb_spec (Player.stack p) 0) as [Hz|Hz]; cbn [negb length].
    + rewrite IH. split; [now right|]. inversion 1; [contradiction|assumption].
    + split; [now left|lia].
Qed.

(** C4 (as the code has it): with six seats, [startNewHand] throws "No
    players with chips remaining" exactly when no seat has a non-zero stack,
    and returns normally exactly when at least one seat has chips. *)
Theorem startNewHand_fails_iff_no_chips rnd uuid g :
  length (players g) = 6%nat ->
  ((exists g', startNewHand rnd uuid g = Throw NoPlayersWithChips g')
     <-> seats_with_chips (players g) = 0%nat)
  /\ ((exists g', startNewHand rnd uuid g = Ok tt g')
        <-> (1 <= seats_with_chips (players g))%nat).
Proof.
  intros Hlen.
  destruct (Nat.eq_dec (seats_with_chips (players g)) 0%nat) as [Hz|Hnz].
  - pose proof Hz as Hall. apply seats_with_chips_zero in Hall.
    rewrite (startNewHand_broke rnd uuid g) by (try rewrite Hlen; auto; lia).
    split; split; intros H; try lia; eauto.
    destruct H as [g' H]. discriminate.
  - assert (Hpos : (1 <= seats_with_chips (players g))%nat) by lia.
    pose proof Hpos as Hex. apply seats_with_chips_pos in Hex.
    destruct (startNewHand_funded rnd uuid g Hlen Hex) as (g' & Heq & _).
    rewrite Heq. split; split; intros H; try lia; eauto.
    destruct H as [g'' H]. discriminate.
Qed.

Lemma startNewHand_fails_iff_no_chips_witness :
  length (players one_funded_seat) = 6%nat
  /\ (1 <= seats_with_chips (players one_funded_seat))%nat
  /\ exists g', startNewHand rnd_id "hand-1" one_funded_seat = Ok tt g'.
Proof.
  assert (Hlen : length (players one_funded_seat) = 6%nat) by (vm_compute; reflexivity).
  assert (Hpos : (1 <= seats_with_chips (players one_funded_seat))%nat)
    by (vm_compute; lia).
  split; [exact Hlen|]. split; [exact Hpos|].
  apply (proj2 (startNewHand_fails_iff_no_chips rnd_id "hand-1" one_funded_seat Hlen)).
  exact Hpos.
Defined.

(** C4 (as stated) fails: with a single seat holding chips, fewer than two
    seats are funded and [startNewHand] still returns normally; that seat is
    dealer, small blind and big blind at once. *)
Lemma startNewHand_single_funded_seat_counterexample :
  (length (List.filter (fun p => (0 <? Player.stack p)%Z) (players one_funded_seat)) < 2)%nat
  /\ exists g', startNewHand rnd_id "hand-1" one_funded_seat = Ok tt g'
                /\ phase g' = PREFLOP
                /\ (dealerIndex g', smallBlindIndex g', bigBlindIndex g') = (0, 0, 0)%nat.
Proof.
  split; [vm_compute; lia|].
  eexists. split; [vm_compute; reflexivity|]. by_evaluation.
Qed.

(** ** Scenario: six seats at 1000 chips *)

Lemma chips_view_lookup ps ps' i p :
  chips_view ps = chips_view ps' -> ps !! i = Some p ->
  exists p', ps' !! i = Some p' /\ Player.set_holeCards [] p' = Player.set_holeCards [] p.
Proof.
  unfold chips_view. change (@map Player.t Player.t) with (@fmap list _ Player.t Player.t).
  intros Hv Hp.
  assert (H : (Player.set_holeCards [] <$> ps) !! i = Some (Player.set_holeCards [] p)).
  { rewrite list_lookup_fmap, Hp. reflexivity. }
  rewrite Hv, list_lookup_fmap in H.
  destruct (ps' !! i) as [p'|]; cbn [fmap option_fmap option_map] in H; [|discriminate].
  exists p'. split; [reflexivity|]. congruence.
Qed.

Lemma canAct_chips p p' :
  Player.set_holeCards [] p' = Player.set_holeCards [] p -> Player.canAct p' = Player.canAct p.
Proof.
  intros H. change (Player.canAct (Player.set_holeCards [] p')
                    = Player.canAct (Player.set_holeCards [] p)).
  now rewrite H.
Qed.

Lemma mod6_succ_neq n : (n < 6)%nat -> ((n + 1) mod 6)%nat <> n.
Proof. intros H. do 6 (destruct n as [|n]; [vm_compute; congruence|]). lia. Qed.

Lemma mod6_succ2_neq n : (n < 6)%nat -> ((((n + 1) mod 6) + 1) mod 6)%nat <> n.
Proof. intros H. do 6 (destruct n as [|n]; [vm_compute; congruence|]). lia. Qed.

Lemma mod6_plus3 n : ((((((n + 1) mod 6) + 1) mod 6) + 1) mod 6)%nat = ((n + 3) mod 6)%nat.
Proof.
  rewrite Nat.Div0.add_mod_idemp_l, <- Nat.add_assoc, Nat.Div0.add_mod_idemp_l.
  replace (n + 1 + (1 + 1))%nat with (n + 3)%nat by lia. reflexivity.
Qed.

Lemma mod6_plus2 n : ((((n + 1) mod 6) + 1) mod 6)%nat = ((n + 2) mod 6)%nat.
Proof.
  rewrite Nat.Div0.add_mod_idemp_l.
  replace (n + 1 + 1)%nat with (n + 2)%nat by lia. reflexivity.
Qed.

Lemma funded_1000 ps i :
  Forall (fun p => Player.stack p = 1000) ps -> (i < length ps)%nat -> funded_at ps i.
Proof.
  intros Hall Hi. destruct (lookup_lt_is_Some_2 ps i Hi) as [p Hp].
  exists p. split; [exact Hp|].
  rewrite Forall_forall in Hall. rewrite (Hall p); [discriminate|].
  eapply list_elem_of_lookup_2; exact Hp.
Qed.

(** C8 (as the code has it): with six seats at 1000 chips, [startNewHand]
    returns with pot 60 and currentBet 40; the button moves one seat, the
    blinds are the next two seats and the active seat is the seat left of the
    big blind (under the gun), three positions left of the dealer. *)
Theorem startNewHand_six_at_1000 rnd uuid g :
  length (players g) = 6%nat ->
  Forall (fun p => Player.stack p = 1000) (players g) ->
  exists g',
    startNewHand rnd uuid g = Ok tt g'
    /\ pot g' = 60 /\ currentBet g' = 40
    /\ dealerIndex g' = ((dealerIndex g + 1) mod 6)%nat
    /\ smallBlindIndex g' = ((dealerIndex g' + 1) mod 6)%nat
    /\ bigBlindIndex g' = ((dealerIndex g' + 2) mod 6)%nat
    /\ activePlayerIndex g' = ((bigBlindIndex g' + 1) mod 6)%nat
    /\ activePlayerIndex g' = ((dealerIndex g' + 3) mod 6)%nat.
Proof.
  intros Hlen Hall.
  assert (Hfund : forall i, (i < 6)%nat -> funded_at (players g) i).
  { intros i Hi. apply funded_1000; [exact Hall|lia]. }
  destruct (startNewHand_funded rnd uuid g Hlen) as (g' & Heq & Hst).
  { destruct (players g) as [|p ps]; [discriminate|]. left.
    inversion Hall as [|? ? Hp _]; subst. rewrite Hp. discriminate. }
  exists g'. split; [exact Heq|].
  destruct Hst as (cards & d & sb & bb & g2 & (Hd & Hsb & Hbb) & _ & (Hid & Hisb & Hibb)
                   & Hblinds & Hview & Hpot & Hcb & Hdi & Hsbi & Hbbi & _ & _ & _
                   & _ & _ & _ & Hact & Hutg & _).
  specialize (Hid (Hfund _ (mod6_lt _))).
  specialize (Hisb (Hfund _ (mod6_lt _))).
  specialize (Hibb (Hfund _ (mod6_lt _))).
  set (s1 := seated d sb bb (cleared cards uuid g)) in *.
  assert (Hps1 : players s1 = map Player.reset (players g)) by reflexivity.
  assert (Hlook : forall i, (i < 6)%nat ->
            exists p, players s1 !! i = Some (Player.reset p) /\ Player.stack p = 1000).
  { intros i Hi. destruct (lookup_lt_6 (players g) i Hlen Hi) as [p Hp].
    exists p. rewrite Hps1, lookup_map_reset, Hp. split; [reflexivity|].
    rewrite Forall_forall in Hall. apply Hall. eapply list_elem_of_lookup_2; exact Hp. }
  destruct (postBlinds_ok s1) as (p & q & Hp & Hq & Hblinds').
  { rewrite Hps1, length_map_reset, Hlen. exact Hsb. }
  { rewrite Hps1, length_map_reset, Hlen. exact Hbb. }
  rewrite Hblinds in Hblinds'. injection Hblinds' as ->.
  change (smallBlindIndex s1) with sb in *. change (bigBlindIndex s1) with bb in *.
  assert (Hne : bb <> sb) by (rewrite Hibb; now apply mod6_succ_neq).
  destruct (Hlook sb Hsb) as (p0 & Hp0 & Hs0). rewrite Hp0 in Hp. injection Hp as <-.
  rewrite list_lookup_insert_ne in Hq by congruence.
  destruct (Hlook bb Hbb) as (q0 & Hq0 & Hs1). rewrite Hq0 in Hq. injection Hq as <-.
  assert (Hpot' : pot g' = 60).
  { rewrite Hpot. unfold Player.bet, SMALL_BLIND, BIG_BLIND. fields.
    cbn [Player.stack Player.reset]. rewrite Hs0, Hs1. reflexivity. }
  clear Hpot.
  assert (Hutg' : activePlayerIndex g' = ((bb + 1) mod 6)%nat).
  { destruct (Hlook ((bb + 1) mod 6)%nat (mod6_lt _)) as (u & Hu & Hsu).
    assert (Hu2 : <[bb := snd (Player.bet BIG_BLIND (Player.reset q0))]>
                    (<[sb := snd (Player.bet SMALL_BLIND (Player.reset p0))]> (players s1))
                  !! ((bb + 1) mod 6)%nat = Some (Player.reset u)).
    { rewrite !list_lookup_insert_ne; [exact Hu| |].
      - rewrite Hibb. intros Heq'. symmetry in Heq'. revert Heq'. now apply mod6_succ2_neq.
      - intros Heq'. symmetry in Heq'. revert Heq'. now apply mod6_succ_neq. }
    destruct (chips_view_lookup _ _ _ _ (eq_sym Hview) Hu2) as (u' & Hu' & Hcv).
    apply (Hutg u' Hu'). rewrite (canAct_chips _ _ Hcv).
    unfold Player.canAct. cbn. rewrite Hsu. reflexivity. }
  rewrite Hpot', Hcb, Hdi, Hsbi, Hbbi, Hutg'.
  repeat split; try reflexivity; try assumption.
  - rewrite Hibb, Hisb. apply mod6_plus2.
  - rewrite Hibb, Hisb. apply mod6_plus3.
Qed.

Lemma startNewHand_six_at_1000_witness :
  exists g', startNewHand rnd_id "hand-1" six_at_1000 = Ok tt g'
             /\ pot g' = 60 /\ currentBet g' = 40
             /\ activePlayerIndex g' = ((dealerIndex g' + 3) mod 6)%nat.
Proof.
  destruct (startNewHand_six_at_1000 rnd_id "hand-1" six_at_1000)
    as (g' & Heq & Hpot & Hcb & _ & _ & _ & _ & Hact).
  - vm_compute. reflexivity.
  - vm_compute. repeat constructor.
  - exists g'. auto.
Defined.

(** C8 (as stated) fails on the active seat: on a fresh table the dealer is
    seat 1, the seat two positions to its left is the big blind (seat 3) and
    the active seat is seat 4. *)
Lemma startNewHand_active_seat_counterexample :
  exists g', startNewHand rnd_id "hand-1" six_at_1000 = Ok tt g'
             /\ pot g' = 60 /\ currentBet g' = 40
             /\ dealerIndex g' = 1%nat /\ bigBlindIndex g' = 3%nat
             /\ ((dealerIndex g' + 2) mod 6)%nat = 3%nat
             /\ activePlayerIndex g' = 4%nat
             /\ activePlayerIndex g' <> ((dealerIndex g' + 2) mod 6)%nat.
Proof.
  eexists. split; [vm_compute; reflexivity|]. by_evaluation. discriminate.
Qed.

(** * One action *)

(** ** Dealing the board *)

Lemma deal_ok g :
  (0 < length (deck g))%nat ->
  exists c dk, deal g = Ok c (set_deck dk g) /\ length (deck g) = S (length dk).
Proof.
  intros H. destruct (pop_nonempty (deck g) H) as (c & dk & Hpop).
  exists c, dk. unfold deal, Deck.deal. rewrite Hpop. split; [reflexivity|].
  eapply pop_length. exact Hpop.
Qed.

Lemma pushCommunityCard_ok g :
  (0 < length (deck g))%nat ->
  exists c dk,
    pushCommunityCard g = Ok tt (set_communityCards (communityCards g ++ [c]) (set_deck dk g))
    /\ length (deck g) = S (length dk).
Proof.
  intros H. destruct (deal_ok g H) as (c & dk & Hd & Hl).
  exists c, dk. unfold pushCommunityCard, bind. rewrite Hd. split; [reflexivity|exact Hl].
Qed.

Lemma dealFlop_ok g :
  (4 <= length (deck g))%nat ->
  exists dk cs lg ga,
    dealFlop g = Ok tt (dealt dk (communityCards g ++ cs) lg ga g)
    /\ length (deck g) = (length dk + 4)%nat /\ length cs = 3%nat.
Proof.
  intros H. unfold dealFlop.
  destruct (deal_ok g) as (c0 & d0 & E0 & L0); [lia|].
  unfold bind at 1. rewrite E0. cbn [for_each seq].
  destruct (pushCommunityCard_ok (set_deck d0 g)) as (c1 & d1 & E1 & L1); [fields; lia|].
  unfold bind at 1. unfold bind at 1. rewrite E1. fields in L1.
  destruct (pushCommunityCard_ok
              (set_communityCards (communityCards (set_deck d0 g) ++ [c1])
                 (set_deck d1 (set_deck d0 g)))) as (c2 & d2 & E2 & L2); [fields; lia|].
  unfold bind at 1. rewrite E2. fields in L2.
  match type of E2 with _ = Ok tt ?s =>
    destruct (pushCommunityCard_ok s) as (c3 & d3 & E3 & L3); [fields; lia|]
  end.
  unfold bind at 1. rewrite E3. fields in L3.
  unfold bind, ret, gets, logAction, pushGameAction, modify.
  eexists d3, [c1; c2; c3], _, _. split; [|split; [lia|reflexivity]].
  unfold dealt. fields. rewrite <- !app_assoc. reflexivity.
Qed.

Lemma dealTurn_ok g :
  (2 <= length (deck g))%nat -> (3 <= length (communityCards g))%nat ->
  exists dk cs lg ga,
    dealTurn g = Ok tt (dealt dk (communityCards g ++ cs) lg ga g)
    /\ length (deck g) = (length dk + 2)%nat /\ length cs = 1%nat.
Proof.
  intros H Hcc. unfold dealTurn.
  destruct (deal_ok g) as (c0 & d0 & E0 & L0); [lia|].
  unfold bind at 1. rewrite E0.
  destruct (pushCommunityCard_ok (set_deck d0 g)) as (c1 & d1 & E1 & L1); [fields; lia|].
  unfold bind at 1. rewrite E1. fields in L1.
  unfold bind at 1. unfold gets at 1. fields.
  destruct (lookup_lt_is_Some_2 (communityCards g ++ [c1]) 3) as [c Hc].
  { rewrite length_app. cbn. lia. }
  rewrite Hc. unfold bind, logAction, pushGameAction, modify.
  eexists d1, [c1], _, _. split; [|split; [lia|reflexivity]]. reflexivity.
Qed.

Lemma dealRiver_ok g :
  (2 <= length (deck g))%nat -> (4 <= length (communityCards g))%nat ->
  exists dk cs lg ga,
    dealRiver g = Ok tt (dealt dk (communityCards g ++ cs) lg ga g)
    /\ length (deck g) = (length dk + 2)%nat /\ length cs = 1%nat.
Proof.
  intros H Hcc. unfold dealRiver.
  destruct (deal_ok g) as (c0 & d0 & E0 & L0); [lia|].
  unfold bind at 1. rewrite E0.
  destruct (pushCommunityCard_ok (set_deck d0 g)) as (c1 & d1 & E1 & L1); [fields; lia|].
  unfold bind at 1. rewrite E1. fields in L1.
  unfold bind at 1. unfold gets at 1. fields.
  destruct (lookup_lt_is_Some_2 (communityCards g ++ [c1]) 4) as [c Hc].
  { rewrite length_app. cbn. lia. }
  rewrite Hc. unfold bind, logAction, pushGameAction, modify.
  eexists d1, [c1], _, _. split; [|split; [lia|reflexivity]]. reflexivity.
Qed.

(** ** Settlement *)

Lemma filter_refs_from_spec {X} (f : X -> bool) base (l : list X) i :
  In i (filter_refs_from f base l) <->
  exists j x, i = (base + j)%nat /\ l !! j = Some x /\ f x = true.
Proof.
  revert base. induction l as [|a l IH]; intros base; cbn [filter_refs_from].
  - split; [intros []|]. intros (j & x & _ & H & _). destruct j; discriminate.
  - destruct (f a) eqn:Hfa; cbn [In]; rewrite IH; split.
    + intros [<-|(j & x & -> & Hj & Hx)].
      * exists 0%nat, a. rewrite Nat.add_0_r. auto.
      * exists (S j), x. split; [lia|]. auto.
    + intros ([|j] & x & -> & Hj & Hx).
      * left. lia.
      * right. exists j, x. split; [lia|]. auto.
    + intros (j & x & -> & Hj & Hx). exists (S j), x. split; [lia|]. auto.
    + intros ([|j] & x & -> & Hj & Hx).
      * cbn in Hj. injection Hj as <-. congruence.
      * exists j, x. split; [lia|]. auto.
Qed.

Lemma filter_refs_head {X} (f : X -> bool) (l : list X) w rest :
  filter_refs f l = w :: rest -> exists x, l !! w = Some x /\ f x = true.
Proof.
  intros H. assert (Hin : In w (filter_refs f l)) by (rewrite H; left; reflexivity).
  apply filter_refs_from_spec in Hin as (j & x & -> & Hj & Hx). eauto.
Qed.

Lemma processHandCompletion_shape g refs :
  filter_refs unfolded (players g) = refs ->
  match refs with
  | [] => processHandCompletion g = Throw TypeError g
  | w :: _ =>
      exists winner lg,
        players g !! w = Some winner /\ Player.hasFolded winner = false
        /\ processHandCompletion g = Ok tt (paid w winner lg g)
  end.
Proof.
  intros Hrefs.
  destruct refs as [|w rest];
    unfold processHandCompletion; unfold bind at 1; unfold gets at 1; cbn beta;
    change (fun p => negb (Player.hasFolded p)) with unfolded; rewrite Hrefs.
  - reflexivity.
  - destruct (filter_refs_head _ _ _ _ Hrefs) as (winner & Hw & Hf).
    exists winner. change ((w :: rest) !! 0%nat) with (Some w). cbn iota.
    assert (Hnf : Player.hasFolded winner = false).
    { unfold unfolded in Hf. now destruct (Player.hasFolded winner). }
    destruct (length (w :: rest) =? 1)%nat;
      unfold bind, getPlayer, gets, setPlayer, logAction, modify; rewrite Hw;
      eexists; (split; [reflexivity|]); (split; [exact Hnf|]); reflexivity.
Qed.

(** ** advanceToNextPhase *)

Lemma filter_refs_from_clearStreet base ps :
  filter_refs_from unfolded base (map clearStreet ps) = filter_refs_from unfolded base ps.
Proof.
  revert base. induction ps as [|p ps IH]; intros base; cbn [map filter_refs_from].
  - reflexivity.
  - change (unfolded (clearStreet p)) with (unfolded p). now rewrite !IH.
Qed.

Lemma filter_refs_clearStreet ps :
  filter_refs unfolded (map clearStreet ps) = filter_refs unfolded ps.
Proof. apply filter_refs_from_clearStreet. Qed.

Lemma length_map_clearStreet ps : length (map clearStreet ps) = length ps.
Proof. apply length_map. Qed.

(** After a street is dealt: the active seat is recomputed and logged. *)
Lemma resume_street_ok g :
  length (players g) = 6%nat ->
  exists k lg,
    (k < 6)%nat
    /\ (setActivePlayer ;;
        let! a := gets activePlayerIndex in
        let! pa := getPlayer a in
        logAction ("Action to " +++ Player.name pa)) g
       = Ok tt (set_actionLog lg (set_activePlayerIndex k g)).
Proof.
  intros Hlen. destruct (setActivePlayer_ok g Hlen) as (k & Hk & Hr & _).
  unfold bind at 1. rewrite Hr. unfold bind, gets, getPlayer. fields.
  destruct (lookup_lt_6 (players g) k Hlen Hk) as [pk ->].
  exists k. eexists. split; [exact Hk|]. reflexivity.
Qed.

Lemma advanceToNextPhase_shape g :
  length (players g) = 6%nat -> dealable g ->
  advance_result g (advanceToNextPhase g).
Proof.
  intros Hlen Hdeal.
  assert (Hl0 : length (players (street_cleared g)) = 6%nat).
  { unfold street_cleared. fields. now rewrite length_map_clearStreet. }
  assert (Hrun : advanceToNextPhase g =
    (let! ps := gets players in
     let activePlayers := filter_refs unfolded ps in
     if (length activePlayers <=? 1)%nat
     then modify (set_phase FINISHED) ;; processHandCompletion
     else
       let! ph := gets phase in
       let! fallsThrough :=
         match ph with
         | PREFLOP => dealFlop ;; modify (set_phase FLOP) ;; ret true
         | FLOP => dealTurn ;; modify (set_phase TURN) ;; ret true
         | TURN => dealRiver ;; modify (set_phase RIVER) ;; ret true
         | RIVER => modify (set_phase SHOWDOWN) ;; processShowdown ;; ret false
         | _ => ret true
         end in
       if fallsThrough
       then setActivePlayer ;;
            let! a := gets activePlayerIndex in
            let! pa := getPlayer a in
            logAction ("Action to " +++ Player.name pa)
       else ret tt) (street_cleared g)) by reflexivity.
  rewrite Hrun. clear Hrun. unfold bind at 1. unfold gets at 1. cbv zeta.
  change (players (street_cleared g)) with (map clearStreet (players g)).
  rewrite filter_refs_clearStreet.
  destruct (filter_refs unfolded (players g)) as [|w rest] eqn:Hrefs.
  - (* nobody left *)
    cbn [length Nat.leb]. unfold bind, modify.
    rewrite (processHandCompletion_shape _ [])
      by (fields; unfold street_cleared; fields; now rewrite filter_refs_clearStreet).
    now apply adv_nobody.
  - destruct rest as [|w' rest].
    + (* a single seat left *)
      cbn [length Nat.leb]. unfold bind, modify.
      pose proof (processHandCompletion_shape (set_phase FINISHED (street_cleared g)) [w])
        as Hc.
      destruct Hc as (winner & lg & Hw & _ & Hr).
      { fields. unfold street_cleared. fields. now rewrite filter_refs_clearStreet. }
      rewrite Hr. eapply (adv_settled g w [] winner lg); eauto.
    + (* at least two seats left *)
      change (length (w :: w' :: rest) <=? 1)%nat with false. cbn iota.
      unfold bind at 1. unfold gets at 1.
      change (phase (street_cleared g)) with (phase g).
      unfold dealable in Hdeal.
      destruct (phase g) eqn:Hph.
      * destruct (resume_street_ok (street_cleared g) Hl0) as (k & lg & Hk & Hr).
        unfold bind at 1. unfold ret at 1. cbn iota. rewrite Hr.
        change (advance_result g
                  (Ok tt (set_activePlayerIndex k (set_actionLog lg (street_cleared g))))).
        apply adv_idle; rewrite ?Hrefs, ?Hph; cbn; auto; try lia; discriminate.
      * destruct (dealFlop_ok (street_cleared g)) as (dk & cs & lg & ga & Hd & Hdk & Hcs);
          [exact Hdeal|].
        unfold bind at 1. unfold bind at 1. rewrite Hd.
        unfold bind at 1. unfold modify at 1. unfold ret at 1. cbn iota.
        match goal with |- context [bind setActivePlayer _ ?s] =>
          destruct (resume_street_ok s) as (k & lg' & Hk & Hr); [exact Hl0|]; rewrite Hr end.
        change (advance_result g
                  (Ok tt (set_activePlayerIndex k
                            (set_phase FLOP (dealt dk (communityCards g ++ cs) lg' ga
                                             (street_cleared g)))))).
        apply (adv_street g FLOP 3 k dk cs lg' ga); rewrite ?Hrefs, ?Hph; cbn; auto; lia.
      * destruct Hdeal as [Hdeal Hcc].
        destruct (dealTurn_ok (street_cleared g)) as (dk & cs & lg & ga & Hd & Hdk & Hcs);
          [exact Hdeal|exact Hcc|].
        unfold bind at 1. unfold bind at 1. rewrite Hd.
        unfold bind at 1. unfold modify at 1. unfold ret at 1. cbn iota.
        match goal with |- context [bind setActivePlayer _ ?s] =>
          destruct (resume_street_ok s) as (k & lg' & Hk & Hr); [exact Hl0|]; rewrite Hr end.
        change (advance_result g
                  (Ok tt (set_activePlayerIndex k
                            (set_phase TURN (dealt dk (communityCards g ++ cs) lg' ga
                                             (street_cleared g)))))).
        apply (adv_street g TURN 1 k dk cs lg' ga); rewrite ?Hrefs, ?Hph; cbn; auto; lia.
      * destruct Hdeal as [Hdeal Hcc].
        destruct (dealRiver_ok (street_cleared g)) as (dk & cs & lg & ga & Hd & Hdk & Hcs);
          [exact Hdeal|exact Hcc|].
        unfold bind at 1. unfold bind at 1. rewrite Hd.
        unfold bind at 1. unfold modify at 1. unfold ret at 1. cbn iota.
        match goal with |- context [bind setActivePlayer _ ?s] =>
          destruct (resume_street_ok s) as (k & lg' & Hk & Hr); [exact Hl0|]; rewrite Hr end.
        change (advance_result g
                  (Ok tt (set_activePlayerIndex k
                            (set_phase RIVER (dealt dk (communityCards g ++ cs) lg' ga
                                             (street_cleared g)))))).
        apply (adv_street g RIVER 1 k dk cs lg' ga); rewrite ?Hrefs, ?Hph; cbn; auto; lia.
      * (* river: showdown *)
        unfold bind at 1. unfold bind at 1. unfold modify at 1.
        unfold bind at 1. unfold processShowdown. unfold bind at 1. unfold logAction at 1.
        unfold modify at 1.
        match goal with |- context [processHandCompletion ?s] =>
          pose proof (processHandCompletion_shape s (w :: w' :: rest)) as Hc end.
        destruct Hc as (winner & lg & Hw & _ & Hr).
        { fields. unfold street_cleared. fields. now rewrite filter_refs_clearStreet. }
        rewrite Hr. unfold ret. cbn iota.
        eapply (adv_settled g w (w' :: rest) winner lg); eauto.
      * destruct (resume_street_ok (street_cleared g) Hl0) as (k & lg & Hk & Hr).
        unfold bind at 1. unfold ret at 1. cbn iota. rewrite Hr.
        change (advance_result g
                  (Ok tt (set_activePlayerIndex k (set_actionLog lg (street_cleared g))))).
        apply adv_idle; rewrite ?Hrefs, ?Hph; cbn; auto; try lia; discriminate.
      * destruct (resume_street_ok (street_cleared g) Hl0) as (k & lg & Hk & Hr).
        unfold bind at 1. unfold ret at 1. cbn iota. rewrite Hr.
        change (advance_result g
                  (Ok tt (set_activePlayerIndex k (set_actionLog lg (street_cleared g))))).
        apply adv_idle; rewrite ?Hrefs, ?Hph; cbn; auto; try lia; discriminate.
Qed.

(** ** processAction *)

Lemma processAction_unfold action amount g :
  processAction action amount g =
  match players g !! activePlayerIndex g with
  | None => Ok false g
  | Some player =>
      if negb (Player.canAct player) then Ok false g
      else
        match applyAction (activePlayerIndex g) player action amount (marked g) with
        | Ok None g1 => Ok false g1
        | Ok (Some (actionAmount, actionDescription, shortAction)) g1 =>
            settle (activePlayerIndex g) actionAmount actionDescription shortAction g1
        | Throw e g1 => Throw e g1
        end
  end.
Proof.
  unfold processAction. unfold bind at 1. unfold gets at 1.
  unfold bind at 1. unfold gets at 1.
  destruct (players g !! activePlayerIndex g) as [player|]; [|reflexivity].
  destruct (negb (Player.canAct player)); [reflexivity|].
  unfold bind at 1.
  assert (Hm : (let! first := gets isFirstAction in
                if first then modify (set_isFirstAction false) else ret tt) g
               = Ok tt (marked g)).
  { unfold bind, gets, marked. destruct (isFirstAction g); reflexivity. }
  rewrite Hm. unfold bind at 1.
  destruct (applyAction (activePlayerIndex g) player action amount (marked g))
    as [[[[a d] s]|] g1|e g1]; reflexivity.
Qed.

Lemma isBettingRoundComplete_pure g : exists b, isBettingRoundComplete g = Ok b g.
Proof.
  unfold isBettingRoundComplete, bind, gets.
  repeat match goal with
         | |- context [if ?b then _ else _] => destruct b
         end; eexists; reflexivity.
Qed.

Lemma moveToNextPlayer_ok g :
  length (players g) = 6%nat ->
  exists k, (k < 6)%nat /\ moveToNextPlayer g = Ok tt (set_activePlayerIndex k g).
Proof.
  intros Hlen. unfold moveToNextPlayer, bind, modify.
  destruct (findNextActivePlayer_ok
              (set_activePlayerIndex ((activePlayerIndex g + 1) mod 6) g) Hlen (mod6_lt _))
    as (k & Hk & Hr).
  exists k. split; [exact Hk|]. rewrite Hr. reflexivity.
Qed.

Lemma settle_shape idx a d s g :
  length (players g) = 6%nat ->
  exists k lg ga complete,
    (k < 6)%nat
    /\ isBettingRoundComplete (moved k lg ga g) = Ok complete (moved k lg ga g)
    /\ settle idx a d s g =
       if complete
       then match advanceToNextPhase (moved k lg ga g) with
            | Ok _ g' => Ok true g'
            | Throw e g' => Throw e g'
            end
       else Ok true (moved k lg ga g).
Proof.
  intros Hlen. unfold settle.
  unfold bind at 1. unfold logAction at 1. unfold modify at 1.
  unfold bind at 1. unfold gets at 1. unfold bind at 1. unfold pushGameAction at 1.
  unfold modify at 1.
  match goal with |- context [bind moveToNextPlayer _ ?s0] =>
    destruct (moveToNextPlayer_ok s0 Hlen) as (k & Hk & Hr);
    unfold bind at 1; rewrite Hr;
    match type of Hr with _ = Ok tt ?s1 =>
      destruct (isBettingRoundComplete_pure s1) as [complete Hc];
      exists k, (actionLog s0), (gameActions s0), complete
    end
  end.
  split; [exact Hk|]. split; [exact Hc|].
  unfold bind at 1. rewrite Hc. destruct complete.
  - unfold bind, ret. destruct (advanceToNextPhase _); reflexivity.
  - reflexivity.
Qed.

(** ** The switch of processAction *)

Lemma bet_applied_players_only idx p' g :
  set_players (<[idx := p']> (players g)) g = bet_applied idx p' 0 (currentBet g) g.
Proof. unfold bet_applied. destruct g. cbn. now rewrite Z.add_0_r. Qed.

Lemma bet_applied_pot_only idx p' delta g :
  set_pot (pot g + delta) (set_players (<[idx := p']> (players g)) g)
  = bet_applied idx p' delta (currentBet g) g.
Proof. unfold bet_applied. destruct g. reflexivity. Qed.

Lemma amount_missing_false amount :
  amount_missing amount = false -> exists a, amount = Some a /\ a <> 0.
Proof.
  destruct amount as [a|]; cbn; [|discriminate].
  intros H. exists a. split; [reflexivity|]. now apply Z.eqb_neq.
Qed.

Lemma applyAction_shape idx p action amount g :
  (refused (currentBet g) p action amount
   /\ applyAction idx p action amount g = Ok None g)
  \/ (exists p' delta cb d s,
        accepted (currentBet g) p action amount p' delta cb
        /\ applyAction idx p action amount g
           = Ok (Some (delta, d, s)) (bet_applied idx p' delta cb g)).
Proof.
  unfold applyAction, bind, gets. cbn beta iota.
  destruct action.
  - (* FOLD *)
    right. unfold bind, setPlayer, modify, ret. cbn beta. rewrite bet_applied_players_only.
    do 5 eexists. split; [apply acc_fold|reflexivity].
  - (* CHECK *)
    destruct (Z.ltb_spec 0 (currentBet g - Player.currentBet p)).
    + left. split; [now apply ref_check|reflexivity].
    + right. unfold bind, setPlayer, modify, ret. cbn beta. rewrite bet_applied_players_only.
      do 5 eexists. split; [now apply acc_check|reflexivity].
  - (* CALL *)
    destruct (Z.leb_spec (currentBet g - Player.currentBet p) 0).
    + left. split; [now apply ref_call|reflexivity].
    + right.
      destruct (Player.call (currentBet g - Player.currentBet p) p) as [a p'] eqn:Hc.
      unfold bind, setPlayer, modify, ret. fields. rewrite bet_applied_pot_only.
      exists p', a, (currentBet g). do 2 eexists. split; [|reflexivity].
      replace p' with (snd (Player.call (currentBet g - Player.currentBet p) p))
        by now rewrite Hc.
      replace a with (fst (Player.call (currentBet g - Player.currentBet p) p))
        by now rewrite Hc.
      now apply acc_call.
  - (* BET *)
    destruct (Z.ltb_spec 0 (currentBet g)).
    + left. split; [now apply ref_bet_level|reflexivity].
    + destruct (amount_missing amount) eqn:Hm; cbn [orb].
      * left. split; [apply ref_bet_amount; auto|reflexivity].
      * destruct (Z.ltb_spec (amount_value amount) BIG_BLIND).
        -- left. split; [apply ref_bet_amount; auto|reflexivity].
        -- right. destruct (amount_missing_false _ Hm) as (a & -> & Ha).
           change (amount_value (Some a)) with a in *.
           destruct (Player.bet a p) as [x p'] eqn:Hb.
           unfold bind, setPlayer, modify, ret. fields.
           exists p', x, (Player.currentBet p'). do 2 eexists. split; [|reflexivity].
           replace p' with (snd (Player.bet a p)) by now rewrite Hb.
           replace x with (fst (Player.bet a p)) by now rewrite Hb.
           now apply acc_bet.
  - (* RAISE *)
    destruct (Z.eqb_spec (currentBet g) 0).
    + left. split; [now apply ref_raise_level|reflexivity].
    + destruct (amount_missing amount) eqn:Hm; cbn [orb].
      * left. split; [apply ref_raise_amount; auto|reflexivity].
      * destruct (Z.leb_spec (amount_value amount) (currentBet g)).
        -- left. split; [apply ref_raise_amount; auto|reflexivity].
        -- right. destruct (amount_missing_false _ Hm) as (a & -> & Ha).
           change (amount_value (Some a)) with a in *.
           destruct (Player.bet (a - Player.currentBet p) p) as [x p'] eqn:Hb.
           unfold bind, setPlayer, modify, ret. fields.
           exists p', x, (Player.currentBet p'). do 2 eexists. split; [|reflexivity].
           replace p' with (snd (Player.bet (a - Player.currentBet p) p)) by now rewrite Hb.
           replace x with (fst (Player.bet (a - Player.currentBet p) p)) by now rewrite Hb.
           now apply acc_raise.
  - (* ALL_IN *)
    right. destruct (Player.allIn p) as [x p'] eqn:Hb.
    exists p', x,
      (if currentBet g <? Player.currentBet p' then Player.currentBet p' else currentBet g).
    do 2 eexists. split.
    + replace p' with (snd (Player.allIn p)) by now rewrite Hb.
      replace x with (fst (Player.allIn p)) by now rewrite Hb.
      apply acc_all_in.
    + unfold bind, setPlayer, modify, ret. fields.
      destruct (currentBet g <? Player.currentBet p').
      * reflexivity.
      * rewrite bet_applied_pot_only. reflexivity.
  - (* unknown *)
    left. split; [apply ref_unknown|reflexivity].
Qed.

(** ** What one call of processAction can do *)

Lemma marked_core g : core (marked g) = core g.
Proof. unfold marked. destruct (isFirstAction g); reflexivity. Qed.

Lemma marked_players g : players (marked g) = players g.
Proof. unfold marked. destruct (isFirstAction g); reflexivity. Qed.

Lemma marked_currentBet g : currentBet (marked g) = currentBet g.
Proof. unfold marked. destruct (isFirstAction g); reflexivity. Qed.

Lemma marked_phase g : phase (marked g) = phase g.
Proof. unfold marked. destruct (isFirstAction g); reflexivity. Qed.

Lemma marked_deck g : deck (marked g) = deck g.
Proof. unfold marked. destruct (isFirstAction g); reflexivity. Qed.

Lemma marked_communityCards g : communityCards (marked g) = communityCards g.
Proof. unfold marked. destruct (isFirstAction g); reflexivity. Qed.

Lemma marked_pot g : pot (marked g) = pot g.
Proof. unfold marked. destruct (isFirstAction g); reflexivity. Qed.

Lemma processAction_shape action amount g :
  length (players g) = 6%nat -> dealable g ->
  action_result action amount g (processAction action amount g).
Proof.
  intros Hlen Hdeal. rewrite processAction_unfold.
  destruct (players g !! activePlayerIndex g) as [p|] eqn:Hp; [|now apply res_no_seat].
  destruct (Player.canAct p) eqn:Hc; cbn [negb]; [|now apply (res_cannot_act _ _ _ p)].
  destruct (applyAction_shape (activePlayerIndex g) p action amount (marked g))
    as [[Href Heq]|(p' & delta & cb & d & s & Hacc & Heq)];
    rewrite Heq; rewrite marked_currentBet in *.
  - now apply (res_refused _ _ _ p).
  - set (g2 := bet_applied (activePlayerIndex g) p' delta cb (marked g)).
    assert (Hl2 : length (players g2) = 6%nat).
    { unfold g2, bet_applied. fields. now rewrite length_insert, marked_players. }
    destruct (settle_shape (activePlayerIndex g) delta d s g2 Hl2)
      as (k & lg & ga & complete & Hk & Hcomp & Hsettle).
    rewrite Hsettle. destruct complete.
    + change (match advanceToNextPhase (moved k lg ga g2) with
              | Ok _ g' => Ok true g'
              | Throw e g' => Throw e g'
              end) with (lift_advance (advanceToNextPhase (moved k lg ga g2))).
      apply (res_advance _ _ _ p p' delta cb k lg ga); auto.
      apply advanceToNextPhase_shape.
      * exact Hl2.
      * unfold dealable in *. unfold moved, g2, bet_applied. fields.
        now rewrite marked_phase, marked_deck, marked_communityCards.
    + now apply (res_continue _ _ _ p p' delta cb k lg ga).
Qed.

(** ** setPlayerStacks *)

Lemma setPlayerStacks_shape stacks g :
  length (players g) = 6%nat ->
  (length stacks <> 6%nat /\ setPlayerStacks stacks g = Throw InvalidStackCount g)
  \/ (length stacks = 6%nat
      /\ setPlayerStacks stacks g
         = Ok tt (set_players (restacked (players g) stacks) (set_initialStacks stacks g))).
Proof.
  intros Hlen. unfold setPlayerStacks.
  destruct (Nat.eqb_spec (length stacks) 6) as [Hs|Hs]; cbn [negb]; [right|left; auto].
  split; [exact Hs|].
  destruct stacks as [|s0 [|s1 [|s2 [|s3 [|s4 [|s5 [|]]]]]]]; try discriminate.
  destruct g as [dk ps cc pt cb ai di sbi bbi ph lg ga hid fa ist]. cbn [players] in Hlen.
  destruct ps as [|p0 [|p1 [|p2 [|p3 [|p4 [|p5 [|]]]]]]]; try discriminate.
  reflexivity.
Qed.

Lemma restacked_length ps stacks :
  length ps = length stacks -> length (restacked ps stacks) = length ps.
Proof. intros H. unfold restacked. rewrite length_zip_with. lia. Qed.

Lemma restacked_stacks ps stacks :
  length ps = length stacks -> map Player.stack (restacked ps stacks) = stacks.
Proof.
  revert stacks. induction ps as [|p ps IH]; intros [|s stacks] H; try discriminate.
  - reflexivity.
  - cbn. f_equal. apply IH. now injection H.
Qed.

Lemma restacked_street ps stacks :
  length ps = length stacks -> street_total (restacked ps stacks) = street_total ps.
Proof.
  unfold street_total.
  revert stacks. induction ps as [|p ps IH]; intros [|s stacks] H; try discriminate.
  - reflexivity.
  - cbn. f_equal. apply IH. now injection H.
Qed.

(** * Well-formed tables *)

Lemma table_ok_dealable g : table_ok g -> dealable g.
Proof. unfold table_ok, dealable. destruct (phase g); intros; try exact I; lia. Qed.

Lemma table_ok_phase_cards g : table_ok g -> phase_cards_ok g.
Proof. unfold table_ok, phase_cards_ok. destruct (phase g); tauto. Qed.

Lemma table_ok_board g : table_ok g -> In (length (communityCards g)) [0; 3; 4; 5]%nat.
Proof.
  unfold table_ok. destruct (phase g); cbn; intros H; try tauto;
    try (rewrite (proj1 H); tauto); rewrite H; tauto.
Qed.

Lemma table_ok_ext g g' :
  phase g' = phase g -> communityCards g' = communityCards g -> deck g' = deck g ->
  table_ok g -> table_ok g'.
Proof. unfold table_ok. now intros -> -> ->. Qed.

Lemma advance_well_formed g r :
  well_formed g -> advance_result g r -> well_formed (state_of r).
Proof.
  intros [Hlen Hok] Hr. pose proof (table_ok_board g Hok) as Hboard.
  destruct Hr as [Hrefs | w rest winner lg Hrefs Hwhy Hw
                 | ph n k dk cs lg ga Hrefs Hnext Hdk Hcs Hk
                 | k lg Hrefs Hnext Hnr Hk]; cbn [state_of].
  - split.
    + unfold street_cleared. fields. now rewrite length_map_clearStreet.
    + unfold table_ok, street_cleared. fields. exact Hboard.
  - split.
    + unfold paid, street_cleared. fields.
      now rewrite length_insert, length_map_clearStreet.
    + unfold table_ok, paid, street_cleared. fields. exact Hboard.
  - split.
    + unfold dealt, street_cleared. fields. now rewrite length_map_clearStreet.
    + unfold table_ok in *. unfold dealt, street_cleared. fields.
      rewrite length_app, Hcs.
      destruct (phase g); try discriminate; injection Hnext as <- <-; lia.
  - split.
    + unfold street_cleared. fields. now rewrite length_map_clearStreet.
    + unfold table_ok in *. unfold street_cleared. fields. exact Hok.
Qed.

Lemma processAction_well_formed action amount g :
  well_formed g -> well_formed (state_of (processAction action amount g)).
Proof.
  intros [Hlen Hok].
  pose proof (processAction_shape action amount g Hlen (table_ok_dealable g Hok)) as Hr.
  assert (Hm : well_formed (marked g)).
  { split; [now rewrite marked_players|].
    eapply table_ok_ext; [apply marked_phase|apply marked_communityCards
                         |apply marked_deck|exact Hok]. }
  destruct Hr as [Hp | p Hp Hc | p Hp Hc Href
                 | p p' delta cb k lg ga Hp Hc Hacc Hk g3 Hcomp
                 | p p' delta cb k lg ga adv Hp Hc Hacc Hk g3 Hcomp Hadv]; cbn [state_of];
    try (split; assumption); try exact Hm.
  - destruct Hm as [Hlm Hokm]. split.
    + unfold g3, moved, bet_applied. fields. now rewrite length_insert.
    + eapply table_ok_ext; [| | |exact Hokm]; reflexivity.
  - replace (state_of (lift_advance adv)) with (state_of adv) by now destruct adv.
    apply (advance_well_formed g3); [|exact Hadv].
    destruct Hm as [Hlm Hokm]. split.
    + unfold g3, moved, bet_applied. fields. now rewrite length_insert.
    + eapply table_ok_ext; [| | |exact Hokm]; reflexivity.
Qed.

Lemma startNewHand_well_formed rnd uuid g :
  well_formed g -> well_formed (state_of (startNewHand rnd uuid g)).
Proof.
  intros [Hlen Hok].
  destruct (Nat.eq_dec (seats_with_chips (players g)) 0%nat) as [Hz|Hnz].
  - apply seats_with_chips_zero in Hz.
    rewrite (startNewHand_broke rnd uuid g) by (try rewrite Hlen; auto; lia).
    cbn [state_of]. split.
    + unfold cleared. fields. now rewrite length_map_reset.
    + reflexivity.
  - assert (Hex : Exists (fun p => Player.stack p <> 0) (players g)).
    { apply seats_with_chips_pos. lia. }
    destruct (startNewHand_funded rnd uuid g Hlen Hex) as (g' & Heq & Hst).
    rewrite Heq. cbn [state_of].
    destruct Hst as (cards & d & sb & bb & g2 & _ & _ & _ & _ & _ & _ & _ & _ & _ & _
                     & _ & _ & _ & Hph & Hcc & Hdk & _ & _ & Hl).
    split; [exact Hl|]. unfold table_ok. rewrite Hph, Hcc, Hdk. cbn. lia.
Qed.

Lemma setPlayerStacks_well_formed stacks g :
  well_formed g -> well_formed (state_of (setPlayerStacks stacks g)).
Proof.
  intros [Hlen Hok].
  destruct (setPlayerStacks_shape stacks g Hlen) as [[_ ->]|[Hs ->]]; cbn [state_of].
  - now split.
  - split.
    + fields. rewrite restacked_length; congruence.
    + eapply table_ok_ext; [| | |exact Hok]; reflexivity.
Qed.

Lemma new_well_formed rnd : well_formed (new rnd).
Proof. unfold new. generalize (Deck.reset rnd). intros cards. split; reflexivity. Qed.

Lemma step_well_formed okStacks g g' :
  well_formed g -> step okStacks g g' -> well_formed g'.
Proof.
  intros Hwf [stacks _|rnd uuid|action amount].
  - now apply setPlayerStacks_well_formed.
  - now apply startNewHand_well_formed.
  - now apply processAction_well_formed.
Qed.

Lemma reachable_well_formed okStacks g : reachable_with okStacks g -> well_formed g.
Proof.
  induction 1 as [rnd|g g' _ IH Hstep].
  - apply new_well_formed.
  - eapply step_well_formed; eauto.
Qed.

(** * Phase and community cards *)

Lemma play_reachable okStacks acts g :
  reachable_with okStacks g -> reachable_with okStacks (play acts g).
Proof.
  revert g. induction acts as [|[a amt] acts IH]; intros g Hg; cbn [play fold_left].
  - exact Hg.
  - apply IH. eapply reach_step; [exact Hg|]. apply step_processAction.
Qed.

(** C6 (as the code has it): in every state reached by calls of the public
    methods, the board has 0 cards in SETUP and PREFLOP, 3 in FLOP, 4 in
    TURN, 5 in RIVER and SHOWDOWN; in FINISHED it has the 0, 3, 4 or 5 cards
    of the street on which the hand ended. *)
Theorem phase_cards_consistency g : reachable g -> phase_cards_ok g.
Proof.
  intros Hg. apply table_ok_phase_cards.
  apply (reachable_well_formed (fun _ => True)). exact Hg.
Qed.

Lemma phase_cards_consistency_witness :
  phase on_the_flop = FLOP /\ phase_cards_ok on_the_flop.
Proof.
  split; [vm_compute; reflexivity|].
  apply phase_cards_consistency. apply play_reachable, table_reachable.
Defined.

(** C6 (as stated) fails: when all but one seat fold before the flop the
    hand is FINISHED with an empty board. *)
Lemma phase_cards_early_finish_counterexample :
  reachable folded_out
  /\ phase folded_out = FINISHED
  /\ length (communityCards folded_out) = 0%nat
  /\ length (communityCards folded_out) <> 5%nat.
Proof.
  split; [apply play_reachable, table_reachable|].
  by_evaluation. discriminate.
Qed.

(** * Chip conservation *)

Lemma bet_committed amount p :
  fst (Player.bet amount p) = Z.min amount (Player.stack p).
Proof. reflexivity. Qed.

Lemma bet_stack amount p :
  Player.stack (snd (Player.bet amount p)) = Player.stack p - Z.min amount (Player.stack p).
Proof. unfold Player.bet. cbn. destruct (_ =? 0); reflexivity. Qed.

Lemma bet_currentBet amount p :
  Player.currentBet (snd (Player.bet amount p))
  = Player.currentBet p + Z.min amount (Player.stack p).
Proof. unfold Player.bet. cbn. destruct (_ =? 0); reflexivity. Qed.

Lemma bet_hasFolded amount p :
  Player.hasFolded (snd (Player.bet amount p)) = Player.hasFolded p.
Proof. unfold Player.bet. cbn. destruct (_ =? 0); reflexivity. Qed.


Lemma accepted_moves_chips tableBet p action amount p' delta cb :
  accepted tableBet p action amount p' delta cb ->
  Player.stack p' = Player.stack p - delta
  /\ Player.currentBet p' = Player.currentBet p + delta.
Proof.
  intros H; destruct H; unfold Player.call, Player.allIn; cbn [fst snd];
    rewrite ?bet_stack, ?bet_currentBet, ?bet_committed;
    cbn [Player.fold Player.check Player.stack Player.currentBet
         Player.set_hasActed Player.set_hasFolded]; lia.
Qed.

Lemma stacks_total_clearStreet ps : stacks_total (map clearStreet ps) = stacks_total ps.
Proof.
  unfold stacks_total. induction ps as [|p ps IH]; cbn; [reflexivity|]. now rewrite IH.
Qed.

Lemma stacks_total_reset ps : stacks_total (map Player.reset ps) = stacks_total ps.
Proof.
  unfold stacks_total. induction ps as [|p ps IH]; cbn; [reflexivity|]. now rewrite IH.
Qed.

Lemma stacks_total_chips_view ps : stacks_total (chips_view ps) = stacks_total ps.
Proof.
  unfold stacks_total, chips_view. induction ps as [|p ps IH]; cbn; [reflexivity|].
  now rewrite IH.
Qed.

Lemma postBlinds_conserves g g2 :
  postBlinds g = Ok tt g2 ->
  pot g2 + stacks_total (players g2) = pot g + stacks_total (players g).
Proof.
  intros H.
  assert (Hsb : (smallBlindIndex g < length (players g))%nat).
  { apply lookup_lt_is_Some. destruct (players g !! smallBlindIndex g) eqn:E; [eauto|].
    unfold postBlinds, bind, gets, getPlayer in H. rewrite E in H. discriminate. }
  assert (Hbb : (bigBlindIndex g < length (players g))%nat).
  { destruct (players g !! smallBlindIndex g) as [p|] eqn:E.
    2:{ apply lookup_ge_None in E. lia. }
    destruct (lt_dec (bigBlindIndex g) (length (players g))) as [|Hge]; [assumption|].
    exfalso. unfold postBlinds, bind, gets, getPlayer in H. rewrite E in H.
    destruct (Player.bet SMALL_BLIND p) as [a p'].
    unfold setPlayer, modify in H. fields in H.
    rewrite (proj2 (lookup_ge_None _ _)) in H; [discriminate|].
    rewrite length_insert. lia. }
  destruct (postBlinds_ok g Hsb Hbb) as (p & q & Hp & Hq & Heq).
  rewrite Heq in H. apply Ok_inj in H as [_ <-]. fields.
  rewrite (stacks_total_insert _ _ q) by exact Hq.
  rewrite (stacks_total_insert _ _ p) by exact Hp.
  rewrite !bet_stack, !bet_committed. lia.
Qed.

Lemma started_conserves uuid g g' :
  started uuid g g' ->
  pot g' + stacks_total (players g') = stacks_total (players g).
Proof.
  intros (cards & d & sb & bb & g2 & _ & _ & _ & Hblinds & Hview & Hpot & _).
  rewrite Hpot, <- (stacks_total_chips_view (players g')), Hview, stacks_total_chips_view.
  rewrite (postBlinds_conserves _ _ Hblinds).
  unfold seated, cleared. fields. rewrite stacks_total_reset. lia.
Qed.

Lemma hand_inv_action stacks action amount g g' :
  hand_inv stacks g -> phase g <> FINISHED ->
  processAction action amount g = Ok true g' ->
  hand_inv stacks g'.
Proof.
  intros [Hwf [[Hph Hsum]|[Hfin _]]] Hnf Hrun; [|contradiction].
  split.
  { replace g' with (state_of (processAction action amount g)) by now rewrite Hrun.
    now apply processAction_well_formed. }
  destruct Hwf as [Hlen Hok].
  pose proof (processAction_shape action amount g Hlen (table_ok_dealable g Hok)) as Hr.
  rewrite Hrun in Hr.
  remember (Ok true g') as r eqn:Hreq.
  destruct Hr as [Hp | p Hp Hc | p Hp Hc Href
                 | p p' delta cb k lg ga Hp Hc Hacc Hk g3 Hcomp
                 | p p' delta cb k lg ga adv Hp Hc Hacc Hk g3 Hcomp Hadv];
    try discriminate.
  - (* the round goes on *)
    injection Hreq as <-. left. unfold g3, moved, bet_applied. fields.
    rewrite marked_phase, marked_pot, marked_players. split; [exact Hph|].
    rewrite (stacks_total_insert _ _ p) by exact Hp.
    destruct (accepted_moves_chips _ _ _ _ _ _ _ Hacc) as [-> _]. lia.
  - (* the round is complete *)
    assert (Hg3 : phase g3 = phase g /\ pot g3 + stacks_total (players g3) = sumZ stacks).
    { unfold g3, moved, bet_applied. fields.
      rewrite marked_phase, marked_pot, marked_players. split; [reflexivity|].
      rewrite (stacks_total_insert _ _ p) by exact Hp.
      destruct (accepted_moves_chips _ _ _ _ _ _ _ Hacc) as [-> _]. lia. }
    destruct Hg3 as [Hph3 Hsum3].
    destruct Hadv as [Hrefs | w rest winner lg' Hrefs Hwhy Hw
                     | ph n k' dk cs lg' ga' Hrefs Hnext Hdk Hcs Hk'
                     | k' lg' Hrefs Hnext Hnr Hk']; cbn [lift_advance] in Hreq;
      try discriminate; injection Hreq as <-.
    + right. unfold paid, street_cleared. fields. split; [reflexivity|].
      rewrite (stacks_total_insert _ _ winner) by exact Hw.
      rewrite stacks_total_clearStreet. cbn [Player.stack Player.set_stack]. lia.
    + left. unfold dealt, street_cleared. fields. rewrite stacks_total_clearStreet.
      split; [|exact Hsum3].
      rewrite Hph3 in Hnext. destruct (phase g); try discriminate;
        injection Hnext as <- _; reflexivity.
    + exfalso. rewrite Hph3 in Hnext, Hnr.
      destruct (phase g); try discriminate; congruence.
Qed.

Lemma in_hand_inv stacks g : in_hand stacks g -> hand_inv stacks g.
Proof.
  induction 1 as [g0 g1 rnd uuid g Hreach Hset Hstart | g action amount g' _ IH Hnf Hrun].
  - pose proof (reachable_well_formed _ _ Hreach) as [Hlen0 Hok0].
    destruct (setPlayerStacks_shape stacks g0 Hlen0) as [[_ Hthrow]|[Hs Heq]];
      [rewrite Hthrow in Hset; discriminate|].
    rewrite Heq in Hset. injection Hset as <-.
    match type of Hstart with startNewHand _ _ ?s = _ => set (g1 := s) in * end.
    assert (Hwf1 : well_formed g1).
    { replace g1 with (state_of (setPlayerStacks stacks g0)) by now rewrite Heq.
      apply setPlayerStacks_well_formed. now split. }
    assert (Hsum1 : stacks_total (players g1) = sumZ stacks).
    { unfold g1, stacks_total. fields. rewrite restacked_stacks; [reflexivity|congruence]. }
    split.
    { replace g with (state_of (startNewHand rnd uuid g1)) by now rewrite Hstart.
      now apply startNewHand_well_formed. }
    destruct Hwf1 as [Hlen1 _].
    destruct (Nat.eq_dec (seats_with_chips (players g1)) 0%nat) as [Hz|Hnz].
    { apply seats_with_chips_zero in Hz.
      rewrite (startNewHand_broke rnd uuid g1) in Hstart by (try rewrite Hlen1; auto; lia).
      discriminate. }
    assert (Hex : Exists (fun p => Player.stack p <> 0) (players g1)).
    { apply seats_with_chips_pos. lia. }
    destruct (startNewHand_funded rnd uuid g1 Hlen1 Hex) as (g'' & Heq' & Hst).
    rewrite Heq' in Hstart. injection Hstart as ->.
    left. split.
    + destruct Hst as (cards & d & sb & bb & g2 & _ & _ & _ & _ & _ & _ & _ & _ & _ & _
                       & _ & _ & _ & Hph & _). now rewrite Hph.
    + rewrite (started_conserves _ _ _ Hst). exact Hsum1.
  - eapply hand_inv_action; eauto.
Qed.

(** C1 (as the code has it): in a hand started with [setPlayerStacks] and
    [startNewHand], the stacks given being non-negative with a sum of at most
    2^53 (the range in which the source adds and subtracts chips exactly),
    after every accepted action that leaves the hand in progress, pot plus
    the six stacks equals the sum of the initial stacks; after the action that
    finishes the hand the six stacks alone sum to the initial stacks (the pot
    has been added to the winner's stack and the pot field keeps its
    amount). *)
Theorem chip_conservation stacks g :
  bounded_stacks stacks -> in_hand stacks g -> conserved stacks g.
Proof.
  intros _ H. destruct (in_hand_inv stacks g H) as [_ [[Hph Hsum]|[Hfin Hsum]]].
  - split; [intros _; exact Hsum|]. intros Hf. rewrite Hf in Hph. discriminate.
  - split; [intros Hnf; contradiction|]. intros _; exact Hsum.
Qed.

Lemma in_hand_play stacks acts g :
  in_hand stacks g -> accepted_run acts g = true -> in_hand stacks (play acts g).
Proof.
  revert g. induction acts as [|[a amt] acts IH]; intros g Hg Hrun; cbn [play fold_left].
  - exact Hg.
  - cbn [accepted_run fst snd] in Hrun. apply andb_prop in Hrun as [Hph Hrun].
    cbn [fst snd].
    destruct (processAction a amt g) as [[|] g'|] eqn:Heq; try discriminate.
    cbn [state_of]. apply IH; [|exact Hrun].
    eapply hand_action; [exact Hg| |exact Heq].
    intros Hf. rewrite Hf in Hph. discriminate.
Qed.

Lemma table_in_hand stacks :
  length stacks = 6%nat -> seats_with_chips (restacked initializePlayers stacks) <> 0%nat ->
  in_hand stacks (table stacks).
Proof.
  intros Hs Hfund. unfold table.
  pose proof (new_well_formed rnd_id) as [Hlen0 _].
  destruct (setPlayerStacks_shape stacks (new rnd_id) Hlen0) as [[Hne _]|[_ Heq]];
    [contradiction|].
  rewrite Heq. cbn [state_of].
  match goal with |- context [startNewHand _ _ ?s] => set (g1 := s) end.
  assert (Hl1 : length (players g1) = 6%nat).
  { unfold g1. fields. rewrite restacked_length; [exact Hlen0|congruence]. }
  destruct (startNewHand_funded rnd_id "hand-1" g1 Hl1) as (g' & Heq' & _).
  { apply seats_with_chips_pos. change (players g1) with (restacked initializePlayers stacks).
    lia. }
  rewrite Heq'. cbn [state_of].
  eapply (hand_started stacks (new rnd_id) g1 rnd_id "hand-1" g');
    [apply reach_new|exact Heq|exact Heq'].
Qed.

Lemma folded_out_in_hand : in_hand six_1000 folded_out.
Proof.
  apply in_hand_play.
  - apply table_in_hand; [reflexivity|vm_compute; discriminate].
  - vm_compute. reflexivity.
Qed.

Lemma six_1000_bounded : bounded_stacks six_1000.
Proof. split; [repeat constructor; lia|vm_compute; discriminate]. Qed.

Lemma chip_conservation_witness :
  phase on_the_flop <> FINISHED
  /\ pot on_the_flop + stacks_total (players on_the_flop) = sumZ six_1000.
Proof.
  assert (Hin : in_hand six_1000 on_the_flop).
  { apply in_hand_play.
    - apply table_in_hand; [reflexivity|vm_compute; discriminate].
    - vm_compute. reflexivity. }
  assert (Hph : phase on_the_flop <> FINISHED) by (vm_compute; discriminate).
  split; [exact Hph|].
  exact (proj1 (chip_conservation six_1000 on_the_flop six_1000_bounded Hin) Hph).
Defined.

(** C1 (as stated) fails at the action that finishes the hand: after the
    fifth fold the winner has been paid and the pot still reads 60. *)
Lemma chip_conservation_finish_counterexample :
  in_hand six_1000 folded_out
  /\ phase folded_out = FINISHED
  /\ pot folded_out = 60
  /\ stacks_total (players folded_out) = 6000
  /\ sumZ six_1000 = 6000
  /\ pot folded_out + stacks_total (players folded_out) <> sumZ six_1000.
Proof.
  split; [exact folded_out_in_hand|]. by_evaluation. discriminate.
Qed.

(** * Stacks never go negative *)

Lemma canAct_true p :
  Player.canAct p = true ->
  Player.hasFolded p = false /\ Player.isAllIn p = false /\ 0 < Player.stack p.
Proof.
  unfold Player.canAct. intros H.
  apply andb_prop in H as [H Hs]. apply andb_prop in H as [Hf Ha].
  apply Z.ltb_lt in Hs. destruct (Player.hasFolded p), (Player.isAllIn p); auto; discriminate.
Qed.

Lemma allIn_as_bet p : Player.allIn p = Player.bet (Player.stack p) p.
Proof.
  unfold Player.allIn. rewrite (surjective_pairing (Player.bet (Player.stack p) p)) at 2.
  now rewrite bet_committed, Z.min_id.
Qed.

Lemma call_as_bet amountToCall p :
  Player.call amountToCall p = Player.bet (Z.min amountToCall (Player.stack p)) p.
Proof. reflexivity. Qed.

Lemma accepted_seat_ok tableBet p action amount p' delta cb :
  seat_ok p -> 0 < Player.stack p -> 0 <= tableBet ->
  accepted tableBet p action amount p' delta cb ->
  seat_ok p' /\ 0 <= cb.
Proof.
  intros [Hs Hc] Hpos Htb H. unfold seat_ok.
  destruct H; rewrite ?allIn_as_bet, ?call_as_bet;
    rewrite ?bet_stack, ?bet_currentBet;
    cbn [Player.fold Player.check Player.stack Player.currentBet
         Player.set_hasActed Player.set_hasFolded];
    try (destruct (Z.ltb_spec tableBet
                     (Player.currentBet p + Z.min (Player.stack p) (Player.stack p))));
    unfold BIG_BLIND in *; lia.
Qed.


Lemma street_total_nonneg ps : Forall seat_ok ps -> 0 <= street_total ps.
Proof.
  unfold street_total. induction 1 as [|p ps [_ Hc] _ IH]; cbn; lia.
Qed.

Lemma street_total_clearStreet ps : street_total (map clearStreet ps) = 0.
Proof. unfold street_total. induction ps as [|p ps IH]; cbn; [reflexivity|]. now rewrite IH. Qed.

Lemma street_total_reset ps : street_total (map Player.reset ps) = 0.
Proof. unfold street_total. induction ps as [|p ps IH]; cbn; [reflexivity|]. now rewrite IH. Qed.

Lemma street_total_chips_view ps : street_total (chips_view ps) = street_total ps.
Proof.
  unfold street_total, chips_view. induction ps as [|p ps IH]; cbn; [reflexivity|].
  now rewrite IH.
Qed.

Lemma seat_ok_clearStreet ps : Forall seat_ok ps -> Forall seat_ok (map clearStreet ps).
Proof. induction 1 as [|p ps [Hs _] _ IH]; cbn; constructor; auto. split; cbn; lia. Qed.

Lemma seat_ok_reset ps :
  Forall (fun p => 0 <= Player.stack p) ps -> Forall seat_ok (map Player.reset ps).
Proof. induction 1 as [|p ps Hs _ IH]; cbn; constructor; auto. split; cbn; lia. Qed.

Lemma seat_ok_stacks ps : Forall seat_ok ps -> Forall (fun p => 0 <= Player.stack p) ps.
Proof. induction 1 as [|p ps [Hs _] _ IH]; constructor; auto. Qed.

Lemma seat_ok_chips_view ps ps' :
  chips_view ps = chips_view ps' -> Forall seat_ok ps' -> Forall seat_ok ps.
Proof.
  revert ps'. induction ps as [|p ps IH]; intros [|p' ps'] Hv Hall; try discriminate.
  - constructor.
  - cbn in Hv. injection Hv as Hid Hname Hstack Hcb _ _ _ _ Hrest.
    inversion Hall as [|? ? [Hs Hc] Hall']; subst. constructor.
    + split; congruence.
    + eapply IH; eauto.
Qed.

Lemma seat_ok_restacked ps stacks :
  Forall seat_ok ps -> nonneg_stacks stacks -> Forall seat_ok (restacked ps stacks).
Proof.
  intros Hps. revert stacks. induction Hps as [|p ps [_ Hc] _ IH]; intros stacks Hst.
  - destruct stacks; constructor.
  - destruct Hst as [|s stacks Hs Hst]; cbn; constructor; auto. split; cbn; assumption.
Qed.

Lemma seat_ok_bet amount p :
  0 <= amount -> seat_ok p -> seat_ok (snd (Player.bet amount p)).
Proof. intros Ha [Hs Hc]. split; rewrite ?bet_stack, ?bet_currentBet; lia. Qed.

Lemma advance_chips_ok g r :
  chips_ok g -> advance_result g r -> chips_ok (state_of r).
Proof.
  intros (Hseats & Hstreet & Hcb) Hr.
  pose proof (street_total_nonneg _ Hseats) as Hnn.
  assert (Hcleared : chips_ok (street_cleared g)).
  { unfold chips_ok, street_cleared. fields. rewrite street_total_clearStreet.
    split; [now apply seat_ok_clearStreet|]. lia. }
  destruct Hr as [Hrefs | w rest winner lg Hrefs Hwhy Hw
                 | ph n k dk cs lg ga Hrefs Hnext Hdk Hcs Hk
                 | k lg Hrefs Hnext Hnr Hk]; cbn [state_of];
    try exact Hcleared.
  unfold chips_ok, paid, street_cleared. fields.
  assert (Hwin : seat_ok winner).
  { pose proof (seat_ok_clearStreet _ Hseats) as Hall. rewrite Forall_forall in Hall.
    apply Hall. eapply list_elem_of_lookup_2; exact Hw. }
  rewrite (street_total_insert _ _ winner) by exact Hw.
  rewrite street_total_clearStreet. cbn [Player.currentBet Player.set_stack].
  split; [|lia].
  apply Forall_insert; [now apply seat_ok_clearStreet|].
  destruct Hwin as [Hs Hc]. split; cbn; lia.
Qed.

Lemma marked_chips_ok g : chips_ok g -> chips_ok (marked g).
Proof.
  unfold chips_ok. now rewrite marked_players, marked_pot, marked_currentBet.
Qed.

Lemma processAction_chips_ok action amount g :
  well_formed g -> chips_ok g -> chips_ok (state_of (processAction action amount g)).
Proof.
  intros [Hlen Hok] Hchips.
  pose proof (processAction_shape action amount g Hlen (table_ok_dealable g Hok)) as Hr.
  assert (Hacc : forall p p' delta cb k lg ga,
            activePlayer g = Some p -> Player.canAct p = true ->
            accepted (currentBet g) p action amount p' delta cb ->
            chips_ok (moved k lg ga
                        (bet_applied (activePlayerIndex g) p' delta cb (marked g)))).
  { intros p p' delta cb k lg ga Hp Hc Hacc.
    destruct Hchips as (Hseats & Hstreet & Hcb).
    assert (Hseat : seat_ok p).
    { rewrite Forall_forall in Hseats. apply Hseats.
      eapply list_elem_of_lookup_2; exact Hp. }
    destruct (canAct_true p Hc) as (_ & _ & Hpos).
    destruct (accepted_seat_ok _ _ _ _ _ _ _ Hseat Hpos Hcb Hacc) as [Hseat' Hcb'].
    destruct (accepted_moves_chips _ _ _ _ _ _ _ Hacc) as [_ Hcur].
    unfold chips_ok, moved, bet_applied. fields. rewrite marked_players, marked_pot.
    rewrite (street_total_insert _ _ p) by exact Hp.
    split; [now apply Forall_insert|]. lia. }
  destruct Hr as [Hp | p Hp Hc | p Hp Hc Href
                 | p p' delta cb k lg ga Hp Hc Ha Hk g3 Hcomp
                 | p p' delta cb k lg ga adv Hp Hc Ha Hk g3 Hcomp Hadv]; cbn [state_of];
    try exact Hchips.
  - now apply marked_chips_ok.
  - now apply (Hacc p).
  - replace (state_of (lift_advance adv)) with (state_of adv) by now destruct adv.
    apply (advance_chips_ok g3); [|exact Hadv]. now apply (Hacc p).
Qed.

Lemma startNewHand_chips_ok rnd uuid g :
  well_formed g -> chips_ok g -> chips_ok (state_of (startNewHand rnd uuid g)).
Proof.
  intros [Hlen Hok] (Hseats & _ & _).
  pose proof (seat_ok_reset _ (seat_ok_stacks _ Hseats)) as Hreset.
  destruct (Nat.eq_dec (seats_with_chips (players g)) 0%nat) as [Hz|Hnz].
  - apply seats_with_chips_zero in Hz.
    rewrite (startNewHand_broke rnd uuid g) by (try rewrite Hlen; auto; lia).
    unfold chips_ok, cleared. fields. rewrite street_total_reset.
    split; [exact Hreset|]. lia.
  - assert (Hex : Exists (fun p => Player.stack p <> 0) (players g)).
    { apply seats_with_chips_pos. lia. }
    destruct (startNewHand_funded rnd uuid g Hlen Hex) as (g' & Heq & Hst).
    rewrite Heq. cbn [state_of].
    destruct Hst as (cards & d & sb & bb & g2 & (Hd & Hsb & Hbb) & _ & _ & Hblinds & Hview
                     & Hpot & Hcb & _).
    set (s1 := seated d sb bb (cleared cards uuid g)) in *.
    assert (Hps1 : players s1 = map Player.reset (players g)) by reflexivity.
    destruct (postBlinds_ok s1) as (p & q & Hp & Hq & Hblinds').
    { rewrite Hps1, length_map_reset, Hlen. exact Hsb. }
    { rewrite Hps1, length_map_reset, Hlen. exact Hbb. }
    rewrite Hblinds in Hblinds'. apply Ok_inj in Hblinds' as [_ ->].
    fields in Hpot. fields in Hview.
    change (smallBlindIndex s1) with sb in *. change (bigBlindIndex s1) with bb in *.
    change (pot s1) with 0 in Hpot. rewrite Hps1 in *.
    assert (Hsp : seat_ok p).
    { rewrite Forall_forall in Hreset. apply Hreset.
      eapply list_elem_of_lookup_2; exact Hp. }
    assert (Hall1 : Forall seat_ok
                      (<[sb := snd (Player.bet SMALL_BLIND p)]> (map Player.reset (players g)))).
    { apply Forall_insert; [exact Hreset|]. apply seat_ok_bet; [unfold SMALL_BLIND; lia|exact Hsp]. }
    assert (Hsq : seat_ok q).
    { rewrite Forall_forall in Hall1. apply Hall1.
      eapply list_elem_of_lookup_2; exact Hq. }
    unfold chips_ok. rewrite Hpot, Hcb.
    rewrite <- (street_total_chips_view (players g')), Hview, street_total_chips_view.
    rewrite (street_total_insert _ _ q) by exact Hq.
    rewrite (street_total_insert _ _ p) by exact Hp.
    rewrite street_total_reset, !bet_currentBet, !bet_committed.
    split; [|unfold BIG_BLIND; lia].
    eapply seat_ok_chips_view; [exact Hview|].
    apply Forall_insert; [exact Hall1|].
    apply seat_ok_bet; [unfold BIG_BLIND; lia|exact Hsq].
Qed.

Lemma setPlayerStacks_chips_ok stacks g :
  well_formed g -> nonneg_stacks stacks -> chips_ok g ->
  chips_ok (state_of (setPlayerStacks stacks g)).
Proof.
  intros [Hlen _] Hst (Hseats & Hstreet & Hcb).
  destruct (setPlayerStacks_shape stacks g Hlen) as [[_ ->]|[Hs ->]]; cbn [state_of].
  - now repeat split.
  - unfold chips_ok. fields. rewrite restacked_street by congruence.
    split; [now apply seat_ok_restacked|]. now split.
Qed.

Lemma new_chips_ok rnd : chips_ok (new rnd).
Proof.
  unfold new. generalize (Deck.reset rnd). intros cards.
  unfold chips_ok, new_with. fields. split; [|split; [vm_compute; discriminate|lia]].
  unfold initializePlayers. cbn [map seq].
  repeat constructor; cbn; lia.
Qed.

Lemma reachable_chips_ok g : reachable_with nonneg_stacks g -> chips_ok g.
Proof.
  induction 1 as [rnd|g g' Hreach IH Hstep].
  - apply new_chips_ok.
  - pose proof (reachable_well_formed _ _ Hreach) as Hwf.
    destruct Hstep as [stacks Hst|rnd uuid|action amount].
    + now apply setPlayerStacks_chips_ok.
    + now apply startNewHand_chips_ok.
    + now apply processAction_chips_ok.
Qed.








(** * Raises *)

Lemma lookup_map_clearStreet ps i :
  map clearStreet ps !! i = clearStreet <$> (ps !! i).
Proof. change (map clearStreet ps) with (clearStreet <$> ps). apply list_lookup_fmap. Qed.

Lemma cleared_seat_bet ps i p :
  map clearStreet ps !! i = Some p -> Player.currentBet p = 0.
Proof.
  rewrite lookup_map_clearStreet. destruct (ps !! i) as [x|]; cbn; [|discriminate].
  intros H. injection H as <-. reflexivity.
Qed.

Lemma advance_clears_bets g r g' i :
  advance_result g r -> r = Ok tt g' -> (i < length (players g))%nat ->
  exists p, players g' !! i = Some p /\ Player.currentBet p = 0 /\ currentBet g' = 0.
Proof.
  intros Hr Heq Hi.
  assert (Hlook : exists x, map clearStreet (players g) !! i = Some x).
  { apply lookup_lt_is_Some_2. now rewrite length_map_clearStreet. }
  destruct Hlook as [x Hx]. pose proof (cleared_seat_bet _ _ _ Hx) as Hx0.
  destruct Hr as [Hrefs | w rest winner lg Hrefs Hwhy Hw
                 | ph n k dk cs lg ga Hrefs Hnext Hdk Hcs Hk
                 | k lg Hrefs Hnext Hnr Hk]; try discriminate;
    apply Ok_inj in Heq as [_ <-].
  - unfold paid, street_cleared. fields.
    destruct (Nat.eq_dec w i) as [->|Hne].
    + rewrite list_lookup_insert_eq by (rewrite length_map_clearStreet; exact Hi).
      eexists. split; [reflexivity|]. split; [|reflexivity].
      cbn [Player.currentBet Player.set_stack]. rewrite Hx in Hw. now injection Hw as <-.
    + rewrite list_lookup_insert_ne by exact Hne. eauto.
  - unfold dealt, street_cleared. fields. eauto.
  - unfold street_cleared. fields. eauto.
Qed.

(** C10: after every accepted RAISE the engine's currentBet equals the
    street bet of the seat that raised; and on a reachable table a seat whose
    stack is smaller than [amount - currentStreetBet] raises and leaves
    currentBet strictly lower than it was. *)
Theorem raise_sets_currentBet :
  (forall g amount g',
      reachable g -> processAction RAISE amount g = Ok true g' ->
      exists p', players g' !! activePlayerIndex g = Some p'
                 /\ currentBet g' = Player.currentBet p')
  /\ (exists g a g' p,
        reachable g /\ activePlayer g = Some p
        /\ Player.stack p < a - Player.currentBet p
        /\ processAction RAISE (Some a) g = Ok true g'
        /\ currentBet g' < currentBet g).
Proof.
  split.
  - intros g amount g' Hreach Hrun.
    destruct (reachable_well_formed _ _ Hreach) as [Hlen Hok].
    pose proof (processAction_shape RAISE amount g Hlen (table_ok_dealable g Hok)) as Hr.
    rewrite Hrun in Hr. remember (Ok true g') as r eqn:Hreq.
    destruct Hr as [Hp | p Hp Hc | p Hp Hc Href
                   | p p' delta cb k lg ga Hp Hc Hacc Hk g3 Hcomp
                   | p p' delta cb k lg ga adv Hp Hc Hacc Hk g3 Hcomp Hadv];
      try discriminate.
    + apply Ok_inj in Hreq as [_ <-]. exists p'.
      unfold g3, moved, bet_applied. fields. rewrite marked_players. split.
      * apply list_lookup_insert_eq. eapply lookup_lt_Some. exact Hp.
      * inversion Hacc; subst. reflexivity.
    + destruct adv as [[] g''|e g'']; cbn [lift_advance] in Hreq; [|discriminate].
      apply Ok_inj in Hreq as [_ <-].
      destruct (advance_clears_bets g3 _ g'' (activePlayerIndex g) Hadv eq_refl)
        as (q & Hq & Hq0 & Hcb).
      { unfold g3, moved, bet_applied. fields. rewrite length_insert, marked_players.
        eapply lookup_lt_Some. exact Hp. }
      exists q. split; [exact Hq|]. now rewrite Hcb, Hq0.
  - exists short_utg, 80. eexists. eexists.
    split; [apply table_reachable|]. by_evaluation.
Qed.

Lemma raise_sets_currentBet_witness :
  exists g' p', processAction RAISE (Some 80) short_utg = Ok true g'
                /\ players g' !! activePlayerIndex short_utg = Some p'
                /\ currentBet g' = Player.currentBet p'.
Proof.
  assert (Hrun : exists g', processAction RAISE (Some 80) short_utg = Ok true g').
  { eexists. vm_compute. reflexivity. }
  destruct Hrun as [g' Hrun].
  destruct (proj1 raise_sets_currentBet short_utg (Some 80) g'
              (table_reachable _) Hrun) as (p' & Hp' & Hcb).
  exists g', p'. auto.
Defined.

(** * Rejected actions *)

Lemma marked_same g : same_but_first_action g (marked g).
Proof. unfold same_but_first_action, marked. destruct (isFirstAction g); reflexivity. Qed.

Lemma getValidActions_acting g p :
  activePlayer g = Some p -> Player.canAct p = true -> betting_phase (phase g) = true ->
  getValidActions g =
  [FOLD]
  ++ (if amountToCall g p =? 0
      then [CHECK] ++ (if BIG_BLIND <=? Player.stack p then [BET] else [])
      else (if amountToCall g p <=? Player.stack p then [CALL] else [])
           ++ (if (amountToCall g p <? Player.stack p) && (BIG_BLIND <=? Player.stack p)
               then [RAISE] else []))
  ++ (if 0 <? Player.stack p then [ALL_IN] else []).
Proof.
  unfold activePlayer, getValidActions. intros -> -> Hph.
  destruct (phase g); try discriminate; reflexivity.
Qed.

Lemma accepted_is_listed g p action amount p' delta cb :
  chips_ok g -> activePlayer g = Some p -> Player.canAct p = true ->
  left_out_by_level g p action ->
  accepted (currentBet g) p action amount p' delta cb ->
  In action (getValidActions g).
Proof.
  intros (Hseats & _ & Hcb) Hp Hc (Hph & Hatc & Hwhy) Hacc.
  assert (Hseat : seat_ok p).
  { rewrite Forall_forall in Hseats. apply Hseats.
    eapply list_elem_of_lookup_2; exact Hp. }
  destruct Hseat as [_ Hcur]. destruct (canAct_true p Hc) as (_ & _ & Hpos).
  rewrite (getValidActions_acting g p Hp Hc Hph).
  unfold amountToCall in *.
  destruct Hacc; cbn [In app].
  - auto.
  - right. apply in_or_app. left.
    destruct (Z.eqb_spec (currentBet g - Player.currentBet p) 0); [left; reflexivity|lia].
  - right. apply in_or_app. left.
    destruct (Z.eqb_spec (currentBet g - Player.currentBet p) 0); [lia|].
    apply in_or_app. left.
    destruct (Z.leb_spec (currentBet g - Player.currentBet p) (Player.stack p));
      [left; reflexivity|lia].
  - right. apply in_or_app. left.
    destruct (Z.eqb_spec (currentBet g - Player.currentBet p) 0); [|lia].
    right. destruct (Z.leb_spec BIG_BLIND (Player.stack p)); [left; reflexivity|lia].
  - contradiction.
  - right. apply in_or_app. right.
    destruct (Z.ltb_spec 0 (Player.stack p)); [left; reflexivity|lia].
Qed.

(** C2 (as the code has it): in a state reached with non-negative stack
    settings, an action that is not among the valid actions is rejected
    whenever the active seat cannot act, and also when it can act provided
    the phase is a betting phase, the amount to call is not negative and the
    action was left out for the level of betting rather than for the size of
    the stack; the rejection leaves every field but the first-action flag as
    it was, and the whole state when the seat cannot act. *)
Theorem illegal_action_rejected g action amount :
  reachable_with nonneg_stacks g ->
  ~ In action (getValidActions g) ->
  (forall p, activePlayer g = Some p -> Player.canAct p = true ->
             left_out_by_level g p action) ->
  exists g',
    processAction action amount g = Ok false g'
    /\ same_but_first_action g g'
    /\ ((forall p, activePlayer g = Some p -> Player.canAct p = false) -> g' = g).
Proof.
  intros Hreach Hout Hwhy.
  destruct (reachable_well_formed _ _ Hreach) as [Hlen Hok].
  pose proof (reachable_chips_ok g Hreach) as Hchips.
  pose proof (processAction_shape action amount g Hlen (table_ok_dealable g Hok)) as Hr.
  destruct Hr as [Hp | p Hp Hc | p Hp Hc Href
                 | p p' delta cb k lg ga Hp Hc Hacc Hk g3 Hcomp
                 | p p' delta cb k lg ga adv Hp Hc Hacc Hk g3 Hcomp Hadv].
  - exists g. repeat split; reflexivity.
  - exists g. repeat split; reflexivity.
  - exists (marked g). split; [reflexivity|]. split; [apply marked_same|].
    intros Hno. rewrite (Hno p Hp) in Hc. discriminate.
  - exfalso. apply Hout.
    exact (accepted_is_listed g p action amount p' delta cb Hchips Hp Hc (Hwhy p Hp Hc) Hacc).
  - exfalso. apply Hout.
    exact (accepted_is_listed g p action amount p' delta cb Hchips Hp Hc (Hwhy p Hp Hc) Hacc).
Qed.

Lemma short_utg_reachable : reachable_with nonneg_stacks short_utg.
Proof. apply table_reachable_with. repeat constructor; discriminate. Qed.

Lemma short_utg_facts :
  exists p, activePlayer short_utg = Some p /\ Player.canAct p = true
            /\ phase short_utg = PREFLOP /\ amountToCall short_utg p = 40
            /\ getValidActions short_utg = [FOLD; ALL_IN].
Proof. eexists. by_evaluation. Qed.

Lemma illegal_action_rejected_witness :
  ~ In CHECK (getValidActions short_utg)
  /\ exists g', processAction CHECK None short_utg = Ok false g'
                /\ same_but_first_action short_utg g'.
Proof.
  destruct short_utg_facts as (p & Hp & Hc & Hph & Hatc & Hlist).
  assert (Hout : ~ In CHECK (getValidActions short_utg)).
  { rewrite Hlist. cbn. intuition discriminate. }
  split; [exact Hout|].
  destruct (illegal_action_rejected short_utg CHECK None short_utg_reachable Hout)
    as (g' & Hrun & Hsame & _).
  - intros q Hq _. rewrite Hp in Hq. injection Hq as <-.
    unfold left_out_by_level. rewrite Hph, Hatc. repeat split. lia.
  - exists g'. auto.
Defined.

(** C2 (as stated) fails: under the gun with 30 chips and 40 to call, CALL
    is not among the valid actions and [processAction] accepts it, moving the
    30 chips to the pot. *)
Lemma illegal_action_short_call_counterexample :
  reachable short_utg
  /\ ~ In CALL (getValidActions short_utg)
  /\ exists g', processAction CALL None short_utg = Ok true g'
                /\ pot short_utg = 60 /\ pot g' = 90
                /\ map Player.stack (players g') = [1000; 1000; 980; 960; 0; 1000].
Proof.
  split; [apply table_reachable|]. split.
  - vm_compute. intuition discriminate.
  - eexists. by_evaluation.
Qed.

(** C5, the failing run: on a freshly started hand the seat under the gun
    asks to CHECK while 40 is to call; [processAction] returns [false], and
    the state it leaves differs from the one it found: the first-action flag
    has been cleared.  Every other field is as it was. *)
Theorem rejected_check_clears_first_action_flag :
  isFirstAction (table six_1000) = true
  /\ exists g', processAction CHECK None (table six_1000) = Ok false g'
                /\ isFirstAction g' = false
                /\ g' <> table six_1000
                /\ same_but_first_action (table six_1000) g'.
Proof.
  assert (Hbefore : isFirstAction (table six_1000) = true) by (vm_compute; reflexivity).
  assert (Hrun : exists g', processAction CHECK None (table six_1000) = Ok false g'
                            /\ isFirstAction g' = false
                            /\ same_but_first_action (table six_1000) g').
  { eexists. by_evaluation. }
  destruct Hrun as (g' & Hrun & Hafter & Hsame).
  split; [exact Hbefore|]. exists g'.
  split; [exact Hrun|]. split; [exact Hafter|]. split; [|exact Hsame].
  intros ->. congruence.
Qed.

(** * Showdown *)

(** Whatever the cards, settlement hands the whole pot to the first
    non-folded seat in array order. *)
Lemma settlement_pays_first_unfolded g w rest :
  filter_refs unfolded (players g) = w :: rest ->
  exists winner lg,
    players g !! w = Some winner
    /\ processHandCompletion g = Ok tt (paid w winner lg g)
    /\ stacks_total (players (paid w winner lg g)) = stacks_total (players g) + pot g.
Proof.
  intros Hrefs.
  destruct (processHandCompletion_shape g (w :: rest) Hrefs) as (winner & lg & Hw & _ & Hr).
  exists winner, lg. split; [exact Hw|]. split; [exact Hr|].
  unfold paid. fields. rewrite (stacks_total_insert _ _ winner) by exact Hw.
  cbn [Player.stack Player.set_stack]. lia.
Qed.

(** C7, the failing run: six seats reach the showdown with 40 chips each in
    the pot.  The board is the ace-high club flush A K Q T 8 and no seat
    holds a club, so the six hands are equal; the engine pays the 240 chips
    to seat 0, the first non-folded seat, and nothing to the other five. *)
Theorem showdown_pays_first_seat :
  reachable checked_down
  /\ phase checked_down = FINISHED
  /\ map Card.toString (communityCards checked_down) = ["Ac"; "Kc"; "Qc"; "Tc"; "8c"]%string
  /\ map Player.getHoleCardsString (players checked_down)
     = ["Ts4s"; "9s3s"; "As8s"; "Ks7s"; "Qs6s"; "Js5s"]%string
  /\ map Player.hasFolded (players checked_down) = [false; false; false; false; false; false]
  /\ map Player.totalBetThisHand (players checked_down) = [40; 40; 40; 40; 40; 40]
  /\ pot checked_down = 240
  /\ map Player.stack (players checked_down) = [1200; 960; 960; 960; 960; 960]
  /\ In "Player 1 wins 240 with best hand"%string (actionLog checked_down).
Proof.
  split; [apply play_reachable, table_reachable|].
  by_evaluation. tauto.
Qed.

(** * The deck *)

#[local] Instance Suit_eq_dec : EqDecision Card.Suit.
Proof. solve_decision. Defined.

#[local] Instance Rank_eq_dec : EqDecision Card.Rank.
Proof. solve_decision. Defined.

#[local] Instance Card_eq_dec : EqDecision Card.t.
Proof. solve_decision. Defined.

Lemma pop_app_single {X} (l : list X) c : pop (l ++ [c]) = Some (c, l).
Proof.
  induction l as [|x l IH]; [reflexivity|].
  cbn [app pop]. now rewrite IH.
Qed.

Lemma pop_None {X} (l : list X) : pop l = None <-> l = [].
Proof.
  split; [|now intros ->].
  destruct l as [|x l]; [reflexivity|]. cbn. destruct (pop l) as [[? ?]|]; discriminate.
Qed.

Lemma pop_Some {X} (l : list X) c r : pop l = Some (c, r) <-> l = r ++ [c].
Proof. split; [apply pop_snoc|]. intros ->. apply pop_app_single. Qed.

(** Writing [y] over position [i] trades the element found there for [y]. *)
Lemma insert_Permutation {X} (l : list X) i x y :
  l !! i = Some x -> Permutation (x :: <[i := y]> l) (y :: l).
Proof.
  revert i. induction l as [|a l IH]; intros [|i] H; try discriminate.
  - injection H as ->. apply perm_swap.
  - change (<[S i := y]> (a :: l)) with (a :: <[i := y]> l).
    rewrite perm_swap, (IH i H). apply perm_swap.
Qed.

Lemma swap_Permutation i j cards : Permutation (Deck.swap i j cards) cards.
Proof.
  unfold Deck.swap.
  destruct (cards !! i) as [ci|] eqn:Hi; [|reflexivity].
  destruct (cards !! j) as [cj|] eqn:Hj; [|reflexivity].
  destruct (Nat.eq_dec i j) as [->|Hne].
  - assert (ci = cj) as -> by congruence.
    rewrite list_insert_insert_eq. now rewrite list_insert_id.
  - apply (Permutation_cons_inv (a := cj)).
    rewrite (insert_Permutation _ j cj ci).
    + apply (insert_Permutation _ i ci cj). exact Hi.
    + rewrite list_lookup_insert_ne by exact Hne. exact Hj.
Qed.

Lemma shuffle_from_Permutation rnd i cards :
  Permutation (Deck.shuffle_from rnd i cards) cards.
Proof.
  revert cards. induction i as [|i IH]; intros cards; cbn [Deck.shuffle_from]; [reflexivity|].
  rewrite IH. apply swap_Permutation.
Qed.

Lemma shuffle_Permutation rnd cards : Permutation (Deck.shuffle rnd cards) cards.
Proof. apply shuffle_from_Permutation. Qed.

Lemma reset_Permutation rnd : Permutation (Deck.reset rnd) Deck.fresh.
Proof. unfold Deck.reset. apply shuffle_Permutation. Qed.

Lemma fresh_NoDup : NoDup Deck.fresh.
Proof. apply (bool_decide_unpack _). vm_compute. exact I. Qed.

Lemma fresh_complete c : In c Deck.fresh.
Proof. destruct c as [[] []]; vm_compute; tauto. Qed.

(** X1: whatever the random draws, [shuffle] rearranges the cards it is
    given without losing or repeating one; so the deck that [reset] builds
    holds 52 cards, no card twice and every card of the 13 ranks and 4 suits
    once. *)
Theorem reset_deals_every_card_once (rnd : nat -> nat) :
  (forall cards, Permutation (Deck.shuffle rnd cards) cards)
  /\ Deck.remainingCards (Deck.reset rnd) = 52%nat
  /\ List.NoDup (Deck.reset rnd)
  /\ (forall c, In c (Deck.reset rnd)).
Proof.
  split; [apply shuffle_Permutation|]. split; [apply reset_length|].
  pose proof (reset_Permutation rnd) as Hperm.
  revert Hperm. generalize (Deck.reset rnd). intros cards Hperm. split.
  - apply NoDup_ListNoDup. rewrite Hperm. apply fresh_NoDup.
  - intros c. apply (Permutation_in c (Permutation_sym Hperm)). apply fresh_complete.
Qed.

Lemma deal_many_spec n (cards : Deck.t) :
  deal_many n cards =
  if (n <=? length cards)%nat
  then Some (rev (drop (length cards - n) cards), take (length cards - n) cards)
  else None.
Proof.
  revert cards. induction n as [|n IH]; intros cards.
  - cbn [deal_many Nat.leb]. rewrite Nat.sub_0_r, drop_all, firstn_all. reflexivity.
  - cbn [deal_many]. unfold Deck.deal.
    destruct (pop cards) as [[c r]|] eqn:Hpop.
    + apply pop_snoc in Hpop. subst cards. rewrite IH, length_app. cbn [length].
      replace (length r + 1 - S n)%nat with (length r - n)%nat by lia.
      destruct (Nat.leb_spec n (length r)) as [Hle|Hgt].
      * rewrite (proj2 (Nat.leb_le (S n) (length r + 1))) by lia.
        rewrite drop_app_le, take_app_le by lia.
        rewrite rev_app_distr. reflexivity.
      * rewrite (proj2 (Nat.leb_gt (S n) (length r + 1))) by lia. reflexivity.
    + apply pop_None in Hpop. subst cards. reflexivity.
Qed.

(** X2: [deal] throws exactly on the empty deck; otherwise it returns the
    last card of the array and leaves the others, one card fewer.  Dealing
    [n] cards in a row therefore hands out the last [n] cards from the end
    backwards, and throws exactly when [n] exceeds the cards remaining: a
    deck just reset gives 52 cards and throws at the 53rd. *)
Theorem deal_takes_from_the_end (cards : Deck.t) :
  (Deck.deal cards = None <-> cards = [])
  /\ (forall c rest, Deck.deal cards = Some (c, rest) <->
                     cards = rest ++ [c])
  /\ (forall c rest, Deck.deal cards = Some (c, rest) ->
                     S (Deck.remainingCards rest) = Deck.remainingCards cards)
  /\ (forall n, (n <= Deck.remainingCards cards)%nat ->
        deal_many n cards
        = Some (rev (drop (length cards - n) cards), take (length cards - n) cards))
  /\ (forall n, (Deck.remainingCards cards < n)%nat -> deal_many n cards = None)
  /\ (forall rnd, deal_many 52 (Deck.reset rnd) = Some (rev (Deck.reset rnd), [])
                  /\ deal_many 53 (Deck.reset rnd) = None).
Proof.
  split; [apply pop_None|]. split; [intros c rest; apply pop_Some|].
  split; [intros c rest H; symmetry; apply (pop_length _ _ _ H)|].
  split; [|split].
  - intros n Hn. rewrite deal_many_spec.
    now rewrite (proj2 (Nat.leb_le n (length cards))) by exact Hn.
  - intros n Hn. rewrite deal_many_spec.
    now rewrite (proj2 (Nat.leb_gt n (length cards))) by exact Hn.
  - intros rnd. rewrite !deal_many_spec.
    pose proof (reset_length rnd) as Hlen. revert Hlen.
    generalize (Deck.reset rnd). intros dk Hlen. rewrite Hlen.
    cbn [Nat.leb Nat.sub]. split; reflexivity.
Qed.

(** * Parsing a card *)

Lemma toString_as_raw c : Card.raw_toString (Card.erase c) = Card.toString c.
Proof. reflexivity. Qed.

Lemma fromString_inverts s r : Card.fromString s = Some r -> Card.raw_toString r = s.
Proof.
  unfold Card.fromString.
  destruct s as [|a [|b [|? ?]]]; cbn; try discriminate.
  intros H. injection H as <-. reflexivity.
Qed.

Lemma fromString_toString c : Card.fromString (Card.toString c) = Some (Card.erase c).
Proof. destruct c as [[] []]; reflexivity. Qed.

(** X3: [fromString] throws exactly on the strings whose length is not 2;
    it inverts [toString]: parsing the name of a card gives that card back,
    and the name of a parsed card is the string that was parsed. *)
Theorem fromString_toString_round_trip :
  (forall s, Card.fromString s = None <-> String.length s <> 2%nat)
  /\ (forall c, Card.fromString (Card.toString c) = Some (Card.erase c))
  /\ (forall s r, Card.fromString s = Some r -> Card.raw_toString r = s).
Proof.
  split; [|split; [exact fromString_toString|exact fromString_inverts]].
  intros s. unfold Card.fromString.
  destruct (Nat.eqb_spec (String.length s) 2) as [H|H]; cbn [negb].
  - split; [discriminate|contradiction].
  - split; [intros _; exact H|reflexivity].
Qed.

(** X4: [fromString] checks the length only.  On every string of two
    characters it returns a card object, and that object is one of the 52
    cards exactly when the string is the name of one; any other pair of
    characters becomes an object that is no card, with no error. *)
Theorem fromString_checks_length_only (s : string) :
  String.length s = 2%nat ->
  exists r, Card.fromString s = Some r
            /\ ((exists c, r = Card.erase c) <-> In s (map Card.toString Deck.fresh)).
Proof.
  intros Hlen. unfold Card.fromString at 1. rewrite Hlen. cbn [Nat.eqb negb].
  eexists. split; [reflexivity|].
  set (r := Card.mk_raw (Card.char_at 0 s) (Card.char_at 1 s)).
  assert (Hr : Card.fromString s = Some r).
  { unfold Card.fromString. rewrite Hlen. reflexivity. }
  split.
  - intros [c Hc]. apply in_map_iff. exists c. split; [|apply fresh_complete].
    rewrite <- (fromString_inverts s r Hr), Hc. reflexivity.
  - intros Hin. apply in_map_iff in Hin as (c & <- & _). exists c.
    rewrite fromString_toString in Hr. congruence.
Qed.

Lemma fromString_checks_length_only_witness :
  String.length "Zz" = 2%nat
  /\ exists r, Card.fromString "Zz" = Some r
               /\ ((exists c, r = Card.erase c) <-> In "Zz"%string (map Card.toString Deck.fresh)).
Proof.
  split; [reflexivity|]. apply (fromString_checks_length_only "Zz"). reflexivity.
Defined.

(** * The range of exact chip arithmetic *)

Lemma exact_seat_by_check p : exact_seatb p = true -> exact_seat p.
Proof.
  unfold exact_seatb, exact_seat. intros H.
  apply andb_prop in H as [H H4]. apply andb_prop in H as [H H3].
  apply andb_prop in H as [H1 H2].
  apply Z.leb_le in H1, H2, H3, H4. lia.
Qed.

Lemma exact_chips_by_check g : exact_chipsb g = true -> exact_chips g.
Proof.
  unfold exact_chipsb, exact_chips, in_range. intros H.
  apply andb_prop in H as [H H5]. apply andb_prop in H as [H H4].
  apply andb_prop in H as [H H3]. apply andb_prop in H as [H1 H2].
  apply Z.leb_le in H1, H2, H3, H5.
  split; [lia|]. split; [exact H3|]. split; [|exact H5].
  apply List.Forall_forall. intros q Hq. apply exact_seat_by_check.
  exact (proj1 (forallb_forall _ _) H4 q Hq).
Qed.

Lemma exact_chips_stack g i q :
  exact_chips g -> players g !! i = Some q -> in_range (Player.stack q).
Proof.
  intros (_ & _ & Hall & _) Hq.
  apply (Forall_lookup_1 _ _ _ _ Hall) in Hq. unfold exact_seat, in_range in *. lia.
Qed.

(** * The pot and the bets of the hand *)

Lemma bets_total_insert ps i p q :
  ps !! i = Some p ->
  bets_total (<[i := q]> ps)
  = bets_total ps - Player.totalBetThisHand p + Player.totalBetThisHand q.
Proof. apply sumZ_map_insert. Qed.

Lemma bets_total_map (f : Player.t -> Player.t) ps :
  (forall p, Player.totalBetThisHand (f p) = Player.totalBetThisHand p) ->
  bets_total (map f ps) = bets_total ps.
Proof.
  intros Hf. unfold bets_total. induction ps as [|p ps IH]; cbn; [reflexivity|].
  now rewrite Hf, IH.
Qed.

Lemma bets_total_reset ps : bets_total (map Player.reset ps) = 0.
Proof. unfold bets_total. induction ps as [|p ps IH]; cbn; [reflexivity|]. now rewrite IH. Qed.

Lemma bets_total_chips_view ps ps' :
  chips_view ps = chips_view ps' -> bets_total ps = bets_total ps'.
Proof.
  intros H. rewrite <- (bets_total_map (Player.set_holeCards []) ps) by reflexivity.
  rewrite <- (bets_total_map (Player.set_holeCards []) ps') by reflexivity.
  unfold chips_view in H. now rewrite H.
Qed.

Lemma bet_totalBetThisHand amount p :
  Player.totalBetThisHand (snd (Player.bet amount p))
  = Player.totalBetThisHand p + fst (Player.bet amount p).
Proof. unfold Player.bet. cbn. destruct (_ =? 0); reflexivity. Qed.

Lemma accepted_total_bet tableBet p action amount p' delta cb :
  accepted tableBet p action amount p' delta cb ->
  Player.totalBetThisHand p' = Player.totalBetThisHand p + delta.
Proof.
  intros H; destruct H; unfold Player.call, Player.allIn; cbn [fst snd];
    rewrite ?bet_totalBetThisHand, ?bet_committed;
    cbn [Player.fold Player.check Player.totalBetThisHand
         Player.set_hasActed Player.set_hasFolded]; lia.
Qed.

Lemma advance_keeps_bets g r :
  advance_result g r ->
  pot (state_of r) = pot g /\ bets_total (players (state_of r)) = bets_total (players g).
Proof.
  intros Hr.
  destruct Hr as [Hrefs | w rest winner lg Hrefs Hwhy Hw
                 | ph n k dk cs lg ga Hrefs Hnext Hdk Hcs Hk
                 | k lg Hrefs Hnext Hnr Hk]; cbn [state_of];
    unfold paid, dealt, street_cleared; fields; (split; [reflexivity|]);
    try (apply bets_total_map; reflexivity).
  rewrite (bets_total_insert _ _ winner) by exact Hw.
  rewrite bets_total_map by reflexivity.
  cbn [Player.totalBetThisHand Player.set_stack]. lia.
Qed.

Lemma processAction_keeps_pot_is_bets action amount g :
  well_formed g -> pot g = bets_total (players g) ->
  pot (state_of (processAction action amount g))
  = bets_total (players (state_of (processAction action amount g))).
Proof.
  intros [Hlen Hok] Hinv.
  pose proof (processAction_shape action amount g Hlen (table_ok_dealable g Hok)) as Hr.
  assert (Hm : pot (marked g) = bets_total (players (marked g))).
  { now rewrite marked_pot, marked_players. }
  destruct Hr as [Hp | p Hp Hc | p Hp Hc Href
                 | p p' delta cb k lg ga Hp Hc Hacc Hk g3 Hcomp
                 | p p' delta cb k lg ga adv Hp Hc Hacc Hk g3 Hcomp Hadv]; cbn [state_of];
    try assumption.
  - unfold g3, moved, bet_applied. fields. rewrite marked_pot, marked_players.
    rewrite (bets_total_insert _ _ p) by exact Hp.
    rewrite (accepted_total_bet _ _ _ _ _ _ _ Hacc). lia.
  - replace (state_of (lift_advance adv)) with (state_of adv) by now destruct adv.
    destruct (advance_keeps_bets g3 adv Hadv) as [-> ->].
    unfold g3, moved, bet_applied. fields. rewrite marked_pot, marked_players.
    rewrite (bets_total_insert _ _ p) by exact Hp.
    rewrite (accepted_total_bet _ _ _ _ _ _ _ Hacc). lia.
Qed.

Lemma postBlinds_keeps_pot_is_bets g g2 :
  postBlinds g = Ok tt g2 ->
  pot g2 - bets_total (players g2) = pot g - bets_total (players g).
Proof.
  intros H.
  assert (Hsb : (smallBlindIndex g < length (players g))%nat).
  { apply lookup_lt_is_Some. destruct (players g !! smallBlindIndex g) eqn:E; [eauto|].
    unfold postBlinds, bind, gets, getPlayer in H. rewrite E in H. discriminate. }
  assert (Hbb : (bigBlindIndex g < length (players g))%nat).
  { destruct (players g !! smallBlindIndex g) as [p|] eqn:E.
    2:{ apply lookup_ge_None in E. lia. }
    destruct (lt_dec (bigBlindIndex g) (length (players g))) as [|Hge]; [assumption|].
    exfalso. unfold postBlinds, bind, gets, getPlayer in H. rewrite E in H.
    destruct (Player.bet SMALL_BLIND p) as [a p'].
    unfold setPlayer, modify in H. fields in H.
    rewrite (proj2 (lookup_ge_None _ _)) in H; [discriminate|].
    rewrite length_insert. lia. }
  destruct (postBlinds_ok g Hsb Hbb) as (p & q & Hp & Hq & Heq).
  rewrite Heq in H. apply Ok_inj in H as [_ <-]. fields.
  rewrite (bets_total_insert _ _ q) by exact Hq.
  rewrite (bets_total_insert _ _ p) by exact Hp.
  rewrite !bet_totalBetThisHand. lia.
Qed.

Lemma startNewHand_keeps_pot_is_bets rnd uuid g :
  well_formed g ->
  pot (state_of (startNewHand rnd uuid g))
  = bets_total (players (state_of (startNewHand rnd uuid g))).
Proof.
  intros [Hlen Hok].
  destruct (Nat.eq_dec (seats_with_chips (players g)) 0%nat) as [Hz|Hnz].
  - apply seats_with_chips_zero in Hz.
    rewrite (startNewHand_broke rnd uuid g) by (try rewrite Hlen; auto; lia).
    cbn [state_of]. unfold cleared. fields. now rewrite bets_total_reset.
  - assert (Hex : Exists (fun p => Player.stack p <> 0) (players g)).
    { apply seats_with_chips_pos. lia. }
    destruct (startNewHand_funded rnd uuid g Hlen Hex) as (g' & Heq & Hst).
    rewrite Heq. cbn [state_of].
    destruct Hst as (cards & d & sb & bb & g2 & _ & _ & _ & Hblinds & Hview & Hpot & _).
    rewrite Hpot, (bets_total_chips_view _ _ Hview).
    pose proof (postBlinds_keeps_pot_is_bets _ _ Hblinds) as H.
    unfold seated, cleared in H. fields in H. rewrite bets_total_reset in H. lia.
Qed.

(** X5: in every state of a hand started with [setPlayerStacks] and
    [startNewHand] and continued by accepted actions, the stacks given being
    non-negative with a sum of at most 2^53 (the range in which the source
    adds chips exactly), the pot equals what the six seats have committed
    since the hand began ([totalBetThisHand]); this stays so after the pot has
    been handed to the winner, because neither side is cleared before the next
    hand. *)
Theorem pot_is_sum_of_hand_bets (stacks : list Z) (g : t) :
  bounded_stacks stacks -> in_hand stacks g -> pot g = bets_total (players g).
Proof.
  intros _ Hin.
  induction Hin as [g0 g1 rnd uuid g Hg0 Hset Hstart|g action amount g' Hin IH Hph Hrun].
  - replace g with (state_of (startNewHand rnd uuid g1)) by now rewrite Hstart.
    apply startNewHand_keeps_pot_is_bets.
    replace g1 with (state_of (setPlayerStacks stacks g0)) by now rewrite Hset.
    apply setPlayerStacks_well_formed. exact (reachable_well_formed _ _ Hg0).
  - replace g' with (state_of (processAction action amount g)) by now rewrite Hrun.
    apply processAction_keeps_pot_is_bets; [|exact IH].
    exact (proj1 (in_hand_inv stacks g Hin)).
Qed.

Lemma pot_is_sum_of_hand_bets_witness :
  phase folded_out = FINISHED
  /\ pot folded_out = 60
  /\ pot folded_out = bets_total (players folded_out).
Proof.
  split; [by_evaluation|]. split; [by_evaluation|].
  apply (pot_is_sum_of_hand_bets six_1000 folded_out).
  - exact six_1000_bounded.
  - exact folded_out_in_hand.
Defined.

(** * Methods that move a quantity along a relation *)

Lemma state_of_bind {A B} (m : M A) (k : A -> M B) g :
  state_of (bind m k g)
  = match m g with
    | Ok a g1 => state_of (k a g1)
    | Throw _ g1 => g1
    end.
Proof. unfold bind. destruct (m g); reflexivity. Qed.

Lemma bind_Ok_inv {A B} (m : M A) (k : A -> M B) g b g' :
  bind m k g = Ok b g' -> exists a g1, m g = Ok a g1 /\ k a g1 = Ok b g'.
Proof. unfold bind. destruct (m g) as [a g1|]; [eauto|discriminate]. Qed.

Section Preserves.
Context {X : Type} (R : X -> X -> Prop) `{!PreOrder R} (f : t -> X).

Lemma preserves_ret {A} (a : A) : preserves R f (ret a).
Proof. intros g. reflexivity. Qed.

Lemma preserves_gets {A} (h : t -> A) : preserves R f (gets h).
Proof. intros g. reflexivity. Qed.

Lemma preserves_throw {A} e : preserves R f (@throw A e).
Proof. intros g. reflexivity. Qed.

Lemma preserves_getPlayer i : preserves R f (getPlayer i).
Proof. intros g. unfold getPlayer. destruct (players g !! i); reflexivity. Qed.

Lemma preserves_modify (h : t -> t) :
  (forall g, R (f (h g)) (f g)) -> preserves R f (modify h).
Proof. intros H g. apply H. Qed.

Lemma preserves_bind {A B} (m : M A) (k : A -> M B) :
  preserves R f m -> (forall a, preserves R f (k a)) -> preserves R f (bind m k).
Proof.
  intros Hm Hk g. rewrite state_of_bind. specialize (Hm g).
  destruct (m g) as [a g1|e g1]; cbn [state_of] in Hm; [|exact Hm].
  etransitivity; [apply Hk|exact Hm].
Qed.

Lemma preserves_for_each {A} (xs : list A) (body : A -> M unit) :
  (forall x, preserves R f (body x)) -> preserves R f (for_each xs body).
Proof.
  intros Hb. induction xs as [|x xs IH]; cbn [for_each].
  - apply preserves_ret.
  - apply preserves_bind; [apply Hb|intros _; exact IH].
Qed.

Lemma preserves_core {A} (m : M A) :
  (forall g g', core g = core g' -> f g = f g') -> keeps_core m -> preserves R f m.
Proof. intros Hf Hm g. rewrite (Hf _ _ (Hm g)). reflexivity. Qed.

Lemma preserves_deal : (forall v g, R (f (set_deck v g)) (f g)) -> preserves R f deal.
Proof.
  intros H g. unfold deal. destruct (Deck.deal (deck g)) as [[c rest]|]; cbn [state_of].
  - apply H.
  - reflexivity.
Qed.

Lemma preserves_Ok {A} (m : M A) g a g' : preserves R f m -> m g = Ok a g' -> R (f g') (f g).
Proof. intros Hm Heq. specialize (Hm g). now rewrite Heq in Hm. Qed.
End Preserves.

(** Applying one of the lemmas above: the order on the quantity is found
    by instance search. *)
Tactic Notation "papply" uconstr(L) :=
  apply L;
  lazymatch goal with
  | |- PreOrder _ => typeclasses eauto
  | _ => idtac
  end.

Section PreservesTurn.
Context {X : Type} (R : X -> X -> Prop) `{!PreOrder R} (f : t -> X).
Hypothesis f_active : forall v g, R (f (set_activePlayerIndex v g)) (f g).

Lemma preserves_findNextActivePlayer_loop budget start :
  preserves R f (findNextActivePlayer_loop budget start).
Proof.
  induction budget as [|b IH]; cbn [findNextActivePlayer_loop].
  - apply preserves_ret; assumption.
  - apply preserves_bind; [assumption|apply preserves_gets; assumption|intros i].
    apply preserves_bind; [assumption|apply preserves_getPlayer; assumption|intros p].
    destruct (Player.canAct p); [apply preserves_ret; assumption|].
    apply preserves_bind; [assumption| |intros _].
    { apply preserves_modify. intros g. apply f_active. }
    apply preserves_bind; [assumption|apply preserves_gets; assumption|intros i'].
    destruct (i' =? start)%nat; [apply preserves_ret; assumption|exact IH].
Qed.

Lemma preserves_findNextActivePlayer : preserves R f findNextActivePlayer.
Proof.
  unfold findNextActivePlayer.
  apply preserves_bind; [assumption|apply preserves_gets; assumption|intros s].
  apply preserves_findNextActivePlayer_loop.
Qed.

Lemma preserves_moveToNextPlayer : preserves R f moveToNextPlayer.
Proof.
  unfold moveToNextPlayer.
  apply preserves_bind; [assumption| |intros _; apply preserves_findNextActivePlayer].
  apply preserves_modify. intros g. apply f_active.
Qed.

Lemma preserves_setActivePlayer : preserves R f setActivePlayer.
Proof.
  unfold setActivePlayer.
  apply preserves_bind; [assumption|apply preserves_gets; assumption|intros ph].
  apply preserves_bind; [assumption| |intros _; apply preserves_findNextActivePlayer].
  destruct (phase_eqb ph PREFLOP);
    (apply preserves_bind; [assumption|apply preserves_gets; assumption|intros i]);
    apply preserves_modify; intros g; apply f_active.
Qed.

Lemma preserves_isBettingRoundComplete : preserves R f isBettingRoundComplete.
Proof.
  intros g. destruct (isBettingRoundComplete_pure g) as [b ->]. reflexivity.
Qed.
End PreservesTurn.

Create HintDb frames.

(** One step of the proof that a method preserves a quantity: by a lemma
    about the method, or by the structure of its body, where an assignment
    that does not touch the quantity is settled by computation. *)
Ltac frame_step :=
  first
    [ solve [auto 1 with frames nocore]
    | lazymatch goal with
      | |- preserves _ _ (bind _ _) => papply preserves_bind; [|intros ?]
      | |- preserves _ _ (ret _) => papply preserves_ret
      | |- preserves _ _ (gets _) => papply preserves_gets
      | |- preserves _ _ (throw _) => papply preserves_throw
      | |- preserves _ _ (getPlayer _) => papply preserves_getPlayer
      | |- preserves _ _ deal => papply preserves_deal; intros ? ?; reflexivity
      | |- preserves _ _ (modify _) => papply preserves_modify; intros ?; reflexivity
      | |- preserves _ _ (setPlayer _ _) => papply preserves_modify; intros ?; reflexivity
      | |- preserves _ _ (logAction _) => papply preserves_modify; intros ?; reflexivity
      | |- preserves _ _ (pushGameAction _) => papply preserves_modify; intros ?; reflexivity
      | |- preserves _ _ (for_each _ _) => papply preserves_for_each; intros ?
      | |- preserves _ _ (if ?b then _ else _) => destruct b
      | |- preserves _ _ (let '(_, _) := ?x in _) => destruct x
      | |- preserves _ _ (match ?x with _ => _ end) => destruct x
      end ].

(** * The button and the blinds *)

Lemma add_mod_succ next j total :
  ((((next + 1) mod total) + j) mod total)%nat = ((next + S j) mod total)%nat.
Proof.
  rewrite Nat.Div0.add_mod_idemp_l. f_equal. lia.
Qed.

Lemma findNextPlayerWithChips_loop_spec budget total next attempts g r g' :
  total = length (players g) -> (next < total)%nat ->
  findNextPlayerWithChips_loop budget total next attempts g = Ok r g' ->
  g' = g
  /\ exists j, (j <= budget)%nat
       /\ r = (((next + j) mod total)%nat, (attempts + j)%nat)
       /\ (forall j', (j' < j)%nat ->
             exists p, players g !! ((next + j') mod total)%nat = Some p /\ Player.stack p = 0)
       /\ ((j < budget)%nat -> funded_at (players g) ((next + j) mod total)%nat).
Proof.
  intros Htotal. revert next attempts.
  induction budget as [|b IH]; intros next attempts Hnext Hrun;
    cbn [findNextPlayerWithChips_loop] in Hrun;
    unfold bind at 1 in Hrun; unfold getPlayer at 1 in Hrun;
    destruct (players g !! next) as [p|] eqn:Hp; try discriminate.
  - apply Ok_inj in Hrun as [<- <-]. split; [reflexivity|]. exists 0%nat.
    rewrite !Nat.add_0_r, Nat.mod_small by exact Hnext.
    split; [lia|]. split; [reflexivity|]. split; intros; lia.
  - destruct (Z.eqb_spec (Player.stack p) 0) as [Hz|Hnz].
    + apply IH in Hrun as [-> (j & Hj & -> & Hzero & Hfund)].
      2:{ apply Nat.mod_upper_bound. lia. }
      split; [reflexivity|]. exists (S j). rewrite add_mod_succ in *.
      split; [lia|]. split; [f_equal; lia|]. split.
      * intros [|j'] Hj'.
        -- exists p. rewrite Nat.add_0_r, Nat.mod_small by exact Hnext. auto.
        -- rewrite <- add_mod_succ. apply Hzero. lia.
      * intros Hlt. apply Hfund. lia.
    + apply Ok_inj in Hrun as [<- <-]. split; [reflexivity|]. exists 0%nat.
      rewrite !Nat.add_0_r, Nat.mod_small by exact Hnext.
      split; [lia|]. split; [reflexivity|]. split; [intros; lia|].
      intros _. exists p. auto.
Qed.

Lemma findNextPlayerWithChips_spec from g k g' :
  (0 < length (players g))%nat ->
  findNextPlayerWithChips from g = Ok k g' ->
  g' = g /\ next_funded (players g) from k.
Proof.
  intros Hlen Hrun. unfold findNextPlayerWithChips in Hrun.
  unfold bind at 1 in Hrun. unfold gets at 1 in Hrun.
  apply bind_Ok_inv in Hrun as ([k' a] & g1 & Hloop & Hrest).
  apply findNextPlayerWithChips_loop_spec in Hloop
    as [-> (j & Hj & Hr & Hzero & Hfund)];
    [|reflexivity|apply Nat.mod_upper_bound; lia].
  injection Hr as -> ->. rewrite ?Nat.add_0_l in Hrest.
  destruct (Nat.leb_spec (length (players g)) j) as [Hge|Hlt]; [discriminate|].
  apply Ok_inj in Hrest as [<- <-]. split; [reflexivity|].
  exists j. rewrite Nat.Div0.add_mod_idemp_l in *.
  split; [exact Hlt|]. split; [reflexivity|]. split; [apply Hfund; exact Hlt|].
  intros j' Hj'. specialize (Hzero j' Hj').
  now rewrite Nat.Div0.add_mod_idemp_l in Hzero.
Qed.

Lemma next_funded_reset ps from k :
  next_funded (map Player.reset ps) from k -> next_funded ps from k.
Proof.
  intros (j & Hj & Hk & Hf & Hzero). rewrite length_map_reset in *.
  exists j. split; [exact Hj|]. split; [exact Hk|].
  split; [now apply funded_at_reset|].
  intros j' Hj'. destruct (Hzero j' Hj') as (p & Hp & Hs).
  rewrite lookup_map_reset in Hp.
  destruct (ps !! ((from + 1 + j') mod length ps)%nat) as [q|]; [|discriminate].
  exists q. split; [reflexivity|]. cbn in Hp. injection Hp as <-. exact Hs.
Qed.

Lemma next_funded_lt ps from k : next_funded ps from k -> (k < length ps)%nat.
Proof.
  intros (j & Hj & -> & _). apply Nat.mod_upper_bound. lia.
Qed.

Lemma moveButton_spec d0 g g' :
  (0 < length (players g))%nat ->
  moveButton d0 g = Ok tt g' ->
  exists d sb bb,
    g' = seated d sb bb g
    /\ next_funded (players g) d0 d
    /\ next_funded (players g) d sb
    /\ next_funded (players g) sb bb.
Proof.
  intros Hlen Hrun. unfold moveButton in Hrun.
  apply bind_Ok_inv in Hrun as (d & g1 & Hd & Hrun).
  apply findNextPlayerWithChips_spec in Hd as [-> Hd]; [|exact Hlen].
  unfold bind at 1 in Hrun. unfold modify at 1 in Hrun.
  apply bind_Ok_inv in Hrun as (sb & g1 & Hsb & Hrun).
  apply findNextPlayerWithChips_spec in Hsb as [-> Hsb]; [|exact Hlen].
  unfold bind at 1 in Hrun. unfold modify at 1 in Hrun.
  apply bind_Ok_inv in Hrun as (bb & g1 & Hbb & Hrun).
  apply findNextPlayerWithChips_spec in Hbb as [-> Hbb]; [|exact Hlen].
  unfold modify in Hrun. apply Ok_inj in Hrun as [_ <-].
  exists d, sb, bb. fields in Hsb. fields in Hbb. auto.
Qed.

Lemma resetForNewHand_spec rnd uuid g g' :
  (0 < length (players g))%nat ->
  resetForNewHand rnd uuid g = Ok tt g' ->
  exists d sb bb,
    g' = seated d sb bb (cleared (Deck.reset rnd) uuid g)
    /\ next_funded (players g) (dealerIndex g) d
    /\ next_funded (players g) d sb
    /\ next_funded (players g) sb bb.
Proof.
  intros Hlen Hrun. rewrite resetForNewHand_unfold in Hrun.
  revert Hrun. generalize (Deck.reset rnd). intros cards Hrun.
  apply moveButton_spec in Hrun as (d & sb & bb & -> & Hd & Hsb & Hbb).
  2:{ now rewrite cleared_length. }
  exists d, sb, bb. split; [reflexivity|].
  unfold cleared in Hd, Hsb, Hbb. fields in Hd. fields in Hsb. fields in Hbb.
  auto using next_funded_reset.
Qed.

Lemma core_positions g g' : core g = core g' -> positions g = positions g'.
Proof. unfold core, positions. intros H. injection H as _ _ _ _ _ _ -> -> -> _. reflexivity. Qed.

Lemma postBlinds_positions : preserves eq positions postBlinds.
Proof. unfold postBlinds. repeat frame_step. Qed.

Lemma dealHoleCards_positions : preserves eq positions dealHoleCards.
Proof. unfold dealHoleCards. repeat frame_step. Qed.

Lemma setActivePlayer_positions : preserves eq positions setActivePlayer.
Proof. papply preserves_core; [apply core_positions|apply keeps_core_setActivePlayer]. Qed.

Lemma startNewHand_seats rnd uuid (g g' : t) :
  length (players g) = 6%nat ->
  startNewHand rnd uuid g = Ok tt g' ->
  next_funded (players g) (dealerIndex g) (dealerIndex g')
  /\ next_funded (players g) (dealerIndex g') (smallBlindIndex g')
  /\ next_funded (players g) (smallBlindIndex g') (bigBlindIndex g').
Proof.
  intros Hlen. unfold startNewHand. intros Hrun.
  apply bind_Ok_inv in Hrun as ([] & g1 & Hreset & Hrest).
  apply resetForNewHand_spec in Hreset as (d & sb & bb & -> & Hd & Hsb & Hbb); [|lia].
  revert Hrest. generalize (Deck.reset rnd). intros cards Hrest.
  apply (preserves_Ok eq positions) in Hrest.
  - unfold positions, seated, cleared in Hrest. fields in Hrest.
    injection Hrest as -> -> ->. auto.
  - papply preserves_bind; [apply postBlinds_positions|intros _].
    papply preserves_bind; [apply dealHoleCards_positions|intros _].
    papply preserves_bind; [frame_step|intros _].
    papply preserves_bind; [apply setActivePlayer_positions|intros _].
    repeat frame_step.
Qed.

(** X6: the button and the blinds skip the seats without chips.  When
    [startNewHand] returns, the dealer is the first seat after the previous
    dealer whose stack is not 0, the small blind the first such seat after the
    dealer and the big blind the first such seat after the small blind, going
    round the table; every seat passed over has stack 0. *)
Theorem button_and_blinds_skip_broke_seats rnd uuid (g g' : t) :
  length (players g) = 6%nat ->
  startNewHand rnd uuid g = Ok tt g' ->
  next_funded (players g) (dealerIndex g) (dealerIndex g')
  /\ next_funded (players g) (dealerIndex g') (smallBlindIndex g')
  /\ next_funded (players g) (smallBlindIndex g') (bigBlindIndex g').
Proof. exact (startNewHand_seats rnd uuid g g'). Qed.

Lemma gapped_seats_start :
  length (players gapped_seats) = 6%nat
  /\ startNewHand rnd_id "hand-1" gapped_seats = Ok tt (table gapped_stacks).
Proof. by_evaluation. Qed.

Lemma button_and_blinds_skip_broke_seats_witness :
  (map Player.stack (players gapped_seats) = [1000; 0; 0; 1000; 0; 1000]
   /\ dealerIndex gapped_seats = 0%nat
   /\ positions (table gapped_stacks) = (3, 5, 0)%nat)
  /\ next_funded (players gapped_seats) (dealerIndex gapped_seats)
       (dealerIndex (table gapped_stacks))
  /\ next_funded (players gapped_seats) (dealerIndex (table gapped_stacks))
       (smallBlindIndex (table gapped_stacks))
  /\ next_funded (players gapped_seats) (smallBlindIndex (table gapped_stacks))
       (bigBlindIndex (table gapped_stacks)).
Proof.
  split; [by_evaluation|].
  apply (button_and_blinds_skip_broke_seats rnd_id "hand-1" gapped_seats (table gapped_stacks)).
  - exact (proj1 gapped_seats_start).
  - exact (proj2 gapped_seats_start).
Defined.

(** * Whose turn it is *)

Lemma mod6_wraps start t :
  (start < 6)%nat -> (t < 6)%nat -> ((start + t + 1) mod 6)%nat = start -> t = 5%nat.
Proof.
  intros Hs Ht H. pose proof (Nat.div_mod_eq (start + t + 1) 6) as Hd.
  rewrite H in Hd. lia.
Qed.

Lemma set_activePlayerIndex_twice k k' g :
  set_activePlayerIndex k (set_activePlayerIndex k' g) = set_activePlayerIndex k g.
Proof. reflexivity. Qed.

Lemma can_act_at_lt ps i : can_act_at ps i -> (i < length ps)%nat.
Proof. intros (p & Hp & _). apply lookup_lt_is_Some. eauto. Qed.

Lemma findNextActivePlayer_loop_spec budget start t g :
  length (players g) = 6%nat -> (start < 6)%nat -> (t < 6)%nat -> budget = (6 - t)%nat ->
  activePlayerIndex g = ((start + t) mod 6)%nat ->
  (forall j', (j' < t)%nat -> ~ can_act_at (players g) ((start + j') mod 6)%nat) ->
  exists k, findNextActivePlayer_loop budget start g = Ok tt (set_activePlayerIndex k g)
            /\ next_to_act (players g) start k.
Proof.
  intros Hlen Hstart. revert t g Hlen.
  induction budget as [|b IH]; intros t g Hlen Ht Hb Hi Hnone; [lia|].
  cbn [findNextActivePlayer_loop].
  destruct (lookup_lt_6 (players g) (activePlayerIndex g) Hlen) as [p Hp].
  { rewrite Hi. apply mod6_lt. }
  unfold bind at 1. unfold gets at 1. unfold bind at 1. unfold getPlayer at 1.
  rewrite Hp. destruct (Player.canAct p) eqn:Hc.
  - exists (activePlayerIndex g). rewrite set_activePlayerIndex_same.
    split; [reflexivity|]. left. exists t.
    split; [exact Ht|]. split; [exact Hi|]. split; [|exact Hnone].
    exists p. auto.
  - unfold bind at 1. unfold modify at 1. unfold bind at 1. unfold gets at 1.
    cbn [activePlayerIndex set_activePlayerIndex].
    assert (Hnext : ((activePlayerIndex g + 1) mod 6)%nat = ((start + t + 1) mod 6)%nat).
    { rewrite Hi. apply Nat.Div0.add_mod_idemp_l. }
    assert (Hnone' : forall j', (j' < S t)%nat ->
                       ~ can_act_at (players g) ((start + j') mod 6)%nat).
    { intros j' Hj' (q & Hq & Hcq).
      destruct (Nat.eq_dec j' t) as [->|Hne].
      - rewrite <- Hi, Hp in Hq. congruence.
      - apply (Hnone j'); [lia|]. exists q. auto. }
    destruct (Nat.eqb_spec ((activePlayerIndex g + 1) mod 6) start) as [Heq|Hne].
    + exists ((activePlayerIndex g + 1) mod 6)%nat. split; [reflexivity|].
      right. split; [exact Heq|].
      rewrite Hnext in Heq. apply mod6_wraps in Heq; [|exact Hstart|exact Ht]. subst t.
      intros i Hcan. pose proof (can_act_at_lt _ _ Hcan) as Hlt. rewrite Hlen in Hlt.
      destruct (rotation_hits 6 start i Hstart Hlt) as (j & Hj & Hij).
      apply (Hnone' j); [lia|]. now rewrite Hij.
    + assert (Ht' : (S t < 6)%nat).
      { destruct (Nat.eq_dec t 5%nat) as [->|]; [|lia].
        exfalso. apply Hne. rewrite Hnext.
        replace (start + 5 + 1)%nat with (start + 1 * 6)%nat by lia.
        rewrite Nat.Div0.mod_add. now apply Nat.mod_small. }
      destruct (IH (S t) (set_activePlayerIndex ((activePlayerIndex g + 1) mod 6) g))
        as (k & Hk & Hnext_act); try assumption.
      * lia.
      * cbn [activePlayerIndex set_activePlayerIndex]. rewrite Hnext. f_equal. lia.
      * exists k. rewrite Hk. split; [reflexivity|exact Hnext_act].
Qed.

Lemma findNextActivePlayer_spec g :
  length (players g) = 6%nat -> (activePlayerIndex g < 6)%nat ->
  exists k, findNextActivePlayer g = Ok tt (set_activePlayerIndex k g)
            /\ next_to_act (players g) (activePlayerIndex g) k.
Proof.
  intros Hlen Hi. unfold findNextActivePlayer, bind, gets.
  apply (findNextActivePlayer_loop_spec 6 (activePlayerIndex g) 0);
    [exact Hlen|exact Hi|lia|reflexivity| |intros; lia].
  rewrite Nat.add_0_r. symmetry. now apply Nat.mod_small.
Qed.

(** X7: the action passes to the first seat able to act.  From the seat
    the search starts on, that seat included, [findNextActivePlayer] stops at
    the first seat that has not folded, is not all-in and has chips; when no
    seat can act it comes back to where it started.  [moveToNextPlayer]
    starts the search on the seat after the active one, [setActivePlayer] on
    the seat after the big blind before the flop and after the dealer on the
    later streets. *)
Theorem action_passes_to_next_seat_able_to_act (g : t) :
  length (players g) = 6%nat -> (activePlayerIndex g < 6)%nat ->
  (exists k, findNextActivePlayer g = Ok tt (set_activePlayerIndex k g)
             /\ next_to_act (players g) (activePlayerIndex g) k)
  /\ (exists k, moveToNextPlayer g = Ok tt (set_activePlayerIndex k g)
                /\ next_to_act (players g) ((activePlayerIndex g + 1) mod 6)%nat k)
  /\ (exists k, setActivePlayer g = Ok tt (set_activePlayerIndex k g)
                /\ next_to_act (players g)
                     (((if phase_eqb (phase g) PREFLOP then bigBlindIndex g
                        else dealerIndex g) + 1) mod 6)%nat k).
Proof.
  intros Hlen Hi. split; [now apply findNextActivePlayer_spec|]. split.
  - unfold moveToNextPlayer. unfold bind at 1. unfold modify at 1.
    destruct (findNextActivePlayer_spec
                (set_activePlayerIndex ((activePlayerIndex g + 1) mod 6) g))
      as (k & Hk & Hnext); [exact Hlen|apply mod6_lt|].
    exists k. rewrite Hk. split; [reflexivity|exact Hnext].
  - unfold setActivePlayer. unfold bind at 1. unfold gets at 1.
    destruct (phase_eqb (phase g) PREFLOP);
      unfold bind at 1; unfold bind at 1; unfold gets at 1; unfold modify at 1;
      match goal with
      | |- context [findNextActivePlayer ?s] =>
          destruct (findNextActivePlayer_spec s Hlen (mod6_lt _)) as (k & Hk & Hnext)
      end;
      exists k; rewrite Hk; split; [reflexivity|exact Hnext| reflexivity|exact Hnext].
Qed.

Lemma action_passes_to_next_seat_able_to_act_witness :
  (map Player.canAct (players short_call) = [true; true; true; true; false; true]
   /\ activePlayerIndex short_call = 5%nat)
  /\ (exists k, findNextActivePlayer short_call = Ok tt (set_activePlayerIndex k short_call)
                /\ next_to_act (players short_call) (activePlayerIndex short_call) k)
  /\ (exists k, moveToNextPlayer short_call = Ok tt (set_activePlayerIndex k short_call)
                /\ next_to_act (players short_call)
                     ((activePlayerIndex short_call + 1) mod 6)%nat k)
  /\ (exists k, setActivePlayer short_call = Ok tt (set_activePlayerIndex k short_call)
                /\ next_to_act (players short_call)
                     (((if phase_eqb (phase short_call) PREFLOP
                        then bigBlindIndex short_call
                        else dealerIndex short_call) + 1) mod 6)%nat k).
Proof.
  split; [by_evaluation|].
  apply (action_passes_to_next_seat_able_to_act short_call); by_evaluation.
Defined.

(** * The cards in play *)

Lemma startNewHand_unfold rnd uuid :
  startNewHand rnd uuid
  = (resetForNewHand rnd uuid ;; postBlinds ;; dealHoleCards ;; open_betting).
Proof. reflexivity. Qed.

Lemma hole_cards_insert_same ps i p q :
  ps !! i = Some p -> Player.holeCards q = Player.holeCards p ->
  hole_cards (<[i := q]> ps) = hole_cards ps.
Proof.
  unfold hole_cards. revert i. induction ps as [|a ps IH]; intros [|i] Hp Hq; try discriminate.
  - injection Hp as ->. cbn. now rewrite Hq.
  - change (<[S i := q]> (a :: ps)) with (a :: <[i := q]> ps).
    cbn [map concat]. now rewrite (IH i Hp Hq).
Qed.

Lemma hole_cards_map (f : Player.t -> Player.t) ps :
  (forall p, Player.holeCards (f p) = Player.holeCards p) ->
  hole_cards (map f ps) = hole_cards ps.
Proof.
  intros Hf. unfold hole_cards. induction ps as [|p ps IH]; cbn; [reflexivity|].
  now rewrite Hf, IH.
Qed.

Lemma hole_cards_reset ps : hole_cards (map Player.reset ps) = [].
Proof. unfold hole_cards. induction ps as [|p ps IH]; cbn; [reflexivity|exact IH]. Qed.

Lemma hole_cards_restacked ps stacks :
  length ps = length stacks -> hole_cards (restacked ps stacks) = hole_cards ps.
Proof.
  unfold hole_cards.
  revert stacks. induction ps as [|p ps IH]; intros [|s stacks] H; try discriminate.
  - reflexivity.
  - cbn. f_equal. apply IH. now injection H.
Qed.

Lemma hole_cards_give ps i p c :
  ps !! i = Some p ->
  Permutation (hole_cards (<[i := Player.set_holeCards (Player.holeCards p ++ [c]) p]> ps))
              (c :: hole_cards ps).
Proof.
  unfold hole_cards. revert i. induction ps as [|a ps IH]; intros [|i] Hp; try discriminate.
  - injection Hp as ->. cbn. rewrite <- app_assoc.
    symmetry. apply Permutation_middle.
  - change (<[S i := ?y]> (a :: ps)) with (a :: <[i := y]> ps).
    cbn [map concat]. rewrite (IH i Hp). symmetry. apply Permutation_middle.
Qed.

Lemma bet_holeCards amount p :
  Player.holeCards (snd (Player.bet amount p)) = Player.holeCards p.
Proof. unfold Player.bet. cbn. destruct (_ =? 0); reflexivity. Qed.

Lemma accepted_holeCards tableBet p action amount p' delta cb :
  accepted tableBet p action amount p' delta cb ->
  Player.holeCards p' = Player.holeCards p.
Proof.
  intros H; destruct H; unfold Player.call, Player.allIn; cbn [fst snd];
    rewrite ?bet_holeCards; reflexivity.
Qed.

Lemma core_cards g g' : core g = core g' -> cards_in_play g = cards_in_play g'.
Proof.
  unfold core, cards_in_play. intros H. injection H as -> -> -> _. reflexivity.
Qed.

Lemma cards_keeps_core {A} (m : M A) :
  keeps_core m -> preserves submseteq cards_in_play m.
Proof. intros H. papply preserves_core; [apply core_cards|exact H]. Qed.

Lemma cards_deal : preserves submseteq cards_in_play deal.
Proof.
  intros g. unfold deal, Deck.deal.
  destruct (pop (deck g)) as [[c rest]|] eqn:Hpop; cbn [state_of]; [|reflexivity].
  apply pop_snoc in Hpop. unfold cards_in_play. fields. rewrite Hpop.
  do 2 apply submseteq_skips_l. now apply submseteq_inserts_r.
Qed.

Lemma cards_pushCommunityCard : preserves submseteq cards_in_play pushCommunityCard.
Proof.
  intros g. unfold pushCommunityCard, bind, deal, Deck.deal, modify.
  destruct (pop (deck g)) as [[c rest]|] eqn:Hpop; cbn [state_of]; [|reflexivity].
  apply pop_snoc in Hpop. unfold cards_in_play. fields. rewrite Hpop.
  apply submseteq_skips_l. rewrite <- app_assoc. apply submseteq_skips_l.
  apply Permutation_submseteq, Permutation_app_comm.
Qed.

#[local] Hint Resolve cards_deal cards_pushCommunityCard : frames.

Lemma cards_setActivePlayer : preserves submseteq cards_in_play setActivePlayer.
Proof. apply cards_keeps_core, keeps_core_setActivePlayer. Qed.

Lemma cards_moveToNextPlayer : preserves submseteq cards_in_play moveToNextPlayer.
Proof. apply cards_keeps_core, keeps_core_moveToNextPlayer. Qed.

Lemma cards_isBettingRoundComplete : preserves submseteq cards_in_play isBettingRoundComplete.
Proof. apply cards_keeps_core, keeps_core_isBettingRoundComplete. Qed.

Lemma cards_findNextPlayerWithChips from :
  preserves submseteq cards_in_play (findNextPlayerWithChips from).
Proof. apply cards_keeps_core, keeps_core_findNextPlayerWithChips. Qed.

#[local] Hint Resolve cards_setActivePlayer cards_moveToNextPlayer
  cards_isBettingRoundComplete cards_findNextPlayerWithChips : frames.

Lemma cards_dealFlop : preserves submseteq cards_in_play dealFlop.
Proof. unfold dealFlop. repeat frame_step. Qed.

Lemma cards_dealTurn : preserves submseteq cards_in_play dealTurn.
Proof. unfold dealTurn. repeat frame_step. Qed.

Lemma cards_dealRiver : preserves submseteq cards_in_play dealRiver.
Proof. unfold dealRiver. repeat frame_step. Qed.

Lemma cards_processHandCompletion : preserves submseteq cards_in_play processHandCompletion.
Proof.
  intros g. pose proof (processHandCompletion_shape g _ eq_refl) as H.
  destruct (filter_refs unfolded (players g)) as [|w rest].
  - rewrite H. reflexivity.
  - destruct H as (winner & lg & Hw & _ & ->). cbn [state_of].
    unfold cards_in_play, paid. fields.
    rewrite (hole_cards_insert_same _ _ winner) by (exact Hw || reflexivity). reflexivity.
Qed.

#[local] Hint Resolve cards_dealFlop cards_dealTurn cards_dealRiver
  cards_processHandCompletion : frames.

Lemma cards_clearStreet :
  preserves submseteq cards_in_play
    (modify (fun g => set_players (map clearStreet (players g)) g)).
Proof.
  intros g. cbn [state_of modify]. unfold cards_in_play. fields.
  rewrite hole_cards_map by reflexivity. reflexivity.
Qed.

#[local] Hint Resolve cards_clearStreet : frames.

Lemma cards_advanceToNextPhase : preserves submseteq cards_in_play advanceToNextPhase.
Proof. unfold advanceToNextPhase, processShowdown. repeat frame_step. Qed.

#[local] Hint Resolve cards_advanceToNextPhase : frames.

Lemma cards_settle idx a d s : preserves submseteq cards_in_play (settle idx a d s).
Proof. unfold settle. repeat frame_step. Qed.

Lemma cards_processAction action amount :
  preserves submseteq cards_in_play (processAction action amount).
Proof.
  intros g. rewrite processAction_unfold.
  destruct (players g !! activePlayerIndex g) as [p|] eqn:Hp; [|reflexivity].
  destruct (Player.canAct p); cbn [negb]; [|reflexivity].
  assert (Hm : cards_in_play (marked g) = cards_in_play g) by apply core_cards, marked_core.
  destruct (applyAction_shape (activePlayerIndex g) p action amount (marked g))
    as [[_ Heq]|(p' & delta & cb & d & s & Hacc & Heq)]; rewrite Heq.
  - cbn [state_of]. now rewrite Hm.
  - etransitivity; [apply cards_settle|]. rewrite <- Hm.
    unfold cards_in_play, bet_applied. fields.
    rewrite (hole_cards_insert_same _ _ p).
    + reflexivity.
    + now rewrite marked_players.
    + apply (accepted_holeCards _ _ _ _ _ _ _ Hacc).
Qed.

Lemma cards_postBlinds : preserves submseteq cards_in_play postBlinds.
Proof.
  intros g. unfold postBlinds. unfold bind at 1. unfold gets at 1. unfold bind at 1.
  unfold getPlayer at 1.
  destruct (players g !! smallBlindIndex g) as [p|] eqn:Hp; [|reflexivity].
  pose proof (bet_holeCards SMALL_BLIND p) as Hhp.
  destruct (Player.bet SMALL_BLIND p) as [a1 p']. cbn [snd] in Hhp.
  unfold bind at 1. unfold setPlayer at 1. unfold modify at 1.
  unfold bind at 1. unfold modify at 1. unfold bind at 1. unfold gets at 1.
  unfold bind at 1. unfold getPlayer at 1. fields.
  assert (H1 : hole_cards (<[smallBlindIndex g := p']> (players g)) = hole_cards (players g)).
  { now apply (hole_cards_insert_same _ _ p). }
  destruct (<[smallBlindIndex g := p']> (players g) !! bigBlindIndex g) as [q|] eqn:Hq.
  - pose proof (bet_holeCards BIG_BLIND q) as Hhq.
    destruct (Player.bet BIG_BLIND q) as [a2 q']. cbn [snd] in Hhq.
    unfold bind, setPlayer, modify. cbn [state_of]. unfold cards_in_play. fields.
    rewrite (hole_cards_insert_same _ _ q) by assumption. now rewrite H1.
  - cbn [state_of]. unfold cards_in_play. fields. now rewrite H1.
Qed.

Lemma cards_deal_hole_card idx :
  preserves submseteq cards_in_play
    (let! p := getPlayer idx in
     let! c := deal in
     setPlayer idx (Player.set_holeCards (Player.holeCards p ++ [c]) p)).
Proof.
  intros g. unfold bind at 1. unfold getPlayer at 1.
  destruct (players g !! idx) as [p|] eqn:Hp; [|reflexivity].
  unfold bind, deal, Deck.deal, setPlayer, modify.
  destruct (pop (deck g)) as [[c rest]|] eqn:Hpop; cbn [state_of]; [|reflexivity].
  apply pop_snoc in Hpop. unfold cards_in_play. fields.
  rewrite Hpop, (hole_cards_give _ _ _ c Hp).
  apply Permutation_submseteq. cbn [app]. rewrite !app_assoc.
  apply Permutation_cons_append.
Qed.

#[local] Hint Resolve cards_postBlinds cards_deal_hole_card : frames.

Lemma cards_dealHoleCards : preserves submseteq cards_in_play dealHoleCards.
Proof. unfold dealHoleCards. repeat frame_step. Qed.

#[local] Hint Resolve cards_dealHoleCards : frames.

Lemma cards_open_betting : preserves submseteq cards_in_play open_betting.
Proof. unfold open_betting. repeat frame_step. Qed.

Lemma cards_moveButton d0 : preserves submseteq cards_in_play (moveButton d0).
Proof. unfold moveButton. repeat frame_step. Qed.

Lemma startNewHand_cards rnd uuid g :
  submseteq (cards_in_play (state_of (startNewHand rnd uuid g))) Deck.fresh.
Proof.
  rewrite startNewHand_unfold, state_of_bind, resetForNewHand_unfold.
  pose proof (reset_Permutation rnd) as Hperm.
  revert Hperm. generalize (Deck.reset rnd). intros cards Hperm.
  assert (H0 : submseteq (cards_in_play (cleared cards uuid g)) Deck.fresh).
  { unfold cards_in_play, cleared. fields. rewrite hole_cards_reset.
    cbn [app]. now apply Permutation_submseteq. }
  pose proof (cards_moveButton (dealerIndex g) (cleared cards uuid g)) as Hmove.
  destruct (moveButton (dealerIndex g) (cleared cards uuid g)) as [[] g1|e g1];
    cbn [state_of] in Hmove.
  - etransitivity; [|exact H0]. etransitivity; [|exact Hmove].
    revert g1 Hmove. clear. intros g1 _. revert g1.
    change (preserves submseteq cards_in_play (postBlinds ;; dealHoleCards ;; open_betting)).
    frame_step. frame_step. frame_step. frame_step. apply cards_open_betting.
  - etransitivity; [exact Hmove|exact H0].
Qed.

Lemma setPlayerStacks_cards stacks g :
  length (players g) = 6%nat ->
  cards_in_play (state_of (setPlayerStacks stacks g)) = cards_in_play g.
Proof.
  intros Hlen.
  destruct (setPlayerStacks_shape stacks g Hlen) as [[_ ->]|[Hs ->]]; cbn [state_of].
  - reflexivity.
  - unfold cards_in_play. fields. rewrite hole_cards_restacked; [reflexivity|congruence].
Qed.

Lemma reachable_cards g : reachable g -> submseteq (cards_in_play g) Deck.fresh.
Proof.
  intros Hg. induction Hg as [rnd|g g' Hg IH Hstep].
  - unfold new. pose proof (reset_Permutation rnd) as Hperm.
    revert Hperm. generalize (Deck.reset rnd). intros cards Hperm.
    now apply Permutation_submseteq.
  - pose proof (reachable_well_formed _ _ Hg) as [Hlen _].
    destruct Hstep as [stacks _|rnd uuid|action amount].
    + now rewrite setPlayerStacks_cards.
    + apply startNewHand_cards.
    + etransitivity; [apply cards_processAction|exact IH].
Qed.

(** X8: no card is in two places.  In every state reached through the
    public methods, the hole cards of the six seats, the board and the cards
    left in the deck are pairwise different cards of the 52-card deck. *)
Theorem cards_in_play_never_repeat (g : t) :
  reachable g ->
  List.NoDup (cards_in_play g) /\ (length (cards_in_play g) <= 52)%nat.
Proof.
  intros Hg. pose proof (reachable_cards g Hg) as Hsub. split.
  - apply NoDup_ListNoDup.
    destruct (submseteq_Permutation _ _ Hsub) as [k Hk].
    pose proof fresh_NoDup as Hnd. rewrite Hk in Hnd.
    now apply NoDup_app in Hnd as [Hnd _].
  - apply submseteq_length in Hsub. exact Hsub.
Qed.

Lemma cards_in_play_never_repeat_witness :
  (phase checked_down = FINISHED
   /\ length (hole_cards (players checked_down)) = 12%nat
   /\ length (communityCards checked_down) = 5%nat
   /\ length (deck checked_down) = 32%nat)
  /\ List.NoDup (cards_in_play checked_down)
  /\ (length (cards_in_play checked_down) <= 52)%nat.
Proof.
  split; [by_evaluation|].
  apply (cards_in_play_never_repeat checked_down).
  apply play_reachable, table_reachable.
Defined.

(** * Dealing the hole cards *)

Lemma wp_for_each_seq (I : nat -> t -> Prop) (body : nat -> M unit)
    (E : Error -> t -> Prop) a n g :
  (forall i s, (a <= i < a + n)%nat -> I i s -> wp (body i) (fun _ => I (S i)) E s) ->
  I a g -> wp (for_each (seq a n) body) (fun _ => I (a + n)%nat) E g.
Proof.
  revert a g. induction n as [|n IH]; intros a g Hb Hg; cbn [seq for_each].
  - apply wp_ret. now rewrite Nat.add_0_r.
  - apply wp_bind. eapply wp_mono; [apply Hb; [lia|exact Hg] | | auto].
    intros [] g' Hg'. cbn beta. replace (a + S n)%nat with (S a + n)%nat by lia.
    apply IH; [|exact Hg']. intros i s Hi. apply Hb. lia.
Qed.

Lemma seat_inj d i i' :
  (i < 6)%nat -> (i' < 6)%nat ->
  ((d + 1 + i) mod 6)%nat = ((d + 1 + i') mod 6)%nat -> i = i'.
Proof.
  intros Hi Hi' H.
  pose proof (Nat.div_mod_eq (d + 1 + i) 6) as H1.
  pose proof (Nat.div_mod_eq (d + 1 + i') 6) as H2.
  rewrite H in H1. lia.
Qed.

Lemma dealt_to_none tops i : dealt_to tops 0 i = [].
Proof. reflexivity. Qed.

Lemma dealt_to_next tops r i c :
  (r < 2)%nat -> (i < 6)%nat -> tops !! (6 * r + i)%nat = Some c ->
  dealt_to tops (S (6 * r + i)) i = dealt_to tops (6 * r + i) i ++ [c].
Proof.
  intros Hr Hi Hc. unfold dealt_to.
  destruct r as [|[|r]]; [| |lia].
  - replace (6 * 0 + i)%nat with i in * by lia.
    rewrite Nat.ltb_irrefl, (proj2 (Nat.ltb_lt i (S i))) by lia.
    rewrite !(proj2 (Nat.ltb_ge _ _)) by lia.
    rewrite Hc. reflexivity.
  - replace (6 * 1 + i)%nat with (6 + i)%nat in * by lia.
    rewrite !(proj2 (Nat.ltb_lt i _)) by lia.
    rewrite Nat.ltb_irrefl, (proj2 (Nat.ltb_lt (6 + i) (S (6 + i)))) by lia.
    rewrite Hc, app_nil_r. reflexivity.
Qed.

Lemma dealt_to_other tops r i i' :
  (r < 2)%nat -> (i < 6)%nat -> (i' < 6)%nat -> i' <> i ->
  dealt_to tops (S (6 * r + i)) i' = dealt_to tops (6 * r + i) i'.
Proof.
  intros Hr Hi Hi' Hne. unfold dealt_to.
  destruct (Nat.ltb_spec i' (S (6 * r + i))), (Nat.ltb_spec i' (6 * r + i));
    destruct (Nat.ltb_spec (6 + i') (S (6 * r + i))), (Nat.ltb_spec (6 + i') (6 * r + i));
    try reflexivity; lia.
Qed.

Lemma dealt_to_all tops i c1 c2 :
  (i < 6)%nat -> tops !! i = Some c1 -> tops !! (6 + i)%nat = Some c2 ->
  dealt_to tops 12 i = [c1; c2].
Proof.
  intros Hi H1 H2. unfold dealt_to.
  rewrite !(proj2 (Nat.ltb_lt _ _)) by lia. now rewrite H1, H2.
Qed.

Lemma rev_drop_rev {X} (l : list X) k : rev (drop k (rev l)) = take (length l - k) l.
Proof. rewrite skipn_rev. apply rev_involutive. Qed.

(** The two rounds of [dealHoleCards]: the seat served [i]-th, counting
    from the left of the dealer, receives the [i]-th and the [6 + i]-th card
    from the top of the deck. *)
Lemma dealHoleCards_deals g :
  length (players g) = 6%nat -> (12 <= length (deck g))%nat ->
  exists ps',
    dealHoleCards g
    = Ok tt (set_players ps' (set_deck (take (length (deck g) - 12) (deck g)) g))
    /\ length ps' = 6%nat
    /\ forall i, (i < 6)%nat ->
         exists p c1 c2,
           players g !! ((dealerIndex g + 1 + i) mod 6)%nat = Some p
           /\ top (deck g) i = Some c1 /\ top (deck g) (6 + i) = Some c2
           /\ ps' !! ((dealerIndex g + 1 + i) mod 6)%nat
              = Some (Player.set_holeCards (Player.holeCards p ++ [c1; c2]) p).
Proof.
  intros Hlen Hdeck.
  set (tops := rev (deck g)).
  assert (Htops : (12 <= length tops)%nat) by (unfold tops; now rewrite length_rev).
  set (J := fun (k : nat) (s : t) =>
    exists ps,
      s = set_players ps (set_deck (rev (drop k tops)) g)
      /\ length ps = 6%nat
      /\ forall i, (i < 6)%nat ->
           exists p,
             players g !! ((dealerIndex g + 1 + i) mod 6)%nat = Some p
             /\ ps !! ((dealerIndex g + 1 + i) mod 6)%nat
                = Some (Player.set_holeCards (Player.holeCards p ++ dealt_to tops k i) p)).
  assert (H : wp dealHoleCards (fun _ => J 12%nat) (fun _ _ => False) g).
  { unfold dealHoleCards.
    change (fun _ : unit => J 12%nat)
      with (fun _ : unit => (fun r => J (6 * r)%nat) (0 + 2)%nat).
    apply (wp_for_each_seq (fun r => J (6 * r)%nat)).
    - intros r s Hr Hs.
      replace (6 * S r)%nat with (6 * r + (0 + 6))%nat by lia.
      apply (wp_for_each_seq (fun i => J (6 * r + i)%nat)).
      + clear s Hs. intros i s Hi (ps & -> & Hl & Hseats).
        replace (6 * r + S i)%nat with (S (6 * r + i)) by lia.
        destruct (Hseats i) as (p & Hp & Hcur); [lia|].
        destruct (lookup_lt_is_Some_2 tops (6 * r + i)) as [c Hc]; [lia|].
        apply wp_bind, wp_gets. cbn beta zeta. apply wp_bind, wp_getPlayer. fields.
        rewrite Hcur. apply wp_bind, wp_deal. fields.
        rewrite (drop_S _ _ _ Hc). cbn [rev]. rewrite pop_app_single.
        apply wp_setPlayer. fields.
        eexists. split; [reflexivity|]. split; [now rewrite length_insert|].
        intros i' Hi'. destruct (Nat.eq_dec i' i) as [->|Hne].
        * exists p. split; [exact Hp|].
          rewrite list_lookup_insert_eq by (rewrite Hl; apply mod6_lt).
          rewrite (dealt_to_next tops r i c) by (lia || exact Hc).
          cbn [Player.holeCards Player.set_holeCards]. now rewrite <- app_assoc.
        * destruct (Hseats i' Hi') as (p' & Hp' & Hcur').
          exists p'. split; [exact Hp'|].
          rewrite list_lookup_insert_ne.
          -- rewrite (dealt_to_other tops r i i') by lia. exact Hcur'.
          -- intros Heq. apply Hne. symmetry. apply (seat_inj (dealerIndex g)); [lia..|].
             exact Heq.
      + now rewrite Nat.add_0_r.
    - exists (players g). split; [|split; [exact Hlen|]].
      + rewrite drop_0. unfold tops. rewrite rev_involutive. destruct g; reflexivity.
      + intros i Hi.
        destruct (lookup_lt_6 (players g) ((dealerIndex g + 1 + i) mod 6) Hlen (mod6_lt _))
          as [p Hp].
        exists p. split; [exact Hp|]. rewrite Hp. f_equal.
        rewrite dealt_to_none, app_nil_r. destruct p; reflexivity. }
  apply wp_returns in H as ([] & s & Heq & ps & -> & Hl & Hseats).
  exists ps. unfold tops in Heq. rewrite rev_drop_rev in Heq.
  split; [exact Heq|]. split; [exact Hl|].
  intros i Hi. destruct (Hseats i Hi) as (p & Hp & Hcur).
  destruct (lookup_lt_is_Some_2 tops i) as [c1 Hc1]; [lia|].
  destruct (lookup_lt_is_Some_2 tops (6 + i)) as [c2 Hc2]; [lia|].
  exists p, c1, c2. split; [exact Hp|]. split; [exact Hc1|]. split; [exact Hc2|].
  now rewrite (dealt_to_all tops i c1 c2) in Hcur.
Qed.

Lemma core_seats g g' :
  core g = core g' ->
  (players g, deck g, dealerIndex g) = (players g', deck g', dealerIndex g').
Proof. unfold core. intros H. injection H as -> -> _ _ _ _ -> _ _ _. reflexivity. Qed.

Lemma open_betting_keeps_seats :
  preserves eq (fun g => (players g, deck g, dealerIndex g)) open_betting.
Proof.
  unfold open_betting. frame_step; [frame_step|].
  frame_step.
  { papply preserves_core; [apply core_seats|apply keeps_core_setActivePlayer]. }
  repeat frame_step.
Qed.

(** X9: the hole cards come off the top of the freshly shuffled deck, one
    card per seat and round, starting left of the dealer.  When
    [startNewHand] returns, the seat [i] places after the dealer holds the
    [i]-th and the [6 + i]-th card from the top, every one of the six seats
    being served whether it has chips or not, and the deck keeps the other
    40 cards. *)
Theorem hole_cards_come_off_the_top rnd uuid (g g' : t) :
  length (players g) = 6%nat ->
  startNewHand rnd uuid g = Ok tt g' ->
  deck g' = take 40 (Deck.reset rnd)
  /\ forall i, (i < 6)%nat ->
       exists p c1 c2,
         players g' !! ((dealerIndex g' + 1 + i) mod 6)%nat = Some p
         /\ top (Deck.reset rnd) i = Some c1
         /\ top (Deck.reset rnd) (6 + i) = Some c2
         /\ Player.holeCards p = [c1; c2].
Proof.
  intros Hlen. rewrite startNewHand_unfold. intros Hrun.
  apply bind_Ok_inv in Hrun as ([] & g1 & Hreset & Hrun).
  apply resetForNewHand_spec in Hreset as (d & sb & bb & -> & Hd & Hsb & Hbb); [|lia].
  apply next_funded_lt in Hd, Hsb, Hbb. rewrite Hlen in Hd, Hsb, Hbb.
  pose proof (reset_length rnd) as Hcards.
  revert Hrun Hcards. generalize (Deck.reset rnd). intros cards Hrun Hcards.
  apply bind_Ok_inv in Hrun as ([] & g2 & Hblinds & Hrun).
  apply bind_Ok_inv in Hrun as ([] & g3 & Hdeal & Hopen).
  set (s1 := seated d sb bb (cleared cards uuid g)) in *.
  assert (Hps1 : players s1 = map Player.reset (players g)) by reflexivity.
  destruct (postBlinds_ok s1) as (p & q & Hp & Hq & Heq).
  { rewrite Hps1, length_map_reset, Hlen. exact Hsb. }
  { rewrite Hps1, length_map_reset, Hlen. exact Hbb. }
  rewrite Heq in Hblinds. apply Ok_inj in Hblinds as [_ <-].
  match type of Hdeal with dealHoleCards ?s = _ => set (g2 := s) in * end.
  assert (Hbare : Forall (fun x => Player.holeCards x = []) (players g2)).
  { unfold g2. fields. rewrite Hps1 in *.
    assert (Hreset : Forall (fun x => Player.holeCards x = []) (map Player.reset (players g))).
    { apply Forall_forall. intros x Hx. apply list_elem_of_fmap in Hx as (y & -> & _).
      reflexivity. }
    apply Forall_insert; [apply Forall_insert; [exact Hreset|]|].
    - rewrite bet_holeCards. apply (Forall_lookup_1 _ _ _ _ Hreset Hp).
    - rewrite bet_holeCards.
      assert (Hmid : Forall (fun x => Player.holeCards x = [])
                       (<[smallBlindIndex s1 := snd (Player.bet SMALL_BLIND p)]>
                          (map Player.reset (players g)))).
      { apply Forall_insert; [exact Hreset|].
        rewrite bet_holeCards. apply (Forall_lookup_1 _ _ _ _ Hreset Hp). }
      apply (Forall_lookup_1 _ _ _ _ Hmid Hq). }
  assert (Hl2 : length (players g2) = 6%nat).
  { unfold g2. fields. now rewrite !length_insert, Hps1, length_map_reset. }
  destruct (dealHoleCards_deals g2 Hl2) as (ps' & Heq3 & Hl3 & Hseats).
  { change (deck g2) with cards. lia. }
  rewrite Heq3 in Hdeal. apply Ok_inj in Hdeal as [_ <-].
  apply (preserves_Ok eq (fun g => (players g, deck g, dealerIndex g))) in Hopen;
    [|apply open_betting_keeps_seats].
  fields in Hopen. injection Hopen as Hps Hdk Hdi.
  change (deck g2) with cards in *. change (dealerIndex g2) with d in *.
  rewrite Hps, Hdk, Hdi, Hcards. split; [reflexivity|].
  intros i Hi. destruct (Hseats i Hi) as (x & c1 & c2 & Hx & Hc1 & Hc2 & Hnew).
  eexists. exists c1, c2. split; [exact Hnew|]. split; [exact Hc1|]. split; [exact Hc2|].
  cbn [Player.holeCards Player.set_holeCards].
  now rewrite (Forall_lookup_1 _ _ _ _ Hbare Hx).
Qed.

Lemma six_at_1000_start :
  length (players six_at_1000) = 6%nat
  /\ startNewHand rnd_id "hand-1" six_at_1000 = Ok tt (table six_1000).
Proof. by_evaluation. Qed.

Lemma hole_cards_come_off_the_top_witness :
  (dealerIndex (table six_1000) = 1%nat
   /\ map Player.getHoleCardsString (players (table six_1000))
      = ["Ts4s"; "9s3s"; "As8s"; "Ks7s"; "Qs6s"; "Js5s"]%string)
  /\ deck (table six_1000) = take 40 (Deck.reset rnd_id)
  /\ forall i, (i < 6)%nat ->
       exists p c1 c2,
         players (table six_1000) !! ((dealerIndex (table six_1000) + 1 + i) mod 6)%nat
         = Some p
         /\ top (Deck.reset rnd_id) i = Some c1
         /\ top (Deck.reset rnd_id) (6 + i) = Some c2
         /\ Player.holeCards p = [c1; c2].
Proof.
  split; [by_evaluation|].
  apply (hole_cards_come_off_the_top rnd_id "hand-1" six_at_1000 (table six_1000)).
  - exact (proj1 six_at_1000_start).
  - exact (proj2 six_at_1000_start).
Defined.

(** * The last seat in the hand *)

Lemma filter_refs_from_none {X} (f : X -> bool) base (l : list X) :
  (forall i x, l !! i = Some x -> f x = false) -> filter_refs_from f base l = [].
Proof.
  revert base. induction l as [|a l IH]; intros base H; cbn [filter_refs_from]; [reflexivity|].
  rewrite (H 0%nat a eq_refl). apply IH. intros i x Hx. apply (H (S i) x Hx).
Qed.

Lemma filter_refs_from_single {X} (f : X -> bool) base (l : list X) w y :
  (forall i x, i <> w -> l !! i = Some x -> f x = false) ->
  l !! w = Some y -> f y = true ->
  filter_refs_from f base l = [(base + w)%nat].
Proof.
  revert base w. induction l as [|a l IH]; intros base [|w] H Hw Hy; try discriminate;
    cbn [filter_refs_from].
  - injection Hw as ->. rewrite Hy, Nat.add_0_r. f_equal.
    apply filter_refs_from_none. intros i x Hx. apply (H (S i) x); [lia|exact Hx].
  - rewrite (H 0%nat a) by (lia || reflexivity).
    rewrite (IH (S base) w); [f_equal; lia| |exact Hw|exact Hy].
    intros i x Hi Hx. apply (H (S i) x); [lia|exact Hx].
Qed.

Lemma filter_refs_nil {X} (f : X -> bool) (l : list X) i x :
  filter_refs f l = [] -> l !! i = Some x -> f x = false.
Proof.
  intros Hnil Hx. destruct (f x) eqn:Hf; [|reflexivity]. exfalso.
  assert (Hin : In i (filter_refs f l)).
  { apply filter_refs_from_spec. exists i, x. auto. }
  rewrite Hnil in Hin. exact Hin.
Qed.

Lemma filter_length_refs {X} (f : X -> bool) base (l : list X) :
  length (List.filter f l) = length (filter_refs_from f base l).
Proof.
  revert base. induction l as [|a l IH]; intros base; cbn [List.filter filter_refs_from];
    [reflexivity|].
  destruct (f a); cbn [length]; now rewrite (IH (S base)).
Qed.

Lemma isBettingRoundComplete_settled g :
  (length (filter_refs unfolded (players g)) <= 1)%nat ->
  isBettingRoundComplete g = Ok true g.
Proof.
  intros H. unfold isBettingRoundComplete, bind, gets.
  change (fun p => negb (Player.hasFolded p)) with unfolded.
  rewrite (filter_length_refs unfolded 0). fold (filter_refs unfolded (players g)).
  now rewrite (proj2 (Nat.leb_le _ 1) H).
Qed.

Lemma accepted_hasFolded tableBet p action amount p' delta cb :
  accepted tableBet p action amount p' delta cb ->
  Player.hasFolded p'
  = match action with FOLD => true | _ => Player.hasFolded p end.
Proof.
  intros H; destruct H; unfold Player.call, Player.allIn; cbn [fst snd];
    rewrite ?bet_hasFolded; reflexivity.
Qed.

Lemma accepted_fold tableBet p amount p' delta cb :
  accepted tableBet p FOLD amount p' delta cb ->
  p' = Player.fold p /\ delta = 0 /\ cb = tableBet.
Proof. intros H. inversion H. auto. Qed.

(** The seats once the active seat has folded. *)
Lemma folded_seat_lookup g p keep i x :
  activePlayer g = Some p ->
  others_folded g (activePlayerIndex g :: keep) -> ~ In i keep ->
  <[activePlayerIndex g := Player.fold p]> (players g) !! i = Some x ->
  unfolded x = false.
Proof.
  intros Hp Hothers Hi Hx. unfold unfolded.
  destruct (Nat.eq_dec i (activePlayerIndex g)) as [->|Hne].
  - rewrite list_lookup_insert_eq in Hx by (eapply lookup_lt_Some; exact Hp).
    injection Hx as <-. reflexivity.
  - rewrite list_lookup_insert_ne in Hx by congruence.
    rewrite (Hothers i x); [reflexivity| |exact Hx].
    intros [Heq|Hin]; [congruence|contradiction].
Qed.

Lemma processAction_thrown action amount g :
  well_formed g ->
  let folds_last :=
    action = FOLD
    /\ exists p, activePlayer g = Some p /\ Player.canAct p = true
                 /\ others_folded g [activePlayerIndex g] in
  (thrown (processAction action amount g) = Some TypeError /\ folds_last)
  \/ (thrown (processAction action amount g) = None /\ ~ folds_last).
Proof.
  intros [Hlen Hok] folds_last.
  pose proof (processAction_shape action amount g Hlen (table_ok_dealable g Hok)) as Hr.
  assert (Hall : forall p, activePlayer g = Some p -> folds_last ->
                 filter_refs unfolded (<[activePlayerIndex g := Player.fold p]> (players g))
                 = []).
  { intros p Hp (_ & p1 & Hp1 & _ & Hothers).
    apply filter_refs_from_none. intros i x Hx.
    apply (folded_seat_lookup g p [] i x Hp Hothers); [intros []|exact Hx]. }
  destruct Hr as [Hp | p Hp Hc | p Hp Hc Href
                 | p p' delta cb k lg ga Hp Hc Hacc Hk g3 Hcomp
                 | p p' delta cb k lg ga adv Hp Hc Hacc Hk g3 Hcomp Hadv].
  - right. split; [reflexivity|]. intros (_ & q & Hq & _). congruence.
  - right. split; [reflexivity|]. intros (_ & q & Hq & Hcq & _). congruence.
  - right. split; [reflexivity|]. intros (-> & _). inversion Href.
  - right. split; [reflexivity|]. intros Hlast. pose proof Hlast as (-> & _).
    apply accepted_fold in Hacc as (-> & _ & _).
    rewrite isBettingRoundComplete_settled in Hcomp.
    + apply Ok_inj in Hcomp as [Hcomp _]. discriminate Hcomp.
    + unfold g3, moved, bet_applied. fields. rewrite marked_players.
      rewrite (Hall p Hp Hlast). cbn. lia.
  - assert (Hps3 : players g3 = <[activePlayerIndex g := p']> (players g)).
    { unfold g3, moved, bet_applied. fields. now rewrite marked_players. }
    assert (Hsome : folds_last -> filter_refs unfolded (players g3) = []).
    { intros Hlast. pose proof Hlast as (-> & _).
      apply accepted_fold in Hacc as (-> & _ & _).
      rewrite Hps3. exact (Hall p Hp Hlast). }
    destruct Hadv as [Hrefs | w rest winner lg' Hrefs Hwhy Hw
                     | ph n k' dk cs lg' ga' Hrefs Hnext Hdk Hcs Hk'
                     | k' lg' Hrefs Hnext Hnr Hk']; cbn [lift_advance thrown].
    + left. split; [reflexivity|].
      assert (Hfolded : Player.hasFolded p' = true).
      { assert (Hx : players g3 !! activePlayerIndex g = Some p').
        { rewrite Hps3. apply list_lookup_insert_eq. eapply lookup_lt_Some. exact Hp. }
        pose proof (filter_refs_nil unfolded _ _ _ Hrefs Hx) as Hu.
        unfold unfolded in Hu. now destruct (Player.hasFolded p'). }
      rewrite (accepted_hasFolded _ _ _ _ _ _ _ Hacc) in Hfolded.
      destruct (canAct_true p Hc) as (Hnf & _).
      destruct action; try congruence.
      split; [reflexivity|]. exists p. split; [exact Hp|]. split; [exact Hc|].
      intros i q Hi Hq.
      assert (Hx : players g3 !! i = Some q).
      { rewrite Hps3, list_lookup_insert_ne; [exact Hq|]. intros Heq. apply Hi. now left. }
      pose proof (filter_refs_nil unfolded _ _ _ Hrefs Hx) as Hu.
      unfold unfolded in Hu. now destruct (Player.hasFolded q).
    + right. split; [reflexivity|]. intros Hlast. rewrite (Hsome Hlast) in Hrefs.
      discriminate Hrefs.
    + right. split; [reflexivity|]. intros Hlast. rewrite (Hsome Hlast) in Hrefs.
      cbn in Hrefs. lia.
    + right. split; [reflexivity|]. intros Hlast. rewrite (Hsome Hlast) in Hrefs.
      cbn in Hrefs. lia.
Qed.

(** X10: on a table reached through the public methods, [processAction]
    throws in one case only: the active seat can act, every other seat has
    folded, and the action is FOLD.  Nobody is left to take the pot, and the
    settlement fails on the missing winner (a TypeError); in every other case
    the call returns. *)
Theorem processAction_throws_iff_last_seat_folds (g : t) action amount :
  reachable g ->
  (thrown (processAction action amount g) <> None
   <-> action = FOLD
       /\ exists p, activePlayer g = Some p /\ Player.canAct p = true
                    /\ others_folded g [activePlayerIndex g])
  /\ (forall e, thrown (processAction action amount g) = Some e -> e = TypeError).
Proof.
  intros Hg. pose proof (reachable_well_formed _ _ Hg) as Hwf.
  destruct (processAction_thrown action amount g Hwf) as [[Hthrow Hlast]|[Hnone Hnot]].
  - split.
    + split; [intros _; exact Hlast|]. intros _. rewrite Hthrow. discriminate.
    + intros e He. rewrite Hthrow in He. now injection He as <-.
  - split.
    + split; [intros H; contradiction|]. intros Hlast. contradiction.
    + intros e He. rewrite Hnone in He. discriminate He.
Qed.

Lemma processAction_throws_iff_last_seat_folds_witness :
  (phase folded_out = FINISHED
   /\ map Player.hasFolded (players folded_out) = [true; true; true; false; true; true]
   /\ activePlayerIndex folded_out = 3%nat
   /\ thrown (processAction FOLD None folded_out) = Some TypeError)
  /\ (thrown (processAction FOLD None folded_out) <> None
      <-> FOLD = FOLD
          /\ exists p, activePlayer folded_out = Some p /\ Player.canAct p = true
                       /\ others_folded folded_out [activePlayerIndex folded_out])
  /\ (forall e, thrown (processAction FOLD None folded_out) = Some e -> e = TypeError).
Proof.
  split; [by_evaluation|].
  apply (processAction_throws_iff_last_seat_folds folded_out FOLD None).
  apply play_reachable, table_reachable.
Defined.

Lemma stacks_total_fold ps i p :
  ps !! i = Some p -> stacks_total (<[i := Player.fold p]> ps) = stacks_total ps.
Proof. intros Hp. rewrite (stacks_total_insert _ _ p) by exact Hp. cbn. lia. Qed.

(** X11: when a FOLD leaves a single seat in the hand, the hand is
    finished and the whole pot is added to that seat's stack, the chips of
    the state lying in the range in which the source adds exactly (nothing
    negative, pot and stacks together at most 2^53).  The phase plays no part
    in this: the same happens in FINISHED, where the pot has been paid already
    and still holds its amount, so that the chips are paid a second time. *)
Theorem fold_to_last_seat_pays_pot (g : t) amount p w q :
  reachable g ->
  exact_chips g ->
  activePlayer g = Some p -> Player.canAct p = true ->
  w <> activePlayerIndex g -> players g !! w = Some q -> Player.hasFolded q = false ->
  others_folded g [activePlayerIndex g; w] ->
  exists g' q',
    processAction FOLD amount g = Ok true g'
    /\ phase g' = FINISHED
    /\ pot g' = pot g
    /\ players g' !! w = Some q'
    /\ Player.stack q' = Player.stack q + pot g
    /\ stacks_total (players g') = stacks_total (players g) + pot g.
Proof.
  intros Hg _ Hp Hc Hw Hq Hqf Hothers.
  pose proof (reachable_well_formed _ _ Hg) as [Hlen Hok].
  pose proof (processAction_shape FOLD amount g Hlen (table_ok_dealable g Hok)) as Hr.
  assert (Hrefs3 : filter_refs unfolded (<[activePlayerIndex g := Player.fold p]> (players g))
                   = [w]).
  { apply (filter_refs_from_single unfolded 0 _ w q).
    - intros i x Hi Hx. apply (folded_seat_lookup g p [w] i x Hp Hothers); [|exact Hx].
      intros [Heq|[]]. congruence.
    - rewrite list_lookup_insert_ne by congruence. exact Hq.
    - unfold unfolded. now rewrite Hqf. }
  destruct Hr as [Hp' | p0 Hp' Hc' | p0 Hp' Hc' Href
                 | p0 p' delta cb k lg ga Hp' Hc' Hacc Hk g3 Hcomp
                 | p0 p' delta cb k lg ga adv Hp' Hc' Hacc Hk g3 Hcomp Hadv];
    try congruence.
  - inversion Href.
  - exfalso. apply accepted_fold in Hacc as (-> & _ & _).
    assert (p0 = p) as -> by congruence.
    rewrite isBettingRoundComplete_settled in Hcomp.
    + apply Ok_inj in Hcomp as [Hcomp _]. discriminate Hcomp.
    + unfold g3, moved, bet_applied. fields. rewrite marked_players, Hrefs3. cbn. lia.
  - apply accepted_fold in Hacc as (-> & -> & ->).
    assert (p0 = p) as -> by congruence.
    assert (Hps3 : players g3 = <[activePlayerIndex g := Player.fold p]> (players g)).
    { unfold g3, moved, bet_applied. fields. now rewrite marked_players. }
    assert (Hpot3 : pot g3 = pot g).
    { unfold g3, moved, bet_applied. fields. rewrite marked_pot. lia. }
    rewrite <- Hps3 in Hrefs3. clearbody g3.
    destruct Hadv as [Hrefs | w' rest winner lg' Hrefs Hwhy Hwin
                     | ph n k' dk cs lg' ga' Hrefs Hnext Hdk Hcs Hk'
                     | k' lg' Hrefs Hnext Hnr Hk']; rewrite Hrefs3 in Hrefs;
      try discriminate Hrefs; try (cbn in Hrefs; lia).
    injection Hrefs as <- <-. cbn [lift_advance].
    assert (Hwinner : winner = clearStreet q).
    { rewrite lookup_map_clearStreet, Hps3, list_lookup_insert_ne in Hwin by congruence.
      rewrite Hq in Hwin. cbn in Hwin. now injection Hwin as <-. }
    subst winner.
    exists (paid w (clearStreet q) lg' (street_cleared g3)),
           (Player.set_stack (Player.stack (clearStreet q) + pot (street_cleared g3))
              (clearStreet q)).
    split; [reflexivity|]. split; [reflexivity|].
    unfold paid, street_cleared. fields.
    split; [exact Hpot3|]. split.
    { apply list_lookup_insert_eq. rewrite length_map_clearStreet, Hps3, length_insert.
      eapply lookup_lt_Some. exact Hq. }
    split; [cbn; now rewrite Hpot3|].
    rewrite (stacks_total_insert _ _ (clearStreet q)) by exact Hwin.
    rewrite stacks_total_clearStreet, Hps3, (stacks_total_fold _ _ _ Hp), Hpot3.
    cbn [Player.stack Player.set_stack]. lia.
Qed.

Lemma two_at_showdown_facts :
  phase two_at_showdown = FINISHED
  /\ pot two_at_showdown = 80
  /\ map Player.stack (players two_at_showdown) = [1000; 1000; 1040; 960; 1000; 1000]
  /\ stacks_total (players two_at_showdown) = 6000
  /\ activePlayerIndex two_at_showdown = 2%nat
  /\ map Player.hasFolded (players two_at_showdown) = [true; true; false; false; true; true].
Proof. by_evaluation. Qed.

Lemma others_folded_by_flags g keep flags :
  map Player.hasFolded (players g) = flags ->
  (forall i, flags !! i = Some false -> In i keep) ->
  others_folded g keep.
Proof.
  intros Hflags Hkeep i q Hi Hq.
  destruct (Player.hasFolded q) eqn:Hf; [reflexivity|]. exfalso. apply Hi, Hkeep.
  rewrite <- Hflags, list_lookup_fmap, Hq. cbn. now rewrite Hf.
Qed.

Lemma two_at_showdown_flags :
  (Player.canAct <$> activePlayer two_at_showdown) = Some true
  /\ ((fun q => (Player.hasFolded q, Player.stack q)) <$> (players two_at_showdown !! 3%nat))
     = Some (false, 960).
Proof. by_evaluation. Qed.

Lemma two_at_showdown_seats :
  exists p q,
    activePlayer two_at_showdown = Some p /\ Player.canAct p = true
    /\ players two_at_showdown !! 3%nat = Some q /\ Player.hasFolded q = false
    /\ Player.stack q = 960.
Proof.
  destruct two_at_showdown_flags as [H1 H2].
  destruct (activePlayer two_at_showdown) as [p|]; [|discriminate H1].
  destruct (players two_at_showdown !! 3%nat) as [q|]; [|discriminate H2].
  exists p, q. cbn [fmap option_fmap option_map] in H1, H2.
  injection H1 as H1. injection H2 as H2 H3. auto.
Qed.

Lemma two_at_showdown_exact : exact_chips two_at_showdown.
Proof. apply exact_chips_by_check. by_evaluation. Qed.

Lemma two_at_showdown_others :
  3%nat <> activePlayerIndex two_at_showdown
  /\ others_folded two_at_showdown [activePlayerIndex two_at_showdown; 3%nat].
Proof.
  destruct two_at_showdown_facts as (_ & _ & _ & _ & Hidx & Hflags).
  rewrite Hidx. split; [lia|].
  apply (others_folded_by_flags _ _ _ Hflags).
  intros [|[|[|[|[|[|i]]]]]] Hi; cbn in Hi; try discriminate Hi; cbn; auto.
Qed.

Lemma fold_to_last_seat_pays_pot_witness :
  (phase two_at_showdown = FINISHED
   /\ pot two_at_showdown = 80
   /\ map Player.stack (players two_at_showdown) = [1000; 1000; 1040; 960; 1000; 1000]
   /\ stacks_total (players two_at_showdown) = 6000
   /\ activePlayerIndex two_at_showdown = 2%nat
   /\ map Player.hasFolded (players two_at_showdown) = [true; true; false; false; true; true])
  /\ exists q,
       players two_at_showdown !! 3%nat = Some q
       /\ Player.stack q = 960
       /\ exists g' q',
            processAction FOLD None two_at_showdown = Ok true g'
            /\ phase g' = FINISHED
            /\ pot g' = pot two_at_showdown
            /\ players g' !! 3%nat = Some q'
            /\ Player.stack q' = Player.stack q + pot two_at_showdown
            /\ stacks_total (players g')
               = stacks_total (players two_at_showdown) + pot two_at_showdown.
Proof.
  split; [exact two_at_showdown_facts|].
  destruct two_at_showdown_seats as (p & q & Hp & Hc & Hq & Hqf & Hqs).
  exists q. split; [exact Hq|]. split; [exact Hqs|].
  apply (fold_to_last_seat_pays_pot two_at_showdown None p 3%nat q).
  - apply play_reachable, table_reachable.
  - exact two_at_showdown_exact.
  - exact Hp.
  - exact Hc.
  - exact (proj1 two_at_showdown_others).
  - exact Hq.
  - exact Hqf.
  - exact (proj2 two_at_showdown_others).
Defined.

(** * The hand result *)

Lemma core_initialStacks g g' : core g = core g' -> initialStacks g = initialStacks g'.
Proof. unfold core. intros H. injection H as _ _ _ _ _ _ _ _ _ ->. reflexivity. Qed.

Lemma initialStacks_keeps_core {A} (m : M A) :
  keeps_core m -> preserves eq initialStacks m.
Proof. intros H. papply preserves_core; [apply core_initialStacks|exact H]. Qed.

Lemma initialStacks_setActivePlayer : preserves eq initialStacks setActivePlayer.
Proof. apply initialStacks_keeps_core, keeps_core_setActivePlayer. Qed.

Lemma initialStacks_moveToNextPlayer : preserves eq initialStacks moveToNextPlayer.
Proof. apply initialStacks_keeps_core, keeps_core_moveToNextPlayer. Qed.

Lemma initialStacks_isBettingRoundComplete : preserves eq initialStacks isBettingRoundComplete.
Proof. apply initialStacks_keeps_core, keeps_core_isBettingRoundComplete. Qed.

#[local] Hint Resolve initialStacks_setActivePlayer initialStacks_moveToNextPlayer
  initialStacks_isBettingRoundComplete : frames.

Lemma initialStacks_processHandCompletion : preserves eq initialStacks processHandCompletion.
Proof. unfold processHandCompletion. repeat frame_step. Qed.

#[local] Hint Resolve initialStacks_processHandCompletion : frames.

Lemma initialStacks_advanceToNextPhase : preserves eq initialStacks advanceToNextPhase.
Proof.
  unfold advanceToNextPhase, processShowdown, dealFlop, dealTurn, dealRiver, pushCommunityCard.
  repeat frame_step.
Qed.

#[local] Hint Resolve initialStacks_advanceToNextPhase : frames.

Lemma initialStacks_processAction action amount :
  preserves eq initialStacks (processAction action amount).
Proof.
  unfold processAction, applyAction. repeat frame_step.
Qed.

Lemma in_hand_initialStacks stacks g :
  in_hand stacks g -> initialStacks g = stacks /\ length stacks = 6%nat.
Proof.
  induction 1 as [g0 g1 rnd uuid g Hreach Hset Hstart | g action amount g' _ IH Hnf Hrun].
  - pose proof (reachable_well_formed _ _ Hreach) as [Hlen0 Hok0].
    destruct (setPlayerStacks_shape stacks g0 Hlen0) as [[_ Hthrow]|[Hs Heq]];
      [rewrite Hthrow in Hset; discriminate|].
    rewrite Heq in Hset. apply Ok_inj in Hset as [_ <-]. split; [|exact Hs].
    match type of Hstart with startNewHand _ _ ?s = _ => set (g1 := s) in * end.
    assert (Hlen1 : length (players g1) = 6%nat).
    { unfold g1. fields. rewrite restacked_length; congruence. }
    destruct (Nat.eq_dec (seats_with_chips (players g1)) 0%nat) as [Hz|Hnz].
    { apply seats_with_chips_zero in Hz.
      rewrite (startNewHand_broke rnd uuid g1) in Hstart by (try rewrite Hlen1; auto; lia).
      discriminate. }
    assert (Hex : Exists (fun p => Player.stack p <> 0) (players g1)).
    { apply seats_with_chips_pos. lia. }
    destruct (startNewHand_funded rnd uuid g1 Hlen1 Hex) as (g'' & Heq' & Hst).
    rewrite Heq' in Hstart. apply Ok_inj in Hstart as [_ <-].
    destruct Hst as (cards & d & sb & bb & g2 & _ & _ & _ & _ & _ & _ & _ & _ & _ & _
                     & Hist & _). exact Hist.
  - destruct IH as [IH Hs]. split; [|exact Hs].
    rewrite <- IH. apply (preserves_Ok eq initialStacks _ _ _ _
                            (initialStacks_processAction action amount) Hrun).
Qed.

Lemma generateHandResult_ok now g :
  length (players g) = 6%nat ->
  exists h,
    generateHandResult now g = Ok h g
    /\ HandResult.handId h = handId g
    /\ HandResult.stackSettings h = initialStacks g
    /\ HandResult.positions h
       = HandResult.mk_positions (dealerIndex g) (smallBlindIndex g) (bigBlindIndex g)
    /\ HandResult.holeCards h
       = imap (fun i p => (i, Player.getHoleCardsString p)) (players g)
    /\ HandResult.actionSequence h = join " " (map GameAction.action (gameActions g))
    /\ HandResult.winnings h
       = imap (fun i p => (i, Player.stack p - initialStack_or_default (initialStacks g) i))
           (players g)
    /\ HandResult.timestamp h = now.
Proof.
  intros Hlen.
  destruct g as [dk ps cc pt cb ai di sbi bbi ph lg ga hid fa ist]. cbn [players] in Hlen.
  destruct ps as [|p0 [|p1 [|p2 [|p3 [|p4 [|p5 [|]]]]]]]; try discriminate.
  eexists. split.
  { cbv -[initialStack_or_default Z.sub Player.getHoleCardsString join map]. reflexivity. }
  cbn. auto 10.
Qed.

Lemma sumZ_baseline (stacks : list Z) :
  sumZ (map baseline stacks) = sumZ stacks + 1000 * Z.of_nat (zero_stacks stacks).
Proof.
  unfold zero_stacks, baseline. induction stacks as [|s stacks IH]; [reflexivity|].
  cbn [map sumZ List.filter]. rewrite IH.
  destruct (Z.eqb_spec s 0); cbn [length]; lia.
Qed.

(** X12: [generateHandResult] leaves the engine as it is and reports, for
    each seat, its stack less the stack it was configured with, a configured
    stack of 0 counting as 1000.  In a hand started with [setPlayerStacks] and
    [startNewHand], the stacks given being non-negative with a sum of at most
    2^53 (the range in which the source adds and subtracts chips exactly), the
    reported winnings therefore add up to minus the pot while the hand is in
    progress and to 0 once it is finished, less 1000 for each seat configured
    with no chips. *)
Theorem reported_winnings_balance (stacks : list Z) (g : t) (now : Z) :
  bounded_stacks stacks ->
  in_hand stacks g ->
  exists h,
    generateHandResult now g = Ok h g
    /\ HandResult.stackSettings h = stacks
    /\ (forall i p s, players g !! i = Some p -> stacks !! i = Some s ->
          HandResult.winnings h !! i = Some (i, Player.stack p - baseline s))
    /\ sumZ (map snd (HandResult.winnings h))
       = (if phase_eqb (phase g) FINISHED then 0 else - pot g)
         - 1000 * Z.of_nat (zero_stacks stacks).
Proof.
  intros _ Hin.
  destruct (in_hand_initialStacks stacks g Hin) as [Hist Hs].
  destruct (in_hand_inv stacks g Hin) as [[Hlen _] Hsum].
  destruct (generateHandResult_ok now g Hlen) as (h & Hrun & _ & Hset & _ & _ & _ & Hwin & _).
  exists h. split; [exact Hrun|]. rewrite Hist in Hset, Hwin. split; [exact Hset|].
  rewrite Hwin. split.
  - intros i p s Hp Hsi. rewrite list_lookup_imap, Hp. cbn.
    unfold initialStack_or_default, baseline. now rewrite Hsi.
  - assert (Hbal : sumZ (map snd (imap (fun i p =>
                      (i, Player.stack p - initialStack_or_default stacks i)) (players g)))
                   = stacks_total (players g) - sumZ (map baseline stacks)).
    { unfold stacks_total, initialStack_or_default, baseline.
      destruct (players g) as [|p0 [|p1 [|p2 [|p3 [|p4 [|p5 [|]]]]]]]; try discriminate.
      destruct stacks as [|s0 [|s1 [|s2 [|s3 [|s4 [|s5 [|]]]]]]]; try discriminate.
      cbn. lia. }
    rewrite Hbal, sumZ_baseline.
    destruct Hsum as [[Hph Hsum]|[Hph Hsum]].
    + destruct (phase g); try discriminate Hph; cbn [phase_eqb]; lia.
    + rewrite Hph. cbn [phase_eqb]. lia.
Qed.

Lemma gapped_in_hand : in_hand gapped_stacks (table gapped_stacks).
Proof. apply table_in_hand; [reflexivity|vm_compute; discriminate]. Qed.

Lemma gapped_stacks_bounded : bounded_stacks gapped_stacks.
Proof. split; [repeat constructor; lia|vm_compute; discriminate]. Qed.

Lemma reported_winnings_balance_witness :
  (phase (table gapped_stacks) = PREFLOP
   /\ pot (table gapped_stacks) = 60
   /\ map Player.stack (players (table gapped_stacks)) = [960; 0; 0; 1000; 0; 980]
   /\ zero_stacks gapped_stacks = 3%nat)
  /\ exists h,
       generateHandResult 0 (table gapped_stacks) = Ok h (table gapped_stacks)
       /\ HandResult.stackSettings h = gapped_stacks
       /\ (forall i p s,
             players (table gapped_stacks) !! i = Some p -> gapped_stacks !! i = Some s ->
             HandResult.winnings h !! i = Some (i, Player.stack p - baseline s))
       /\ sumZ (map snd (HandResult.winnings h))
          = (if phase_eqb (phase (table gapped_stacks)) FINISHED then 0
             else - pot (table gapped_stacks))
            - 1000 * Z.of_nat (zero_stacks gapped_stacks).
Proof.
  split; [by_evaluation|].
  apply (reported_winnings_balance gapped_stacks (table gapped_stacks) 0).
  - exact gapped_stacks_bounded.
  - exact gapped_in_hand.
Defined.

(** * Starting over *)

(** X13: [startNewHand] drops whatever the pot holds.  When it returns,
    the chips of the state it was called in lying in the range in which the
    source subtracts exactly (nothing negative, pot and stacks together at
    most 2^53), the new pot holds what the two blinds posted, at most 60
    chips, and pot plus stacks equals the stacks the seats had before the
    call: the chips of a hand that was still in progress are gone. *)
Theorem startNewHand_discards_pot rnd uuid (g g' : t) :
  length (players g) = 6%nat ->
  exact_chips g ->
  startNewHand rnd uuid g = Ok tt g' ->
  pot g' <= 60
  /\ pot g' + stacks_total (players g') = stacks_total (players g).
Proof.
  intros Hlen _ Hrun.
  destruct (Nat.eq_dec (seats_with_chips (players g)) 0%nat) as [Hz|Hnz].
  { apply seats_with_chips_zero in Hz.
    rewrite (startNewHand_broke rnd uuid g) in Hrun by (try rewrite Hlen; auto; lia).
    discriminate Hrun. }
  assert (Hex : Exists (fun p => Player.stack p <> 0) (players g)).
  { apply seats_with_chips_pos. lia. }
  destruct (startNewHand_funded rnd uuid g Hlen Hex) as (g'' & Heq & Hst).
  rewrite Heq in Hrun. apply Ok_inj in Hrun as [_ <-].
  split; [|exact (started_conserves _ _ _ Hst)].
  destruct Hst as (cards & d & sb & bb & g2 & (Hd & Hsb & Hbb) & _ & _ & Hblinds & _ & Hpot & _).
  rewrite Hpot.
  destruct (postBlinds_ok (seated d sb bb (cleared cards uuid g))) as (p & q & _ & _ & Heq2).
  { unfold seated, cleared. fields. now rewrite length_map_reset, Hlen. }
  { unfold seated, cleared. fields. now rewrite length_map_reset, Hlen. }
  rewrite Heq2 in Hblinds. apply Ok_inj in Hblinds as [_ <-]. fields.
  rewrite !bet_committed. unfold seated, cleared, SMALL_BLIND, BIG_BLIND. fields. lia.
Qed.

Lemma restarted_start :
  length (players on_the_flop) = 6%nat
  /\ startNewHand rnd_id "hand-2" on_the_flop = Ok tt restarted.
Proof. by_evaluation. Qed.

Lemma on_the_flop_exact : exact_chips on_the_flop.
Proof. apply exact_chips_by_check. by_evaluation. Qed.

Lemma startNewHand_discards_pot_witness :
  (phase on_the_flop = FLOP
   /\ pot on_the_flop = 240
   /\ pot on_the_flop + stacks_total (players on_the_flop) = 6000
   /\ pot restarted + stacks_total (players restarted) = 5760)
  /\ pot restarted <= 60
  /\ pot restarted + stacks_total (players restarted) = stacks_total (players on_the_flop).
Proof.
  split; [by_evaluation|].
  apply (startNewHand_discards_pot rnd_id "hand-2" on_the_flop restarted).
  - exact (proj1 restarted_start).
  - exact on_the_flop_exact.
  - exact (proj2 restarted_start).
Defined.

(** * A hand that cannot move *)

Lemma processAction_idle action amount g :
  (forall p, activePlayer g = Some p -> Player.canAct p = false) ->
  processAction action amount g = Ok false g.
Proof.
  intros H. rewrite processAction_unfold. unfold activePlayer in H.
  destruct (players g !! activePlayerIndex g) as [p|]; [|reflexivity].
  now rewrite (H p eq_refl).
Qed.

Lemma play_idle acts g :
  (forall p, activePlayer g = Some p -> Player.canAct p = false) -> play acts g = g.
Proof.
  intros H. induction acts as [|[a amt] acts IH]; [reflexivity|].
  cbn [play fold_left fst snd]. rewrite (processAction_idle a amt g H). exact IH.
Qed.

(** A method whose normal result is [true]. *)
Lemma bind_returns_true {A} (m : M A) (k : A -> M bool) g b g' :
  (forall a s, k a s = Ok b g' -> b = true) -> bind m k g = Ok b g' -> b = true.
Proof.
  intros Hk H. apply bind_Ok_inv in H as (a & s & _ & H). exact (Hk a s H).
Qed.

Lemma settle_returns_true idx a d s g b g' : settle idx a d s g = Ok b g' -> b = true.
Proof.
  unfold settle.
  apply bind_returns_true. intros _ s1.
  apply bind_returns_true. intros ph s2.
  apply bind_returns_true. intros _ s3.
  apply bind_returns_true. intros _ s4.
  apply bind_returns_true. intros complete s5.
  apply bind_returns_true. intros _ s6.
  unfold ret. intros H. apply Ok_inj in H as [<- _]. reflexivity.
Qed.

(** [processAction] returns [false] exactly when the switch refuses the
    action of a seat that can act, or the active seat cannot act. *)
Lemma processAction_refuses action amount g p :
  activePlayer g = Some p -> Player.canAct p = true ->
  (exists g', processAction action amount g = Ok false g')
  <-> refused (currentBet g) p action amount.
Proof.
  intros Hp Hc. rewrite processAction_unfold. unfold activePlayer in Hp. rewrite Hp, Hc.
  cbn [negb].
  destruct (applyAction_shape (activePlayerIndex g) p action amount (marked g))
    as [[Href Heq]|(p' & delta & cb & d & s & Hacc & Heq)];
    rewrite Heq; rewrite marked_currentBet in *.
  - split; [intros _; exact Href|]. intros _. eauto.
  - split.
    + intros [g' H]. apply settle_returns_true in H. discriminate H.
    + intros Href. exfalso. clear Heq.
      destruct Hacc; inversion Href; subst; try lia;
        match goal with
        | H : amount_missing (Some _) = true \/ _ |- _ =>
            destruct H as [H|H]; [cbn in H; apply Z.eqb_eq in H; contradiction|]
        end;
        change (amount_value (Some a)) with a in *; lia.
Qed.

(** X14: the hand moves exactly when the active seat can act.  A FOLD of
    a seat that can act is never refused; when the active seat cannot act,
    [getValidActions] is empty and no sequence of calls of [processAction]
    changes anything, so that a hand in which the blinds have put every funded
    seat all-in stays in PREFLOP with its pot unpaid. *)
Theorem hand_moves_iff_active_seat_can_act (g : t) :
  ((exists p, activePlayer g = Some p /\ Player.canAct p = true) ->
     forall amount g', processAction FOLD amount g <> Ok false g')
  /\ ((forall p, activePlayer g = Some p -> Player.canAct p = false) ->
       getValidActions g = []
       /\ forall acts, play acts g = g).
Proof.
  split.
  - intros (p & Hp & Hc) amount g' H.
    assert (Href : refused (currentBet g) p FOLD amount).
    { apply (processAction_refuses FOLD amount g p Hp Hc). eauto. }
    inversion Href.
  - intros Hidle. split; [|intros acts; now apply play_idle].
    unfold getValidActions. unfold activePlayer in Hidle.
    destruct (players g !! activePlayerIndex g) as [p|]; [|reflexivity].
    now rewrite (Hidle p eq_refl).
Qed.

Lemma blinds_all_in_facts :
  phase blinds_all_in = PREFLOP
  /\ pot blinds_all_in = 60
  /\ map Player.stack (players blinds_all_in) = [0; 0; 0; 0; 0; 0]
  /\ map Player.isAllIn (players blinds_all_in) = [true; true; false; false; false; false]
  /\ (Player.canAct <$> activePlayer blinds_all_in) = Some false.
Proof. by_evaluation. Qed.

Lemma blinds_all_in_idle p :
  activePlayer blinds_all_in = Some p -> Player.canAct p = false.
Proof.
  intros Hp. destruct blinds_all_in_facts as (_ & _ & _ & _ & H).
  rewrite Hp in H. cbn [fmap option_fmap option_map] in H. now injection H.
Qed.

Lemma hand_moves_iff_active_seat_can_act_witness :
  (phase blinds_all_in = PREFLOP
   /\ pot blinds_all_in = 60
   /\ map Player.stack (players blinds_all_in) = [0; 0; 0; 0; 0; 0]
   /\ map Player.isAllIn (players blinds_all_in) = [true; true; false; false; false; false]
   /\ (Player.canAct <$> activePlayer blinds_all_in) = Some false)
  /\ getValidActions blinds_all_in = []
  /\ forall acts, play acts blinds_all_in = blinds_all_in.
Proof.
  split; [exact blinds_all_in_facts|].
  apply (proj2 (hand_moves_iff_active_seat_can_act blinds_all_in)).
  exact blinds_all_in_idle.
Defined.

(** * Raises and the pot *)

Lemma accepted_raise tableBet p a p' delta cb :
  accepted tableBet p RAISE (Some a) p' delta cb ->
  delta = Z.min (a - Player.currentBet p) (Player.stack p) /\ tableBet < a.
Proof. intros H. inversion H. subst. split; [apply bet_committed|assumption]. Qed.

(** X15: an accepted RAISE to [a] moves [min (a - street bet, stack)]
    chips of the acting seat to the pot, and the only bound the engine puts
    on [a] is the table bet; the amount and the chips of the state lie in the
    range in which the source adds and subtracts exactly (nothing negative,
    [a] and pot plus stacks at most 2^53).  When the table bet has dropped
    below what the seat has in front of it, a raise to an amount in between is
    accepted and the amount moved is negative: the pot shrinks and the seat
    takes chips back. *)
Theorem raise_moves_chips_either_way (g g' : t) (a : Z) p :
  reachable g ->
  exact_chips g -> a <= MAX_EXACT ->
  activePlayer g = Some p ->
  processAction RAISE (Some a) g = Ok true g' ->
  currentBet g < a
  /\ pot g' = pot g + Z.min (a - Player.currentBet p) (Player.stack p)
  /\ (a < Player.currentBet p -> pot g' < pot g).
Proof.
  intros Hg _ _ Hp Hrun.
  pose proof (reachable_well_formed _ _ Hg) as [Hlen Hok].
  pose proof (processAction_shape RAISE (Some a) g Hlen (table_ok_dealable g Hok)) as Hr.
  rewrite Hrun in Hr.
  assert (Hpot : pot g' = pot g + Z.min (a - Player.currentBet p) (Player.stack p)
                 /\ currentBet g < a).
  { remember (Ok true g') as r eqn:Hreq.
    destruct Hr as [Hp' | p0 Hp' Hc | p0 Hp' Hc Href
                   | p0 p' delta cb k lg ga Hp' Hc Hacc Hk g3 Hcomp
                   | p0 p' delta cb k lg ga adv Hp' Hc Hacc Hk g3 Hcomp Hadv];
      try discriminate Hreq.
    - assert (p0 = p) as -> by congruence.
      apply accepted_raise in Hacc as [-> Hlt]. apply Ok_inj in Hreq as [_ <-].
      split; [|exact Hlt]. unfold g3, moved, bet_applied. fields. now rewrite marked_pot.
    - assert (p0 = p) as -> by congruence.
      apply accepted_raise in Hacc as [-> Hlt]. split; [|exact Hlt].
      destruct (advance_keeps_bets g3 adv Hadv) as [Hpot3 _].
      replace g' with (state_of adv)
        by (destruct adv; cbn [lift_advance state_of] in *; congruence).
      rewrite Hpot3. unfold g3, moved, bet_applied. fields. now rewrite marked_pot. }
  destruct Hpot as [Hpot Hlt]. split; [exact Hlt|]. split; [exact Hpot|]. lia.
Qed.

Lemma overpaid_blind_facts :
  pot overpaid_blind = 80
  /\ currentBet overpaid_blind = 20
  /\ ((fun p => (Player.currentBet p, Player.stack p)) <$> activePlayer overpaid_blind)
     = Some (40, 960)
  /\ (pot <$> (Some (state_of (processAction RAISE (Some 30) overpaid_blind)))) = Some 70
  /\ processAction RAISE (Some 30) overpaid_blind
     = Ok true (state_of (processAction RAISE (Some 30) overpaid_blind)).
Proof. by_evaluation. Qed.

Lemma overpaid_blind_exact : exact_chips overpaid_blind.
Proof. apply exact_chips_by_check. by_evaluation. Qed.

Lemma raise_moves_chips_either_way_witness :
  (pot overpaid_blind = 80 /\ currentBet overpaid_blind = 20)
  /\ exists p,
       activePlayer overpaid_blind = Some p
       /\ Player.currentBet p = 40
       /\ currentBet overpaid_blind < 30
       /\ pot (state_of (processAction RAISE (Some 30) overpaid_blind))
          = pot overpaid_blind + Z.min (30 - Player.currentBet p) (Player.stack p)
       /\ (30 < Player.currentBet p ->
           pot (state_of (processAction RAISE (Some 30) overpaid_blind)) < pot overpaid_blind).
Proof.
  destruct overpaid_blind_facts as (Hpot & Hcb & Hseat & _ & Hrun).
  split; [split; [exact Hpot|exact Hcb]|].
  destruct (activePlayer overpaid_blind) as [p|] eqn:Hp; [|discriminate Hseat].
  cbn [fmap option_fmap option_map] in Hseat. injection Hseat as Hpcb Hps.
  exists p. split; [reflexivity|]. split; [exact Hpcb|].
  apply (raise_moves_chips_either_way overpaid_blind
           (state_of (processAction RAISE (Some 30) overpaid_blind)) 30 p).
  - apply play_reachable, play_reachable, table_reachable.
  - exact overpaid_blind_exact.
  - unfold MAX_EXACT. lia.
  - exact Hp.
  - exact Hrun.
Defined.

(** * Valid actions that are refused *)

Lemma getValidActions_listed g action :
  In action (getValidActions g) ->
  exists p,
    activePlayer g = Some p /\ Player.canAct p = true
    /\ In action
         ([FOLD]
          ++ (if amountToCall g p =? 0
              then [CHECK] ++ (if BIG_BLIND <=? Player.stack p then [BET] else [])
              else (if amountToCall g p <=? Player.stack p then [CALL] else [])
                   ++ (if (amountToCall g p <? Player.stack p)
                          && (BIG_BLIND <=? Player.stack p)
                       then [RAISE] else []))
          ++ (if 0 <? Player.stack p then [ALL_IN] else [])).
Proof.
  unfold getValidActions, activePlayer, amountToCall.
  destruct (players g !! activePlayerIndex g) as [p|]; [|intros []].
  destruct (Player.canAct p) eqn:Hc; cbn [negb orb]; [|intros []].
  destruct (phase_eqb (phase g) FINISHED || phase_eqb (phase g) SETUP); [intros []|].
  intros H. exists p. auto.
Qed.

(** X16: an action that [getValidActions] lists is refused by
    [processAction] in three cases only, whatever amount of at least the big
    blind (BET) or above the table bet (RAISE) comes with it: BET while the
    table bet is not 0, which the list offers to a seat whose own bet equals
    the table bet; CALL when the amount to call is negative; RAISE while the
    table bet is 0. *)
Theorem listed_action_refused_iff (g : t) action amount p :
  activePlayer g = Some p ->
  In action (getValidActions g) ->
  amount_fits g action amount ->
  ((exists g', processAction action amount g = Ok false g')
   <-> (action = BET /\ 0 < currentBet g)
       \/ (action = CALL /\ amountToCall g p < 0)
       \/ (action = RAISE /\ currentBet g = 0)).
Proof.
  intros Hp Hin Hfits.
  destruct (getValidActions_listed g action Hin) as (p0 & Hp0 & Hc & Hlist).
  assert (p0 = p) as -> by congruence. clear Hp0.
  rewrite (processAction_refuses action amount g p Hp Hc).
  unfold amountToCall in *.
  assert (Hcases :
    action = FOLD \/ action = ALL_IN
    \/ (action = CHECK /\ currentBet g - Player.currentBet p = 0)
    \/ (action = BET /\ currentBet g - Player.currentBet p = 0)
    \/ (action = CALL /\ currentBet g - Player.currentBet p <> 0)
    \/ (action = RAISE /\ currentBet g - Player.currentBet p <> 0)).
  { cbn [app] in Hlist. destruct Hlist as [<-|Hlist]; [auto|].
    apply in_app_or in Hlist as [Hlist|Hlist].
    - destruct (Z.eqb_spec (currentBet g - Player.currentBet p) 0) as [Hz|Hz].
      + destruct Hlist as [<-|Hlist]; [auto 6|].
        destruct (BIG_BLIND <=? Player.stack p); [|destruct Hlist].
        destruct Hlist as [<-|[]]. auto 6.
      + apply in_app_or in Hlist as [Hlist|Hlist].
        * destruct (_ <=? _); [|destruct Hlist]. destruct Hlist as [<-|[]]. auto 8.
        * destruct (_ && _); [|destruct Hlist]. destruct Hlist as [<-|[]]. auto 8.
    - destruct (0 <? Player.stack p); [|destruct Hlist]. destruct Hlist as [<-|[]]. auto. }
  destruct Hcases as [->|[->|[[-> Hz]|[[-> Hz]|[[-> Hz]|[-> Hz]]]]]]; cbn in Hfits.
  - split; [intros H; inversion H|intros [[H _]|[[H _]|[H _]]]; discriminate H].
  - split; [intros H; inversion H|intros [[H _]|[[H _]|[H _]]]; discriminate H].
  - split; [intros H; inversion H; lia|intros [[H _]|[[H _]|[H _]]]; discriminate H].
  - destruct Hfits as (a & -> & Ha). split.
    + intros H. left. split; [reflexivity|].
      inversion H as [| |? Hlvl|? Hlvl Ham| | |]; subst; [exact Hlvl|].
      exfalso. destruct Ham as [Ham|Ham].
      * cbn in Ham. apply Z.eqb_eq in Ham. unfold BIG_BLIND in Ha. lia.
      * change (amount_value (Some a)) with a in Ham. lia.
    + intros [[_ H]|[[H _]|[H _]]]; try discriminate H. now apply ref_bet_level.
  - split.
    + intros H. right. left. split; [reflexivity|]. inversion H; subst. lia.
    + intros [[H _]|[[_ H]|[H _]]]; try discriminate H. apply ref_call. lia.
  - destruct Hfits as (a & -> & Ha0 & Ha). split.
    + intros H. right. right. split; [reflexivity|].
      inversion H as [| | | |? Hlvl|? Hlvl Ham|]; subst; [exact Hlvl|].
      exfalso. destruct Ham as [Ham|Ham].
      * cbn in Ham. apply Z.eqb_eq in Ham. contradiction.
      * change (amount_value (Some a)) with a in Ham. lia.
    + intros [[H _]|[[H _]|[_ H]]]; try discriminate H. now apply ref_raise_level.
Qed.

Lemma lowered_bet_facts :
  currentBet lowered_bet = 20
  /\ getValidActions lowered_bet = [FOLD; CHECK; BET; ALL_IN]
  /\ ((fun p => (Player.currentBet p, Player.stack p)) <$> activePlayer lowered_bet)
     = Some (20, 980)
  /\ processAction BET (Some 40) lowered_bet
     = Ok false (state_of (processAction BET (Some 40) lowered_bet)).
Proof. by_evaluation. Qed.

Lemma listed_action_refused_iff_witness :
  (currentBet lowered_bet = 20
   /\ getValidActions lowered_bet = [FOLD; CHECK; BET; ALL_IN])
  /\ exists p,
       activePlayer lowered_bet = Some p
       /\ ((exists g', processAction BET (Some 40) lowered_bet = Ok false g')
           <-> (BET = BET /\ 0 < currentBet lowered_bet)
               \/ (BET = CALL /\ amountToCall lowered_bet p < 0)
               \/ (BET = RAISE /\ currentBet lowered_bet = 0)).
Proof.
  destruct lowered_bet_facts as (Hcb & Hvalid & Hseat & Hrun).
  split; [split; [exact Hcb|exact Hvalid]|].
  destruct (activePlayer lowered_bet) as [p|] eqn:Hp; [|discriminate Hseat].
  exists p. split; [reflexivity|].
  apply (listed_action_refused_iff lowered_bet BET (Some 40) p).
  - exact Hp.
  - rewrite Hvalid. cbn. auto.
  - exists 40. split; [reflexivity|]. unfold BIG_BLIND. lia.
Defined.

(** * The action history *)

#[local] Instance board_suffix_preorder : PreOrder board_suffix.
Proof.
  split.
  - intros l. exists []. split; [now rewrite app_nil_r|constructor].
  - intros l3 l2 l1 (b2 & -> & H2) (b1 & -> & H1).
    exists (b1 ++ b2). split; [now rewrite app_assoc|]. now apply Forall_app.
Qed.

Lemma history_board (s ph : string) :
  preserves board_suffix gameActions (pushGameAction (GameAction.mk (-1) s None ph)).
Proof.
  intros g. cbn [state_of pushGameAction modify]. fields.
  eexists. split; [reflexivity|]. constructor; [split; reflexivity|constructor].
Qed.

Lemma history_setActivePlayer : preserves board_suffix gameActions setActivePlayer.
Proof. apply preserves_setActivePlayer; [typeclasses eauto|reflexivity]. Qed.

Lemma history_moveToNextPlayer : preserves board_suffix gameActions moveToNextPlayer.
Proof. apply preserves_moveToNextPlayer; [typeclasses eauto|reflexivity]. Qed.

Lemma history_isBettingRoundComplete :
  preserves board_suffix gameActions isBettingRoundComplete.
Proof. apply preserves_isBettingRoundComplete. typeclasses eauto. Qed.

#[local] Hint Resolve history_board history_setActivePlayer history_moveToNextPlayer
  history_isBettingRoundComplete : frames.

Lemma history_advanceToNextPhase : preserves board_suffix gameActions advanceToNextPhase.
Proof.
  unfold advanceToNextPhase, processShowdown, processHandCompletion,
    dealFlop, dealTurn, dealRiver, pushCommunityCard.
  repeat frame_step.
Qed.

#[local] Hint Resolve history_advanceToNextPhase : frames.

Lemma pot_setActivePlayer : preserves eq pot setActivePlayer.
Proof. apply preserves_setActivePlayer; [typeclasses eauto|reflexivity]. Qed.

Lemma pot_moveToNextPlayer : preserves eq pot moveToNextPlayer.
Proof. apply preserves_moveToNextPlayer; [typeclasses eauto|reflexivity]. Qed.

Lemma pot_isBettingRoundComplete : preserves eq pot isBettingRoundComplete.
Proof. apply preserves_isBettingRoundComplete. typeclasses eauto. Qed.

#[local] Hint Resolve pot_setActivePlayer pot_moveToNextPlayer
  pot_isBettingRoundComplete : frames.

Lemma pot_advanceToNextPhase : preserves eq pot advanceToNextPhase.
Proof.
  unfold advanceToNextPhase, processShowdown, processHandCompletion,
    dealFlop, dealTurn, dealRiver, pushCommunityCard.
  repeat frame_step.
Qed.

#[local] Hint Resolve pot_advanceToNextPhase : frames.

Lemma pot_settle idx a d s : preserves eq pot (settle idx a d s).
Proof. unfold settle. repeat frame_step. Qed.

Lemma settle_history idx a d s g b g' :
  settle idx a d s g = Ok b g' ->
  board_suffix (gameActions g')
    (gameActions g
     ++ [GameAction.mk (Z.of_nat idx) s (Some a) (phase_value (phase g))]).
Proof.
  unfold settle. intros H.
  apply bind_Ok_inv in H as ([] & s1 & H1 & H).
  unfold logAction, modify in H1. apply Ok_inj in H1 as [_ <-].
  apply bind_Ok_inv in H as (ph & s2 & H2 & H).
  unfold gets in H2. apply Ok_inj in H2 as [<- <-].
  apply bind_Ok_inv in H as ([] & s3 & H3 & H).
  unfold pushGameAction, modify in H3. apply Ok_inj in H3 as [_ <-].
  apply (preserves_Ok board_suffix gameActions) in H.
  - exact H.
  - repeat frame_step.
Qed.

Lemma applyAction_code idx p action amount g delta d s g1 :
  applyAction idx p action amount g = Ok (Some (delta, d, s)) g1 ->
  s = short_code action delta (Player.currentBet p + delta).
Proof.
  unfold applyAction, bind, gets. cbn beta iota.
  destruct action.
  - unfold bind, setPlayer, modify, ret. intros H. apply Ok_inj in H as [H _].
    now injection H as _ _ <-.
  - destruct (0 <? _); unfold bind, setPlayer, modify, ret; intros H;
      apply Ok_inj in H as [H _]; [discriminate H|now injection H as _ _ <-].
  - destruct (_ <=? 0); [intros H; apply Ok_inj in H as [H _]; discriminate H|].
    destruct (Player.call _ p) as [a p'].
    unfold bind, setPlayer, modify, ret. intros H. apply Ok_inj in H as [H _].
    now injection H as _ _ <-.
  - destruct (0 <? _); [intros H; apply Ok_inj in H as [H _]; discriminate H|].
    destruct (_ || _); [intros H; apply Ok_inj in H as [H _]; discriminate H|].
    destruct (Player.bet _ p) as [x p'].
    unfold bind, setPlayer, modify, ret. intros H. apply Ok_inj in H as [H _].
    now injection H as <- _ <-.
  - destruct (_ =? 0); [intros H; apply Ok_inj in H as [H _]; discriminate H|].
    destruct (_ || _); [intros H; apply Ok_inj in H as [H _]; discriminate H|].
    pose proof (bet_currentBet (amount_value amount - Player.currentBet p) p) as Hcb.
    pose proof (bet_committed (amount_value amount - Player.currentBet p) p) as Hx.
    destruct (Player.bet _ p) as [x p']. cbn [fst snd] in Hcb, Hx.
    unfold bind, setPlayer, modify, ret. intros H. apply Ok_inj in H as [H _].
    injection H as <- _ <-. cbn [short_code]. now rewrite Hcb, Hx.
  - destruct (Player.allIn p) as [x p'].
    unfold bind, setPlayer, modify, ret. fields.
    destruct (_ <? _); intros H; apply Ok_inj in H as [H _]; now injection H as _ _ <-.
  - intros H. apply Ok_inj in H as [H _]. discriminate H.
Qed.

(** X17: the history [gameActions] gets one entry per accepted action
    and none for a refused one.  A call of [processAction] that returns
    [false] leaves the history and the action log as they were; one that
    returns [true], the chips of the state lying in the range in which the
    source adds and subtracts exactly (nothing negative, pot and stacks
    together at most 2^53), appends the entry of the action (the index of the
    seat that acted, the short code of the action, the chips it moved to the
    pot and the phase it was made in), followed only by entries of the board
    dealt (player id -1, no amount). *)
Theorem accepted_action_is_recorded (g : t) action amount :
  (forall g', processAction action amount g = Ok false g' ->
     gameActions g' = gameActions g /\ actionLog g' = actionLog g)
  /\ (exact_chips g ->
      forall g', processAction action amount g = Ok true g' ->
       exists p board,
         activePlayer g = Some p
         /\ let delta := pot g' - pot g in
            gameActions g'
            = gameActions g
              ++ GameAction.mk (Z.of_nat (activePlayerIndex g))
                   (short_code action delta (Player.currentBet p + delta))
                   (Some delta) (phase_value (phase g))
                 :: board
            /\ Forall board_entry board).
Proof.
  unfold activePlayer. split; [|intros _]; intros g'; rewrite processAction_unfold;
    intros Hrun;
    destruct (players g !! activePlayerIndex g) as [p|];
    try (apply Ok_inj in Hrun as [Hb <-]; (discriminate Hb || (split; reflexivity)));
    (destruct (Player.canAct p); cbn [negb] in Hrun;
     [|apply Ok_inj in Hrun as [Hb <-]; (discriminate Hb || (split; reflexivity))]);
    destruct (applyAction (activePlayerIndex g) p action amount (marked g))
      as [[[[delta d] s]|] g1|e g1] eqn:Happ; try discriminate Hrun.
  - apply settle_returns_true in Hrun. discriminate Hrun.
  - apply Ok_inj in Hrun as [_ <-].
    destruct (applyAction_shape (activePlayerIndex g) p action amount (marked g))
      as [[_ Heq]|(p' & delta' & cb & d' & s' & _ & Heq)];
      rewrite Heq in Happ; apply Ok_inj in Happ as [Hv <-]; [|discriminate Hv].
    unfold marked. destruct (isFirstAction g); split; reflexivity.
  - exists p. pose proof (applyAction_code _ _ _ _ _ _ _ _ _ Happ) as Hs.
    destruct (applyAction_shape (activePlayerIndex g) p action amount (marked g))
      as [[_ Heq]|(p' & delta' & cb & d' & s' & _ & Heq)];
      rewrite Heq in Happ; apply Ok_inj in Happ as [Hv Hg1]; [discriminate Hv|].
    injection Hv as -> _ _.
    assert (Hpot : pot g' = pot g + delta).
    { rewrite (preserves_Ok eq pot _ _ _ _ (pot_settle _ _ _ _) Hrun), <- Hg1.
      unfold bet_applied. fields. now rewrite marked_pot. }
    destruct (settle_history _ _ _ _ _ _ _ Hrun) as (board & Hga & Hboard).
    exists board. split; [reflexivity|]. cbn zeta.
    replace (pot g' - pot g) with delta by lia.
    split; [|exact Hboard].
    rewrite Hga, <- Hg1, <- app_assoc, <- Hs. unfold bet_applied. fields.
    unfold marked. destruct (isFirstAction g); reflexivity.
Qed.

Lemma four_calls_facts :
  phase four_calls = PREFLOP
  /\ activePlayerIndex four_calls = 2%nat
  /\ map GameAction.action (gameActions four_calls) = ["c"; "c"; "c"; "c"]%string
  /\ map GameAction.action (gameActions on_the_flop)
     = ["c"; "c"; "c"; "c"; "c"; "AcKcQc"]%string
  /\ processAction CALL None four_calls = Ok true on_the_flop.
Proof. by_evaluation. Qed.

Lemma four_calls_exact : exact_chips four_calls.
Proof. apply exact_chips_by_check. by_evaluation. Qed.

Lemma accepted_action_is_recorded_witness :
  (phase four_calls = PREFLOP
   /\ activePlayerIndex four_calls = 2%nat
   /\ map GameAction.action (gameActions four_calls) = ["c"; "c"; "c"; "c"]%string
   /\ map GameAction.action (gameActions on_the_flop)
      = ["c"; "c"; "c"; "c"; "c"; "AcKcQc"]%string
   /\ processAction CALL None four_calls = Ok true on_the_flop)
  /\ exists p board,
       activePlayer four_calls = Some p
       /\ let delta := pot on_the_flop - pot four_calls in
          gameActions on_the_flop
          = gameActions four_calls
            ++ GameAction.mk (Z.of_nat (activePlayerIndex four_calls))
                 (short_code CALL delta (Player.currentBet p + delta))
                 (Some delta) (phase_value (phase four_calls))
               :: board
          /\ Forall board_entry board.
Proof.
  split; [exact four_calls_facts|].
  apply (proj2 (accepted_action_is_recorded four_calls CALL None)
           four_calls_exact on_the_flop).
  apply four_calls_facts.
Defined.

(** * The phases of a hand *)

Lemma advance_phase g adv :
  advance_result g adv ->
  phase (state_of adv) = phase g
  \/ (exists n, next_street (phase g) = Some (phase (state_of adv), n))
  \/ phase (state_of adv) = FINISHED.
Proof.
  intros [Hnone|w rest winner lg Hw Hrest Hwin|ph n k dk cs lg ga Hn Hnext Hdk Hcs Hk
         |k lg Hn Hnext Hriver Hk]; cbn [state_of].
  - right. right. reflexivity.
  - right. right. reflexivity.
  - right. left. exists n. exact Hnext.
  - left. reflexivity.
Qed.

Lemma processAction_phase action amount g :
  length (players g) = 6%nat -> dealable g ->
  phase (state_of (processAction action amount g)) = phase g
  \/ (exists n, next_street (phase g)
                = Some (phase (state_of (processAction action amount g)), n))
  \/ phase (state_of (processAction action amount g)) = FINISHED.
Proof.
  intros Hlen Hdeal.
  destruct (processAction_shape action amount g Hlen Hdeal)
    as [Hp | p Hp Hc | p Hp Hc Href
       | p p' delta cb k lg ga Hp Hc Hacc Hk g3 Hcomp
       | p p' delta cb k lg ga adv Hp Hc Hacc Hk g3 Hcomp Hadv]; cbn [state_of].
  - left. reflexivity.
  - left. reflexivity.
  - left. apply marked_phase.
  - left. unfold g3, moved, bet_applied. fields. apply marked_phase.
  - replace (state_of (lift_advance adv)) with (state_of adv) by now destruct adv.
    assert (Hph : phase g3 = phase g).
    { unfold g3, moved, bet_applied. fields. apply marked_phase. }
    rewrite <- Hph. now apply advance_phase.
Qed.

(** X18: the phases of a hand.  No state reached through the public
    methods is in the phase SHOWDOWN: [advanceToNextPhase] enters it on the
    river and [processHandCompletion] leaves it for FINISHED before
    [processAction] returns.  A call of [processAction], whatever it returns
    or throws, leaves the phase as it is, moves it to the next street (PREFLOP
    to FLOP, FLOP to TURN, TURN to RIVER) or ends the hand (FINISHED). *)
Theorem phase_only_moves_forward (g : t) action amount :
  reachable g ->
  phase g <> SHOWDOWN
  /\ let g' := state_of (processAction action amount g) in
     phase g' = phase g
     \/ (exists n, next_street (phase g) = Some (phase g', n))
     \/ phase g' = FINISHED.
Proof.
  intros Hg. split.
  - clear action amount. induction Hg as [rnd|g g' Hg IH Hstep]; [discriminate|].
    destruct (reachable_well_formed _ _ Hg) as [Hlen Hok].
    destruct Hstep as [stacks _|rnd uuid|action amount].
    + destruct (setPlayerStacks_shape stacks g Hlen) as [[_ ->]|[_ ->]];
        cbn [state_of]; fields; exact IH.
    + destruct (Nat.eq_dec (seats_with_chips (players g)) 0%nat) as [Hz|Hnz].
      * apply seats_with_chips_zero in Hz.
        rewrite (startNewHand_broke rnd uuid g) by (try rewrite Hlen; auto; lia).
        cbn [state_of]. unfold cleared. fields. discriminate.
      * assert (Hex : Exists (fun p => Player.stack p <> 0) (players g)).
        { apply seats_with_chips_pos. lia. }
        destruct (startNewHand_funded rnd uuid g Hlen Hex) as (g2 & Heq & Hst).
        rewrite Heq. cbn [state_of].
        destruct Hst as (cards & d & sb & bb & g3 & _ & _ & _ & _ & _ & _ & _ & _ & _ & _
                         & _ & _ & _ & Hph & _).
        rewrite Hph. discriminate.
    + destruct (processAction_phase action amount g Hlen (table_ok_dealable g Hok))
        as [Heq|[[n Hnext]|Hfin]].
      * now rewrite Heq.
      * intros Hsd. rewrite Hsd in Hnext. destruct (phase g); discriminate Hnext.
      * rewrite Hfin. discriminate.
  - destruct (reachable_well_formed _ _ Hg) as [Hlen Hok].
    exact (processAction_phase action amount g Hlen (table_ok_dealable g Hok)).
Qed.

Lemma phase_only_moves_forward_witness :
  (phase four_calls = PREFLOP
   /\ phase (state_of (processAction CALL None four_calls)) = FLOP)
  /\ phase four_calls <> SHOWDOWN
  /\ let g' := state_of (processAction CALL None four_calls) in
     phase g' = phase four_calls
     \/ (exists n, next_street (phase four_calls) = Some (phase g', n))
     \/ phase g' = FINISHED.
Proof.
  split; [by_evaluation|].
  apply (phase_only_moves_forward four_calls CALL None).
  apply play_reachable, table_reachable.
Defined.

(** * Setting the stacks *)

Lemma restacked_others ps stacks :
  length ps = length stacks ->
  map (Player.set_stack 0) (restacked ps stacks) = map (Player.set_stack 0) ps.
Proof.
  revert stacks. induction ps as [|p ps IH]; intros [|s stacks] H; try discriminate.
  - reflexivity.
  - cbn. f_equal. apply IH. now injection H.
Qed.

(** X19: [setPlayerStacks] rewrites the stacks and nothing else.  Given a
    list that has not 6 entries it throws and leaves the engine as it was.
    Given 6 entries it returns, seat [i] has the stack [stacks[i]] and
    [initialStacks] is the list given; every other field of the engine (pot,
    bets, phase, cards, positions, logs) and of each seat (street bet, hole
    cards, the flags [hasFolded], [isAllIn] and [hasActed]) is kept as it
    was. *)
Theorem setPlayerStacks_rewrites_stacks_only (stacks : list Z) (g : t) :
  length (players g) = 6%nat ->
  (length stacks <> 6%nat -> setPlayerStacks stacks g = Throw InvalidStackCount g)
  /\ (length stacks = 6%nat ->
      exists g', setPlayerStacks stacks g = Ok tt g'
        /\ map Player.stack (players g') = stacks
        /\ initialStacks g' = stacks
        /\ map (Player.set_stack 0) (players g') = map (Player.set_stack 0) (players g)
        /\ set_players [] (set_initialStacks [] g')
           = set_players [] (set_initialStacks [] g)).
Proof.
  intros Hlen.
  destruct (setPlayerStacks_shape stacks g Hlen) as [[Hne Heq]|[Hs Heq]].
  - split; [intros _; exact Heq|intros Hs; contradiction].
  - split; [intros Hne; contradiction|intros _].
    eexists. split; [exact Heq|]. fields.
    split; [apply restacked_stacks; congruence|].
    split; [reflexivity|].
    split; [apply restacked_others; congruence|].
    destruct g. reflexivity.
Qed.

Lemma setPlayerStacks_rewrites_stacks_only_witness :
  length (players blinds_all_in) = 6%nat
  /\ (length six_1000 <> 6%nat ->
      setPlayerStacks six_1000 blinds_all_in = Throw InvalidStackCount blinds_all_in)
  /\ (length six_1000 = 6%nat ->
      exists g', setPlayerStacks six_1000 blinds_all_in = Ok tt g'
        /\ map Player.stack (players g') = six_1000
        /\ initialStacks g' = six_1000
        /\ map (Player.set_stack 0) (players g')
           = map (Player.set_stack 0) (players blinds_all_in)
        /\ set_players [] (set_initialStacks [] g')
           = set_players [] (set_initialStacks [] blinds_all_in)).
Proof.
  split; [by_evaluation|].
  apply (setPlayerStacks_rewrites_stacks_only six_1000 blinds_all_in).
  by_evaluation.
Defined.

(** * Two seats with chips *)

Lemma seat_between a b :
  (a < 6)%nat -> (b < 6)%nat -> a <> b ->
  exists j, (j < 5)%nat /\ ((a + 1 + j) mod 6)%nat = b.
Proof.
  intros Ha Hb Hab. exists ((b + 5 - a) mod 6)%nat.
  destruct a as [|[|[|[|[|[|a]]]]]]; try lia;
    destruct b as [|[|[|[|[|[|b]]]]]]; try lia; vm_compute; split; (lia || reflexivity).
Qed.

Lemma back_to_start a j :
  (a < 6)%nat -> (j < 6)%nat -> ((a + 1 + j) mod 6)%nat = a -> j = 5%nat.
Proof.
  intros Ha Hj.
  destruct a as [|[|[|[|[|[|a]]]]]]; try lia;
    destruct j as [|[|[|[|[|[|j]]]]]]; try lia; vm_compute; congruence.
Qed.

Lemma funded_at_lt ps i : funded_at ps i -> (i < length ps)%nat.
Proof. intros (p & Hp & _). eapply lookup_lt_Some. exact Hp. Qed.

Lemma heads_up_sym ps a b : heads_up ps a b -> heads_up ps b a.
Proof.
  intros (Hab & Ha & Hb & Hall). repeat split; auto.
  intros i Hi. destruct (Hall i Hi); auto.
Qed.

Lemma next_funded_other ps a b k :
  length ps = 6%nat -> heads_up ps a b -> next_funded ps a k -> k = b.
Proof.
  intros Hlen (Hab & Ha & Hb & Hall) (j & Hj & Hk & Hf & Hzero).
  destruct (Hall k Hf) as [-> | ->]; [|reflexivity]. exfalso.
  pose proof (funded_at_lt _ _ Ha) as Hla. pose proof (funded_at_lt _ _ Hb) as Hlb.
  rewrite Hlen in *.
  assert (j = 5%nat) as -> by (apply (back_to_start a); [lia|lia|congruence]).
  destruct (seat_between a b) as (j' & Hj' & Hmod); [lia|lia|exact Hab|].
  destruct (Hzero j' Hj') as (p & Hp & Hs). rewrite Hmod in Hp.
  destruct Hb as (q & Hq & Hnz). congruence.
Qed.

(** X20: with exactly two seats with chips the button posts the big
    blind.  When [startNewHand] returns, the dealer and the small blind are
    the two seats with chips, the big blind is the dealer again, and the street
    bets of the two seats are what they posted: the dealer the big blind of
    40, the other seat the small blind of 20, each capped by the stack the
    seat had. *)
Theorem heads_up_button_posts_big_blind rnd uuid (g g' : t) (a b : nat) :
  length (players g) = 6%nat ->
  heads_up (players g) a b ->
  startNewHand rnd uuid g = Ok tt g' ->
  bigBlindIndex g' = dealerIndex g'
  /\ ((dealerIndex g' = a /\ smallBlindIndex g' = b)
      \/ (dealerIndex g' = b /\ smallBlindIndex g' = a))
  /\ exists pd ps qd qs,
       players g !! dealerIndex g' = Some pd
       /\ players g !! smallBlindIndex g' = Some ps
       /\ players g' !! dealerIndex g' = Some qd
       /\ players g' !! smallBlindIndex g' = Some qs
       /\ Player.currentBet qd = Z.min BIG_BLIND (Player.stack pd)
       /\ Player.currentBet qs = Z.min SMALL_BLIND (Player.stack ps).
Proof.
  intros Hlen Hhu Hrun.
  destruct (startNewHand_seats rnd uuid g g' Hlen Hrun) as (Hnd & Hnsb & Hnbb).
  assert (Hex : Exists (fun p => Player.stack p <> 0) (players g)).
  { destruct Hhu as (_ & (p & Hp & Hnz) & _). apply list.Exists_exists. exists p.
    split; [|exact Hnz]. eapply list_elem_of_lookup_2. exact Hp. }
  destruct (startNewHand_funded rnd uuid g Hlen Hex) as (g'' & Heq & Hst).
  rewrite Hrun in Heq. apply Ok_inj in Heq as [_ <-].
  destruct Hst as (cards & d & sb & bb & g2 & (Hd & Hsb & Hbb) & (Hfd & _) & _ & Hpost
                   & Hview & _ & _ & Hdi & Hsbi & Hbbi & _).
  rewrite Hdi, Hsbi, Hbbi in *. clear Hdi Hsbi Hbbi.
  assert (Hpos : (d = a /\ sb = b /\ bb = a) \/ (d = b /\ sb = a /\ bb = b)).
  { destruct Hhu as (Hab & Ha & Hb & Hall).
    destruct (Hall d Hfd) as [-> | ->]; [left|right].
    - assert (sb = b) as -> by (apply (next_funded_other (players g) a b); repeat split; auto).
      repeat split. apply (next_funded_other (players g) b a); auto.
      apply heads_up_sym. repeat split; auto.
    - assert (sb = a) as ->.
      { apply (next_funded_other (players g) b a); auto.
        apply heads_up_sym. repeat split; auto. }
      repeat split. apply (next_funded_other (players g) a b); auto. repeat split; auto. }
  assert (Hbbd : bb = d) by (destruct Hpos as [(-> & _ & ->)|(-> & _ & ->)]; reflexivity).
  assert (Hne : sb <> d).
  { destruct Hhu as (Hab & _). destruct Hpos as [(-> & -> & _)|(-> & -> & _)]; congruence. }
  subst bb. split; [reflexivity|].
  split; [destruct Hpos as [(-> & -> & _)|(-> & -> & _)]; auto|].
  destruct (lookup_lt_6 (players g) d Hlen Hd) as [pd Hpd].
  destruct (lookup_lt_6 (players g) sb Hlen Hsb) as [ps Hps].
  set (s1 := seated d sb d (cleared cards uuid g)) in *.
  assert (Hl1 : length (players s1) = 6%nat).
  { unfold s1, seated, cleared. fields. now rewrite length_map_reset. }
  assert (Hp1 : players s1 = map Player.reset (players g)) by reflexivity.
  assert (Hi1 : smallBlindIndex s1 = sb /\ bigBlindIndex s1 = d) by (split; reflexivity).
  destruct Hi1 as [Hsb1 Hbb1].
  destruct (postBlinds_ok s1) as (p & q & Hp & Hq & Hblinds).
  { rewrite Hl1, Hsb1. exact Hsb. }
  { rewrite Hl1, Hbb1. exact Hd. }
  rewrite Hsb1, Hbb1, Hp1 in *. clearbody s1.
  rewrite Hpost in Hblinds. apply Ok_inj in Hblinds as [_ Hg2].
  rewrite lookup_map_reset, Hps in Hp. cbn in Hp. injection Hp as <-.
  rewrite list_lookup_insert_ne in Hq by exact Hne.
  rewrite lookup_map_reset, Hpd in Hq. cbn in Hq. injection Hq as <-.
  assert (H2d : players g2 !! d = Some (snd (Player.bet BIG_BLIND (Player.reset pd)))).
  { rewrite Hg2. fields. apply list_lookup_insert_eq.
    rewrite length_insert, length_map_reset. lia. }
  assert (H2s : players g2 !! sb = Some (snd (Player.bet SMALL_BLIND (Player.reset ps)))).
  { rewrite Hg2. fields. rewrite list_lookup_insert_ne by congruence.
    apply list_lookup_insert_eq. rewrite length_map_reset. lia. }
  symmetry in Hview.
  destruct (chips_view_lookup _ _ _ _ Hview H2d) as (qd & Hqd & Hvd).
  destruct (chips_view_lookup _ _ _ _ Hview H2s) as (qs & Hqs & Hvs).
  exists pd, ps, qd, qs. repeat (split; [assumption|]).
  apply (f_equal Player.currentBet) in Hvd, Hvs.
  change (Player.currentBet (Player.set_holeCards [] qd)) with (Player.currentBet qd) in Hvd.
  change (Player.currentBet (Player.set_holeCards [] qs)) with (Player.currentBet qs) in Hvs.
  change (Player.currentBet (Player.set_holeCards [] ?x)) with (Player.currentBet x) in Hvd, Hvs.
  rewrite Hvd, Hvs, !bet_currentBet. split; reflexivity.
Qed.

Lemma heads_up_seats_facts :
  map Player.stack (players heads_up_seats) = heads_up_stacks
  /\ length (players heads_up_seats) = 6%nat
  /\ dealerIndex heads_up_seats = 0%nat
  /\ startNewHand rnd_id "hand-1" heads_up_seats = Ok tt (table heads_up_stacks)
  /\ positions (table heads_up_stacks) = (3, 0, 3)%nat.
Proof. by_evaluation. Qed.

Lemma funded_at_stack ps i :
  funded_at ps i <-> exists s, map Player.stack ps !! i = Some s /\ s <> 0.
Proof.
  change (map Player.stack ps) with (Player.stack <$> ps). rewrite list_lookup_fmap.
  unfold funded_at. split.
  - intros (p & -> & Hnz). eexists. split; [reflexivity|exact Hnz].
  - intros (s & Hs & Hnz). destruct (ps !! i) as [p|]; [|discriminate].
    exists p. split; [reflexivity|]. cbn in Hs. congruence.
Qed.

Lemma heads_up_seats_two : heads_up (players heads_up_seats) 0 3.
Proof.
  pose proof (proj1 heads_up_seats_facts) as Hst.
  split; [discriminate|].
  split; [apply funded_at_stack; rewrite Hst; eexists; split; [reflexivity|discriminate]|].
  split; [apply funded_at_stack; rewrite Hst; eexists; split; [reflexivity|discriminate]|].
  intros i Hi. apply funded_at_stack in Hi as (s & Hs & Hnz). rewrite Hst in Hs.
  destruct i as [|[|[|[|[|[|i]]]]]]; cbn in Hs; try discriminate Hs; auto;
    injection Hs as <-; contradiction.
Qed.

Lemma heads_up_button_posts_big_blind_witness :
  positions (table heads_up_stacks) = (3, 0, 3)%nat
  /\ bigBlindIndex (table heads_up_stacks) = dealerIndex (table heads_up_stacks)
  /\ ((dealerIndex (table heads_up_stacks) = 0%nat
       /\ smallBlindIndex (table heads_up_stacks) = 3%nat)
      \/ (dealerIndex (table heads_up_stacks) = 3%nat
          /\ smallBlindIndex (table heads_up_stacks) = 0%nat))
  /\ exists pd ps qd qs,
       players heads_up_seats !! dealerIndex (table heads_up_stacks) = Some pd
       /\ players heads_up_seats !! smallBlindIndex (table heads_up_stacks) = Some ps
       /\ players (table heads_up_stacks) !! dealerIndex (table heads_up_stacks) = Some qd
       /\ players (table heads_up_stacks) !! smallBlindIndex (table heads_up_stacks) = Some qs
       /\ Player.currentBet qd = Z.min BIG_BLIND (Player.stack pd)
       /\ Player.currentBet qs = Z.min SMALL_BLIND (Player.stack ps).
Proof.
  split; [apply heads_up_seats_facts|].
  apply (heads_up_button_posts_big_blind rnd_id "hand-1" heads_up_seats
           (table heads_up_stacks) 0 3).
  - apply heads_up_seats_facts.
  - exact heads_up_seats_two.
  - apply heads_up_seats_facts.
Defined.

(** * The bet size of the table component *)

Lemma adjustBetAmount_multiple increment prev :
  (exists k, 1 <= k /\ prev = 40 * k) ->
  exists k, 1 <= k /\ PokerGameView.adjustBetAmount increment prev = 40 * k.
Proof.
  intros (k & Hk & ->). unfold PokerGameView.adjustBetAmount, PokerGameView.BIG_BLIND.
  destruct increment.
  - exists (k + 1). lia.
  - destruct (Z.eq_dec k 1) as [->|Hne].
    + exists 1. lia.
    + exists (k - 1). lia.
Qed.

(** X21: the bet size of the table component is a positive multiple
    of the big blind.  It starts at 40, the plus button adds 40 and the minus
    button takes 40 off but never goes below 40; so whatever buttons were
    clicked, the amount passed to [processAction] with a BET is at least the
    big blind the engine asks for. *)
Theorem bet_size_is_multiple_of_big_blind (clicks : list bool) (g : t) :
  (exists k, 1 <= k /\ PokerGameView.betAmount_after clicks = BIG_BLIND * k)
  /\ amount_fits g BET (Some (PokerGameView.betAmount_after clicks)).
Proof.
  assert (H : exists k, 1 <= k /\ PokerGameView.betAmount_after clicks = 40 * k).
  { unfold PokerGameView.betAmount_after.
    assert (H0 : exists k, 1 <= k /\ PokerGameView.initialBetAmount = 40 * k) by (exists 1; split; [lia|reflexivity]).
    revert H0. generalize PokerGameView.initialBetAmount.
    induction clicks as [|c clicks IH]; intros b Hb; cbn [fold_left]; [exact Hb|].
    apply IH. now apply adjustBetAmount_multiple. }
  split; [exact H|].
  destruct H as (k & Hk & Heq). cbn [amount_fits].
  exists (PokerGameView.betAmount_after clicks). split; [reflexivity|].
  rewrite Heq. unfold BIG_BLIND. lia.
Qed.
